(** * fileuploader: the synchronisation engine of [syncer/syncer.go]

    A shallow embedding of the [syncer] package (full and incremental
    synchronisation of a local tree to an SFTP server) together with the
    properties of its upload pipeline and of its swap/backup/rollback
    protocol.

    Conventions of the embedding
    - a cleaned slash-separated path is the list of its components below
      the directory paths start from, so [filepath.Join] is concatenation
      and [filepath.Dir] drops the last component; that directory, ".", is
      the empty list;
    - a Go [error] is the text it prints with [%v]; [fmt.Errorf] is string
      concatenation;
    - [int64] fields are integers of [Z] with the wrap-around written out;
    - the SFTP server is an abstract port (class [RemotePort]); an in-memory
      server with fault injection is its instance [MemServer];
    - one loop iteration of a worker is a small program ([prog]) whose
      nodes are the atomic actions of the source (a remote call, a clock
      read, the mutex-protected counter update, a log line); the worker pool
      interleaves these programs under an arbitrary schedule. *)

From Stdlib Require Import ZArith List String Ascii Bool Lia Permutation DecimalString.
Import ListNotations.

Local Open Scope list_scope.
Local Open Scope string_scope.
Local Open Scope Z_scope.

(** ** Paths, errors, integers *)

Definition path := list string.
Definition error := string.
Definition time := Z.
Definition bytes := list Byte.byte.

(** [filepath.Join] and [filepath.Dir] on cleaned paths. *)
Definition Join (a b : path) : path := (a ++ b)%list.
Definition Dir (p : path) : path := removelast p.

(** The [%s] rendering of a path and the [%d] rendering of an integer. *)
Definition show (p : path) : string :=
  match p with
  | [] => "."
  | _ => String.concat "/" p
  end.

(** [s + suffix] on the string of a path: the suffix lands on the last
    component, and on the "." of the empty path. *)
Definition add_suffix (p : path) (sfx : string) : path :=
  match p with
  | [] => [(show [] ++ sfx)%string]
  | _ => (removelast p ++ [(last p "" ++ sfx)%string])%list
  end.
Definition itoa (z : Z) : string := NilZero.string_of_int (Z.to_int z).

Fixpoint path_eqb (a b : path) : bool :=
  match a, b with
  | [], [] => true
  | x :: a', y :: b' => String.eqb x y && path_eqb a' b'
  | _, _ => false
  end.

(** [is_prefix a q]: [q] is [a] or lies below [a]. *)
Fixpoint is_prefix (a q : path) : bool :=
  match a, q with
  | [], _ => true
  | x :: a', y :: q' => String.eqb x y && is_prefix a' q'
  | _ :: _, [] => false
  end.

(** Two's complement wrap-around of [int64] arithmetic. *)
Definition wrap64 (z : Z) : Z := (z + 2 ^ 63) mod 2 ^ 64 - 2 ^ 63.
Definition int64_add (a b : Z) : Z := wrap64 (a + b).

(** ** Data of the package *)

(** [FileInfo], the entry produced by the local walk. *)
Record FileInfo := mkFileInfo {
  Path : path;
  RelPath : path;
  Size : Z;
  ModTime : time;
  IsDir : bool
}.

(** What [os.Open] followed by the [Read] loop observes of a local file:
    the successive non-final results of [Read] and the way it ends,
    [None] for [io.EOF] and [Some e] for a read error. *)
Record LocalFile := mkLocalFile {
  reads : list bytes;
  read_end : option error
}.

(** One call of the [filepath.Walk] callback: the visited path, the result
    of [filepath.Rel], the [os.FileInfo] fields and the error handed in. *)
Record Visit := mkVisit {
  v_path : path;
  v_rel : error + path;
  v_size : Z;
  v_modtime : time;
  v_isdir : bool;
  v_err : option error
}.

(** The local machine as one sync call sees it: the visits of
    [filepath.Walk s.localPath], the files [os.Open] can open, the
    successive readings of [time.Now] and the layout
    ["20060102_150405"] of [Time.Format]. *)
Record Host := mkHost {
  Walk : list Visit;
  os_Open : path -> error + LocalFile;
  time_Now : nat -> time;
  Format : time -> string
}.

(** ** The remote filesystem port *)

Inductive node :=
| NDir
| NFile (data : bytes) (perm : Z) (atime mtime : time).

(** The calls the engine makes on [*sftp.Client]; a file handle is
    identified with the path it was created at. *)
Inductive Op :=
| Stat (p : path)
| MkdirAll (p : path)
| Create (p : path)
| Write (p : path) (data : bytes)
| Chmod (p : path) (mode : Z)
| Chtimes (p : path) (atime mtime : time)
| Rename (oldname newname : path)
| RemoveDirectory (p : path).

(** The paths whose entry a call may change. *)
Definition touches (op : Op) (q : path) : Prop :=
  match op with
  | Stat _ => False
  | MkdirAll p => is_prefix q p = true
  | Create p | Write p _ | Chmod p _ | Chtimes p _ _ => q = p
  | Rename a b => is_prefix a q = true \/ is_prefix b q = true
  | RemoveDirectory p => is_prefix p q = true
  end.

(** A server: how it answers each call, what it stores at each path, and
    the frame conditions every SFTP server meets. A call may fail for any
    reason (the network included). *)
Class RemotePort (R : Type) := {
  exec : Op -> R -> R * option error;
  lookup : R -> path -> option node;
  exec_frame : forall op s q,
    ~ touches op q -> lookup (fst (exec op s)) q = lookup s q;
  mkdir_keeps : forall p s q,
    lookup s q <> None -> lookup (fst (exec (MkdirAll p) s)) q = lookup s q;
  chmod_sets : forall p m s d m0 a t,
    snd (exec (Chmod p m) s) = None ->
    lookup s p = Some (NFile d m0 a t) ->
    lookup (fst (exec (Chmod p m) s)) p = Some (NFile d m a t);
  chtimes_sets : forall p a' t' s d m a t,
    snd (exec (Chtimes p a' t') s) = None ->
    lookup s p = Some (NFile d m a t) ->
    lookup (fst (exec (Chtimes p a' t') s)) p = Some (NFile d m a' t')
}.

(** ** Atomic actions and job programs *)

Inductive level := Debug | Info | Warn.

(** The actions of the engine that other goroutines can observe. [Locked n]
    is the critical section
    [s.mutex.Lock(); s.syncedSize += int64(n); s.bar.SetCurrent(s.syncedSize); s.mutex.Unlock()]. *)
Inductive action : Type -> Type :=
| Remote (op : Op) : action (option error)
| Now : action time
| Locked (n : Z) : action unit
| Logf (l : level) (msg : string) : action unit.

(** A finite program over these actions. *)
Inductive prog (A : Type) : Type :=
| Ret (a : A)
| Vis (X : Type) (e : action X) (k : X -> prog A).

Arguments Ret {A} a.
Arguments Vis {A X} e k.

Fixpoint bind {A B : Type} (m : prog A) (f : A -> prog B) : prog B :=
  match m with
  | Ret a => f a
  | Vis e k => Vis e (fun x => bind (k x) f)
  end.

Definition call {X : Type} (e : action X) : prog X := Vis e Ret.

Notation "x <- m ;; f" := (bind m (fun x => f))
  (at level 61, m at next level, right associativity).
Notation "m ;;; f" := (bind m (fun _ => f))
  (at level 61, right associativity).

(** What one action answered. *)
Inductive event :=
| Ev (X : Type) (e : action X) (x : X).

Arguments Ev {X} e x.

(** ** The Syncer *)

(** The progress bar: the total it was started with, the values passed to
    [SetCurrent] (latest first) and whether [Finish] was called. *)
Record Bar := mkBar {
  bar_total : Z;
  bar_current : list Z;
  bar_finished : bool
}.

Section Engine.

Context {R : Type} {port : RemotePort R}.
Variable host : Host.

(** [Syncer]. [client] is the server behind the SFTP client; [calls] (the
    remote calls made so far, with their answers) and [clock] (the number of
    readings of [time.Now] so far) are bookkeeping of the model. *)
Record Syncer := mkSyncer {
  client : R;
  localPath : path;
  remotePath : path;
  mode : string;
  workers : Z;
  bar : option Bar;
  totalSize : Z;
  syncedSize : Z;
  logger : list (level * string);
  calls : list (Op * option error);
  clock : nat
}.

(** [New]. *)
Definition New (c : R) (LocalPath RemotePath : path) (Mode : string) (Workers : Z)
  : Syncer :=
  {| client := c; localPath := LocalPath; remotePath := RemotePath;
     mode := Mode; workers := Workers; bar := None; totalSize := 0;
     syncedSize := 0; logger := []; calls := []; clock := 0 |}.

Definition set_client (c : R) (cs : list (Op * option error)) (s : Syncer) :=
  {| client := c; localPath := localPath s; remotePath := remotePath s;
     mode := mode s; workers := workers s; bar := bar s;
     totalSize := totalSize s; syncedSize := syncedSize s;
     logger := logger s; calls := cs; clock := clock s |}.

Definition set_clock (n : nat) (s : Syncer) :=
  {| client := client s; localPath := localPath s; remotePath := remotePath s;
     mode := mode s; workers := workers s; bar := bar s;
     totalSize := totalSize s; syncedSize := syncedSize s;
     logger := logger s; calls := calls s; clock := n |}.

Definition set_bar (b : option Bar) (s : Syncer) :=
  {| client := client s; localPath := localPath s; remotePath := remotePath s;
     mode := mode s; workers := workers s; bar := b;
     totalSize := totalSize s; syncedSize := syncedSize s;
     logger := logger s; calls := calls s; clock := clock s |}.

Definition set_totalSize (z : Z) (s : Syncer) :=
  {| client := client s; localPath := localPath s; remotePath := remotePath s;
     mode := mode s; workers := workers s; bar := bar s;
     totalSize := z; syncedSize := syncedSize s;
     logger := logger s; calls := calls s; clock := clock s |}.

Definition set_syncedSize (z : Z) (s : Syncer) :=
  {| client := client s; localPath := localPath s; remotePath := remotePath s;
     mode := mode s; workers := workers s; bar := bar s;
     totalSize := totalSize s; syncedSize := z;
     logger := logger s; calls := calls s; clock := clock s |}.

Definition set_logger (l : list (level * string)) (s : Syncer) :=
  {| client := client s; localPath := localPath s; remotePath := remotePath s;
     mode := mode s; workers := workers s; bar := bar s;
     totalSize := totalSize s; syncedSize := syncedSize s;
     logger := l; calls := calls s; clock := clock s |}.

(** [pb.Full.Start64(total)] and the bar methods the engine uses. *)
Definition bar_Start64 (total : Z) : Bar :=
  {| bar_total := total; bar_current := []; bar_finished := false |}.

Definition bar_SetCurrent (v : Z) (b : option Bar) : option Bar :=
  match b with
  | Some b => Some {| bar_total := bar_total b;
                      bar_current := v :: bar_current b;
                      bar_finished := bar_finished b |}
  | None => None
  end.

Definition bar_Finish (s : Syncer) : Syncer :=
  set_bar (match bar s with
           | Some b => Some {| bar_total := bar_total b;
                               bar_current := bar_current b;
                               bar_finished := true |}
           | None => None
           end) s.

(** The effect of one action on the Syncer, and its answer. [Sync] starts
    the bar before the first entry is uploaded, so [Locked] meets a started
    bar in every run of [Sync]. On a Syncer with no bar, where the source
    would dereference the nil [s.bar], only the counter is updated. *)
Definition perform {X : Type} (e : action X) (s : Syncer) : Syncer * X :=
  match e in action X return Syncer * X with
  | Remote op =>
      let cr := exec op (client s) in
      (set_client (fst cr) (calls s ++ [(op, snd cr)])%list s, snd cr)
  | Now => (set_clock (S (clock s)) s, time_Now host (clock s))
  | Locked n =>
      let v := int64_add (syncedSize s) n in
      (set_bar (bar_SetCurrent v (bar s)) (set_syncedSize v s), tt)
  | Logf l msg => (set_logger (logger s ++ [(l, msg)])%list s, tt)
  end.

(** Running a program on its own, with no other goroutine in between. *)
Fixpoint run {A : Type} (p : prog A) (s : Syncer) : Syncer * A :=
  match p with
  | Ret a => (s, a)
  | Vis e k => let sx := perform e s in run (k (snd sx)) (fst sx)
  end.

(** ** Uploading one entry *)

(** The copy loop of [uploadFile]: each [Read] that returned [n > 0] bytes
    is written to the remote file and then counted under the mutex; a
    [Read] that returned nothing is skipped; the loop leaves on [io.EOF]
    and returns on any other read error. *)
Fixpoint copyLoop (remoteFilePath : path) (rs : list bytes) (fin : option error)
  : prog (option error) :=
  match rs with
  | [] =>
      match fin with
      | None => Ret None
      | Some err => Ret (Some ("failed to read local file: " ++ err))
      end
  | buf :: rs' =>
      let n := Z.of_nat (List.length buf) in
      if 0 <? n then
        writeErr <- call (Remote (Write remoteFilePath buf)) ;;
        match writeErr with
        | Some writeErr =>
            Ret (Some ("failed to write to remote file: " ++ writeErr))
        | None =>
            call (Locked n) ;;; copyLoop remoteFilePath rs' fin
        end
      else copyLoop remoteFilePath rs' fin
  end.

(** [uploadFile] up to the end of the copy loop: open the local file, make
    the remote directory, create the remote file, copy. The buffer pool and
    the deferred [Close] calls have no counterpart here. *)
Definition copyContent (file : FileInfo) (remoteBasePath : path)
  : prog (option error) :=
  match os_Open host (Path file) with
  | inl err => Ret (Some ("failed to open local file: " ++ err))
  | inr localFile =>
      let remoteFilePath := Join remoteBasePath (RelPath file) in
      let remoteDir := Dir remoteFilePath in
      err <- call (Remote (MkdirAll remoteDir)) ;;
      match err with
      | Some err => Ret (Some ("failed to create remote directory: " ++ err))
      | None =>
          err <- call (Remote (Create remoteFilePath)) ;;
          match err with
          | Some err => Ret (Some ("failed to create remote file: " ++ err))
          | None => copyLoop remoteFilePath (reads localFile) (read_end localFile)
          end
      end
  end.

(** The end of [uploadFile]: permissions 0644 (420), access time
    [time.Now()], modification time of the local file; a failure of either
    call is a warning. *)
Definition setMetadata (file : FileInfo) (remoteFilePath : path)
  : prog (option error) :=
  err <- call (Remote (Chmod remoteFilePath 420)) ;;
  match err with
  | Some err =>
      call (Logf Warn ("Failed to set permissions for " ++ show remoteFilePath
                       ++ ": " ++ err))
  | None => Ret tt
  end ;;;
  now <- call Now ;;
  err <- call (Remote (Chtimes remoteFilePath now (ModTime file))) ;;
  match err with
  | Some err =>
      call (Logf Warn ("Failed to set modification time for "
                       ++ show remoteFilePath ++ ": " ++ err))
  | None => Ret tt
  end ;;;
  call (Logf Debug ("Uploaded: " ++ show (RelPath file) ++ " ("
                    ++ itoa (Size file) ++ " bytes)")) ;;;
  Ret None.

Definition uploadFile (file : FileInfo) (remoteBasePath : path)
  : prog (option error) :=
  err <- copyContent file remoteBasePath ;;
  match err with
  | Some err => Ret (Some err)
  | None => setMetadata file (Join remoteBasePath (RelPath file))
  end.

(** The body of the loop of [worker] for one received entry; the value
    returned is what the worker sends on the [errors] channel. *)
Definition job (remoteBasePath : path) (file : FileInfo) : prog (option error) :=
  if IsDir file then
    let remoteDirPath := Join remoteBasePath (RelPath file) in
    call (Logf Debug ("Creating remote directory: " ++ show remoteDirPath)) ;;;
    err <- call (Remote (MkdirAll remoteDirPath)) ;;
    match err with
    | Some err =>
        Ret (Some ("failed to create remote directory " ++ show remoteDirPath
                   ++ ": " ++ err))
    | None => Ret None
    end
  else
    err <- uploadFile file remoteBasePath ;;
    match err with
    | Some err =>
        Ret (Some ("failed to upload file " ++ show (RelPath file) ++ ": " ++ err))
    | None => Ret None
    end.

(** ** The worker pool *)

(** A worker waits at [range jobs], is inside the loop body for an entry
    (with what is left of the body and the events of this entry so far,
    latest first), or has returned. *)
Inductive wstate :=
| Idle
| Running (f : FileInfo) (p : prog (option error)) (h : list event)
| Exited.

(** An entry a worker is through with: the entry, the error it sent (if
    any) and its events, latest first. *)
Record Finished := mkFinished {
  job_file : FileInfo;
  job_result : option error;
  job_events : list event
}.

(** [uploadFiles] while the workers run: the Syncer they share, the
    [jobs] and [errors] channels, the workers, and the entries done so far
    (bookkeeping of the model). All entries are in the buffered [jobs]
    channel from the start: its capacity is [len(files)], so the sender
    never waits and receivers take the entries in order. *)
Record pool := mkPool {
  sess : Syncer;
  jobs : list FileInfo;
  errors : list error;
  threads : list wstate;
  done : list Finished
}.

Fixpoint upd (i : nat) (w : wstate) (l : list wstate) : list wstate :=
  match l, i with
  | [], _ => []
  | _ :: l', O => w :: l'
  | x :: l', S i' => x :: upd i' w l'
  end.

(** One atomic step of worker [i]: receive an entry (or return, the channel
    being closed and empty), perform the next action of the loop body, or
    finish the body and send its error. *)
Definition worker (remoteBasePath : path) (i : nat) (pl : pool) : pool :=
  match nth_error (threads pl) i with
  | None | Some Exited => pl
  | Some Idle =>
      match jobs pl with
      | [] => mkPool (sess pl) [] (errors pl) (upd i Exited (threads pl)) (done pl)
      | file :: rest =>
          mkPool (sess pl) rest (errors pl)
                 (upd i (Running file (job remoteBasePath file) []) (threads pl))
                 (done pl)
      end
  | Some (Running file (Ret r) h) =>
      mkPool (sess pl) (jobs pl)
             (match r with Some err => errors pl ++ [err] | None => errors pl end)%list
             (upd i Idle (threads pl))
             (done pl ++ [mkFinished file r h])%list
  | Some (Running file (Vis e k) h) =>
      let sx := perform e (sess pl) in
      mkPool (fst sx) (jobs pl) (errors pl)
             (upd i (Running file (k (snd sx)) (Ev e (snd sx) :: h)) (threads pl))
             (done pl)
  end.

(** The workers run in the order a schedule gives. *)
Fixpoint run_pool (remoteBasePath : path) (sched : list nat) (pl : pool) : pool :=
  match sched with
  | [] => pl
  | i :: sched' => run_pool remoteBasePath sched' (worker remoteBasePath i pl)
  end.

Definition exited (w : wstate) : bool :=
  match w with Exited => true | _ => false end.

Definition start_pool (files : list FileInfo) (s : Syncer) : pool :=
  mkPool s files [] (repeat Idle (Z.to_nat (workers s))) [].

(** [uploadFiles]: start [s.workers] workers, queue every entry, wait for
    the workers and report the first error of the [errors] channel. The
    result is [None] when the schedule ends before [wg.Wait()] returns. *)
Definition uploadFiles (sched : list nat) (files : list FileInfo)
  (remoteBasePath : path) (s : Syncer) : option (Syncer * option error) :=
  let pl := run_pool remoteBasePath sched (start_pool files s) in
  if forallb exited (threads pl) then
    Some (sess pl,
          match errors pl with
          | [] => None
          | err :: _ => Some ("worker error: " ++ err)
          end)
  else None.

(** ** The orchestrator *)

(** The callback of [filepath.Walk] over the visits, with [files] the slice
    collected so far; the walk stops at the first error. *)
Fixpoint walkFn (vs : list Visit) (files : list FileInfo)
  : prog (error + list FileInfo) :=
  match vs with
  | [] => Ret (inr files)
  | v :: vs' =>
      match v_err v with
      | Some err => Ret (inl err)
      | None =>
          match v_rel v with
          | inl err => Ret (inl err)
          | inr [] => walkFn vs' files
          | inr relPath =>
              call (Logf Debug
                      (if v_isdir v
                       then "Found directory: " ++ show relPath
                       else "Found file: " ++ show relPath ++ " ("
                            ++ itoa (v_size v) ++ " bytes)")) ;;;
              walkFn vs' (files ++ [mkFileInfo (v_path v) relPath (v_size v)
                                              (v_modtime v) (v_isdir v)])%list
          end
      end
  end.

(** [collectLocalFiles]. *)
Definition collectLocalFiles (s : Syncer) : prog (error + list FileInfo) :=
  call (Logf Info ("Collecting files from: " ++ show (localPath s))) ;;;
  r <- walkFn (Walk host) [] ;;
  match r with
  | inl err => Ret (inl ("failed to walk local directory: " ++ err))
  | inr files =>
      call (Logf Info ("Found " ++ itoa (Z.of_nat (List.length files))
                       ++ " files/directories")) ;;;
      Ret (inr files)
  end.

(** The total shown by the progress bar: the sizes of the file entries. *)
Definition sum_sizes (files : list FileInfo) : Z :=
  fold_left (fun total file =>
               if IsDir file then total else int64_add total (Size file))
            files 0.

(** [s.totalSize = ...; s.bar = pb.Full.Start64(s.totalSize)]; the display
    settings of the bar are not part of the model. *)
Definition start_progress (files : list FileInfo) (s : Syncer) : Syncer :=
  set_bar (Some (bar_Start64 (sum_sizes files)))
          (set_totalSize (sum_sizes files) s).

(** [fullSync] up to the creation of the temporary directory: either the
    error returned there, or the collected entries and the temporary path. *)
Definition fullSync_begin (s : Syncer)
  : Syncer * (error + list FileInfo * path) :=
  let s1 := run (call (Logf Info "Performing full synchronization...") ;;;
                 collectLocalFiles s) s in
  match snd s1 with
  | inl err => (fst s1, inl ("failed to collect local files: " ++ err))
  | inr localFiles =>
      let s2 := perform Now (start_progress localFiles (fst s1)) in
      let tempRemotePath :=
        Join (Dir (remotePath s)) [".sync_tmp_" ++ Format host (snd s2)] in
      let s3 := run (call (Logf Info ("Creating temporary directory: "
                                      ++ show tempRemotePath)) ;;;
                     call (Remote (MkdirAll tempRemotePath))) (fst s2) in
      match snd s3 with
      | Some err =>
          (bar_Finish (fst s3),
           inl ("failed to create temporary directory: " ++ err))
      | None => (fst s3, inr (localFiles, tempRemotePath))
      end
  end.

(** The deferred function of [fullSync]. *)
Definition fullSync_defer (tempRemotePath : path) (s : Syncer) : Syncer :=
  bar_Finish
    (fst (run (call (Logf Info ("Cleaning up temporary directory: "
                                ++ show tempRemotePath)) ;;;
               err <- call (Remote (RemoveDirectory tempRemotePath)) ;;
               match err with
               | Some err =>
                   call (Logf Warn ("Failed to remove temporary directory: "
                                    ++ err))
               | None => Ret tt
               end) s)).

(** [fullSync] after the upload, first part: the existing remote directory
    is renamed to the backup path. The result is the backup path and the
    error of the rename, if any. *)
Definition fullSync_backup (remotePath : path) : prog (path * option error) :=
  now <- call Now ;;
  let backupPath := add_suffix remotePath (".bak_" ++ Format host now) in
  call (Logf Info ("Creating backup at: " ++ show backupPath)) ;;;
  statErr <- call (Remote (Stat remotePath)) ;;
  err <- match statErr with
         | None => call (Remote (Rename remotePath backupPath))
         | Some _ => Ret None
         end ;;
  Ret (backupPath, err).

(** [fullSync] after the upload, second part: the temporary directory is
    renamed to the target; on failure the backup is restored when it
    exists; on success the backup is removed. *)
Definition fullSync_commit (remotePath tempRemotePath backupPath : path)
  : prog (option error) :=
  call (Logf Info ("Renaming " ++ show tempRemotePath ++ " to "
                   ++ show remotePath)) ;;;
  err <- call (Remote (Rename tempRemotePath remotePath)) ;;
  match err with
  | Some err =>
      backupErr <- call (Remote (Stat backupPath)) ;;
      match backupErr with
      | None =>
          restoreErr <- call (Remote (Rename backupPath remotePath)) ;;
          match restoreErr with
          | Some restoreErr =>
              Ret (Some ("sync failed and restore failed: " ++ err
                         ++ ", restore error: " ++ restoreErr))
          | None => Ret (Some ("sync failed, restored from backup: " ++ err))
          end
      | Some _ =>
          Ret (Some ("failed to rename temporary directory: " ++ err))
      end
  | None =>
      statErr <- call (Remote (Stat backupPath)) ;;
      match statErr with
      | None =>
          call (Logf Info ("Removing backup directory: " ++ show backupPath)) ;;;
          err <- call (Remote (RemoveDirectory backupPath)) ;;
          match err with
          | Some err =>
              call (Logf Warn ("Failed to remove backup directory: " ++ err))
          | None => Ret tt
          end
      | Some _ => Ret tt
      end ;;;
      Ret None
  end.

Definition fullSync_swap (remotePath tempRemotePath : path)
  : prog (option error) :=
  backup <- fullSync_backup remotePath ;;
  match snd backup with
  | Some err => Ret (Some ("failed to create backup: " ++ err))
  | None => fullSync_commit remotePath tempRemotePath (fst backup)
  end.

(** [fullSync] from the upload on, before the deferred function runs. *)
Definition fullSync_run (sched : list nat) (localFiles : list FileInfo)
  (tempRemotePath : path) (s : Syncer) : option (Syncer * option error) :=
  match uploadFiles sched localFiles tempRemotePath s with
  | None => None
  | Some (s1, Some err) => Some (s1, Some ("failed to upload files: " ++ err))
  | Some (s1, None) => Some (run (fullSync_swap (remotePath s) tempRemotePath) s1)
  end.

(** [fullSync]. *)
Definition fullSync (sched : list nat) (s : Syncer)
  : option (Syncer * option error) :=
  match fullSync_begin s with
  | (s1, inl err) => Some (s1, Some err)
  | (s1, inr (localFiles, tempRemotePath)) =>
      match fullSync_run sched localFiles tempRemotePath s1 with
      | None => None
      | Some (s2, result) => Some (fullSync_defer tempRemotePath s2, result)
      end
  end.

(** [incrementalSync]. *)
Definition incrementalSync (sched : list nat) (s : Syncer)
  : option (Syncer * option error) :=
  let s1 := run (call (Logf Info "Performing incremental synchronization...") ;;;
                 collectLocalFiles s) s in
  match snd s1 with
  | inl err => Some (fst s1, Some ("failed to collect local files: " ++ err))
  | inr localFiles =>
      let s2 := run (call (Remote (MkdirAll (remotePath s))))
                    (start_progress localFiles (fst s1)) in
      match snd s2 with
      | Some err =>
          Some (bar_Finish (fst s2),
                Some ("failed to create remote directory: " ++ err))
      | None =>
          match uploadFiles sched localFiles (remotePath s) (fst s2) with
          | None => None
          | Some (s3, Some err) =>
              Some (bar_Finish s3, Some ("failed to upload files: " ++ err))
          | Some (s3, None) => Some (bar_Finish s3, None)
          end
      end
  end.

(** [Sync]. *)
Definition Sync (sched : list nat) (s : Syncer) : option (Syncer * option error) :=
  if String.eqb (mode s) "full" then fullSync sched s
  else if String.eqb (mode s) "incremental" then incrementalSync sched s
  else Some (s, Some ("unsupported sync mode: " ++ mode s)).

End Engine.

Arguments Syncer R : clear implicits.
Arguments pool R : clear implicits.

(** ** An in-memory server with fault injection *)

Module Mem.

(** The stored tree as an association list (the first binding of a path
    counts), the faults to inject ([faults n] makes the [n]-th call fail
    with the given error and no effect) and the number of calls served. *)
Record server := mkServer {
  entries : list (path * node);
  faults : nat -> option error;
  served : nat
}.

Definition find_entry (es : list (path * node)) (p : path) : option node :=
  match find (fun e => path_eqb (fst e) p) es with
  | Some e => Some (snd e)
  | None => None
  end.

(** The non-empty prefixes of a path, shortest first. *)
Fixpoint prefixes (p : path) : list path :=
  match p with
  | [] => []
  | x :: p' => [x] :: map (cons x) (prefixes p')
  end.

Definition is_file (n : option node) : bool :=
  match n with Some (NFile _ _ _ _) => true | _ => false end.

Definition is_dir (es : list (path * node)) (p : path) : bool :=
  match p, find_entry es p with
  | [], _ => true
  | _, Some NDir => true
  | _, _ => false
  end.

Definition add_dir (es : list (path * node)) (q : path) : list (path * node) :=
  match find_entry es q with
  | None => (q, NDir) :: es
  | Some _ => es
  end.

Definition rebase (a b : path) (e : path * node) : path * node :=
  if is_prefix a (fst e)
  then ((b ++ skipn (List.length a) (fst e))%list, snd e)
  else e.

(** What a call does when no fault is injected. [RemoveDirectory] is the
    SFTP [rmdir]: it refuses a directory that is not empty. *)
Definition apply (op : Op) (es : list (path * node))
  : list (path * node) * option error :=
  match op with
  | Stat p =>
      (es, match p, find_entry es p with
           | _ :: _, None => Some "file does not exist"
           | _, _ => None
           end)
  | MkdirAll p =>
      if existsb (fun q => is_file (find_entry es q)) (prefixes p)
      then (es, Some "not a directory")
      else (fold_left add_dir (prefixes p) es, None)
  | Create p =>
      match p with
      | [] => (es, Some "is a directory")
      | _ =>
          if negb (is_dir es (Dir p)) then (es, Some "file does not exist")
          else match find_entry es p with
               | Some NDir => (es, Some "is a directory")
               | Some (NFile _ m a t) => ((p, NFile [] m a t) :: es, None)
               | None => ((p, NFile [] 438 0 0) :: es, None)
               end
      end
  | Write p data =>
      match find_entry es p with
      | Some (NFile d m a t) => ((p, NFile (d ++ data)%list m a t) :: es, None)
      | _ => (es, Some "bad file handle")
      end
  | Chmod p m =>
      match find_entry es p with
      | Some (NFile d _ a t) => ((p, NFile d m a t) :: es, None)
      | Some NDir => (es, None)
      | None => (es, Some "file does not exist")
      end
  | Chtimes p a t =>
      match find_entry es p with
      | Some (NFile d m _ _) => ((p, NFile d m a t) :: es, None)
      | Some NDir => (es, None)
      | None => (es, Some "file does not exist")
      end
  | Rename a b =>
      match a, find_entry es a, find_entry es b with
      | [], _, _ => (es, Some "failure")
      | _, None, _ => (es, Some "file does not exist")
      | _, Some _, Some _ => (es, Some "file exists")
      | _, Some _, None =>
          if is_prefix a b || negb (is_dir es (Dir b)) then (es, Some "failure")
          else (map (rebase a b) es, None)
      end
  | RemoveDirectory p =>
      match find_entry es p with
      | Some NDir =>
          if existsb (fun e => is_prefix p (fst e) && negb (path_eqb (fst e) p)) es
          then (es, Some "directory not empty")
          else (filter (fun e => negb (path_eqb (fst e) p)) es, None)
      | Some _ => (es, Some "not a directory")
      | None => (es, Some "file does not exist")
      end
  end.

Definition serve (op : Op) (s : server) : server * option error :=
  match faults s (served s) with
  | Some err => (mkServer (entries s) (faults s) (S (served s)), Some err)
  | None =>
      let r := apply op (entries s) in
      (mkServer (fst r) (faults s) (S (served s)), snd r)
  end.

Definition find_node (s : server) (p : path) : option node :=
  find_entry (entries s) p.

End Mem.

(** * Vocabulary of the properties *)

(** [complete_run p h a]: [h] lists, in order, the actions of a run of [p]
    from its start to its end, with their answers, and [a] is its result. *)
Fixpoint complete_run {A : Type} (p : prog A) (h : list event) (a : A) : Prop :=
  match p with
  | Ret a' => h = [] /\ a = a'
  | Vis e k => exists x h', h = Ev e x :: h' /\ complete_run (k x) h' a
  end.

(** [safe P p]: every action [p] can come to perform satisfies [P]. *)
Fixpoint safe {A : Type} (P : forall X, action X -> Prop) (p : prog A) : Prop :=
  match p with
  | Ret _ => True
  | Vis e k => P _ e /\ forall x, safe P (k x)
  end.

Definition running (l : list wstate) : list FileInfo :=
  flat_map (fun w => match w with Running f _ _ => [f] | _ => [] end) l.

Definition sent (ds : list Finished) : list error :=
  flat_map (fun d => match job_result d with Some err => [err] | None => [] end) ds.

Definition on_remote (Pop : Op -> Prop) (X : Type) (e : action X) : Prop :=
  match e with
  | Remote op => Pop op
  | _ => True
  end.

(** The remote calls the loop body can make for an entry. *)
Definition job_op (base : path) (f : FileInfo) (op : Op) : Prop :=
  match op with
  | MkdirAll p =>
      (IsDir f = true /\ p = Join base (RelPath f)) \/
      (IsDir f = false /\ p = Dir (Join base (RelPath f)))
  | Create p | Write p _ => IsDir f = false /\ p = Join base (RelPath f)
  | Chmod p m => IsDir f = false /\ p = Join base (RelPath f) /\ m = 420
  | Chtimes p _ t => IsDir f = false /\ p = Join base (RelPath f) /\ t = ModTime f
  | Stat _ | Rename _ _ | RemoveDirectory _ => False
  end.

Definition no_remote (X : Type) (e : action X) : Prop :=
  match e with
  | Remote _ => False
  | _ => True
  end.

(** The entries the walk collects, without the log lines. *)
Fixpoint walk_result (vs : list Visit) (files : list FileInfo)
  : error + list FileInfo :=
  match vs with
  | [] => inr files
  | v :: vs' =>
      match v_err v with
      | Some err => inl err
      | None =>
          match v_rel v with
          | inl err => inl err
          | inr [] => walk_result vs' files
          | inr relPath =>
              walk_result vs' (files ++ [mkFileInfo (v_path v) relPath (v_size v)
                                                    (v_modtime v) (v_isdir v)])%list
          end
      end
  end.

Definition local_entries (host : Host) : list FileInfo :=
  match walk_result (Walk host) [] with
  | inr files => files
  | inl _ => []
  end.

(** The remote calls of an incremental synchronisation: directories are
    made, and files are created, written and given their mode and times at
    the remote paths of local file entries. *)
Definition incremental_op (base : path) (files : list FileInfo) (op : Op) : Prop :=
  match op with
  | MkdirAll p =>
      p = base \/
      exists f, In f files /\
                (p = Join base (RelPath f) \/ p = Dir (Join base (RelPath f)))
  | Create p | Write p _ | Chmod p _ | Chtimes p _ _ =>
      exists f, In f files /\ IsDir f = false /\ p = Join base (RelPath f)
  | Stat _ | Rename _ _ | RemoveDirectory _ => False
  end.

(** The remote calls that only concern the temporary directory. *)
Definition staged (temp : path) (op : Op) : Prop :=
  match op with
  | MkdirAll p => p = Dir temp \/ is_prefix temp p = true
  | Create p | Write p _ | Chmod p _ | Chtimes p _ _ => is_prefix temp p = true
  | RemoveDirectory p => p = temp
  | Stat _ | Rename _ _ => False
  end.

(** The remote calls among the events of an entry, the bytes of its
    successful writes, and the bytes it has added to [s.syncedSize]. *)
Definition ev_call (ev : event) : list (Op * option error) :=
  match ev with
  | Ev e x =>
      match e in action X return X -> list (Op * option error) with
      | Remote op => fun r => [(op, r)]
      | _ => fun _ => []
      end x
  end.

Definition ev_written (ev : event) : Z :=
  match ev with
  | Ev e x =>
      match e in action X return X -> Z with
      | Remote (Write _ data) =>
          fun r => match r with
                   | None => Z.of_nat (List.length data)
                   | Some _ => 0
                   end
      | _ => fun _ => 0
      end x
  end.

Definition ev_counted (ev : event) : Z :=
  match ev with
  | Ev e _ => match e with Locked n => n | _ => 0 end
  end.

Definition remote_calls (h : list event) : list (Op * option error) :=
  flat_map ev_call h.

Definition sumZ (l : list Z) : Z := fold_right Z.add 0 l.

Definition written (h : list event) : Z := sumZ (map ev_written h).
Definition counted (h : list event) : Z := sumZ (map ev_counted h).

(** The bytes a local file yields to the copy loop. *)
Definition file_bytes (lf : LocalFile) : Z :=
  sumZ (map (fun buf => Z.of_nat (List.length buf)) (reads lf)).

Definition nonneg_locked (X : Type) (e : action X) : Prop :=
  match e with
  | Locked n => 0 <= n
  | _ => True
  end.

Definition thread_counted (w : wstate) : Z :=
  match w with
  | Running _ _ h => counted h
  | _ => 0
  end.

(** The bytes counted so far by the entries of a pool, finished or not. *)
Definition pool_counted {R : Type} (pl : pool R) : Z :=
  sumZ (map (fun d => counted (job_events d)) (done pl))
  + sumZ (map thread_counted (threads pl)).

(** The bytes of the successful chunk writes of the finished entries, and
    the sum of the sizes of the file entries of a list. *)
Definition total_written (ds : list Finished) : Z :=
  sumZ (map (fun d => written (job_events d)) ds).

Definition sizes (files : list FileInfo) : Z :=
  sumZ (map (fun f => if IsDir f then 0 else Size f) files).

(** The uploaded file entries (the file entries finished without error)
    and the finished entries that sent an error. *)
Definition uploaded (ds : list Finished) : list FileInfo :=
  map job_file
      (filter (fun d => match job_result d with None => negb (IsDir (job_file d))
                                          | Some _ => false end) ds).

Definition failed (ds : list Finished) : list Finished :=
  filter (fun d => match job_result d with Some _ => true | None => false end) ds.

(** The entries of an error-free walk: one per visit other than the root,
    in the order of the walk. *)
Definition visit_entries (vs : list Visit) : list FileInfo :=
  flat_map (fun v => match v_rel v with
                     | inr (x :: rel) =>
                         [mkFileInfo (v_path v) (x :: rel) (v_size v)
                                     (v_modtime v) (v_isdir v)]
                     | _ => []
                     end) vs.

(** What a visit makes the callback return: the error handed in, else the
    error of [filepath.Rel]. *)
Definition visit_error (v : Visit) : option error :=
  match v_err v, v_rel v with
  | Some err, _ => Some err
  | None, inl err => Some err
  | None, inr _ => None
  end.

Definition log_only (X : Type) (e : action X) : Prop :=
  match e with
  | Logf _ _ => True
  | _ => False
  end.

(** The Syncer between [pb.Full.Start64] and [bar.Finish], with [c0] the
    counter when the bar was started: the total is set, the bar is started
    with it and not finished, and the counter is the last value given to
    the bar, or still [c0] when none was given. *)
Definition bar_tracks {R : Type} (total c0 : Z) (s : Syncer R) : Prop :=
  totalSize s = total /\
  exists b, bar s = Some b /\ bar_total b = total /\ bar_finished b = false /\
            hd c0 (bar_current b) = syncedSize s.

(** The same once [bar.Finish] was called. *)
Definition bar_closed {R : Type} (total c0 : Z) (s : Syncer R) : Prop :=
  totalSize s = total /\
  exists b, bar s = Some b /\ bar_total b = total /\ bar_finished b = true /\
            hd c0 (bar_current b) = syncedSize s.

(** The bytes of the successful writes of a list of calls, in order. *)
Definition written_data (cs : list (Op * option error)) : bytes :=
  flat_map (fun c => match c with
                     | (Write _ data, None) => data
                     | _ => []
                     end) cs.

Definition succeeded (c : Op * option error) : Prop := snd c = None.

Definition sets_metadata (c : Op * option error) : Prop :=
  match fst c with
  | Chmod _ _ | Chtimes _ _ _ => True
  | _ => False
  end.

(** The remote calls of a full replacement: files are made and written
    only below the temporary directory; the target is only looked up and
    renamed; a backup path (the target path with a ".bak_" suffix) is only
    looked up, renamed and removed. *)
Definition full_op (fmt : time -> string) (target temp : path) (op : Op) : Prop :=
  match op with
  | MkdirAll p => p = Dir temp \/ is_prefix temp p = true
  | Create p | Write p _ | Chmod p _ | Chtimes p _ _ => is_prefix temp p = true
  | Stat p => p = target \/ exists t, p = add_suffix target (".bak_" ++ fmt t)
  | Rename a b =>
      (a = temp /\ b = target) \/
      exists t, (a = target /\ b = add_suffix target (".bak_" ++ fmt t)) \/
                (a = add_suffix target (".bak_" ++ fmt t) /\ b = target)
  | RemoveDirectory p =>
      p = temp \/ exists t, p = add_suffix target (".bak_" ++ fmt t)
  end.

(** The Syncer as [incrementalSync] hands it to [uploadFiles]: the local
    tree is collected, the progress bar is started and the remote base
    directory is made. *)
Definition started {R : Type} {port : RemotePort R} (h : Host) (s : Syncer R)
  : Syncer R :=
  let s1 := run h (call (Logf Info "Performing incremental synchronization...") ;;;
                   collectLocalFiles h s) s in
  fst (run h (call (Remote (MkdirAll (remotePath s))))
           (start_progress (local_entries h) (fst s1))).

(** The Syncer as [fullSync] has it when the upload is done and the backup
    step begins. *)
Definition after_upload {R : Type} {port : RemotePort R} (h : Host)
  (sched : list nat) (s : Syncer R) : Syncer R :=
  match fullSync_begin h s with
  | (s1, inr (files, temp)) =>
      match uploadFiles h sched files temp s1 with
      | Some (s2, _) => s2
      | None => s1
      end
  | (s1, inl _) => s1
  end.

(** * Concrete inputs *)

Definition ex_bytes (n : nat) : bytes := repeat Byte.x61 n.

(** A local tree with the single file [a.txt] of 10 bytes, read in two
    chunks of 6 and 4 bytes. *)
Definition ex_a : FileInfo :=
  mkFileInfo ["home"; "site"; "a.txt"] ["a.txt"] 10 1000 false.

Definition ex_host : Host :=
  mkHost [mkVisit ["home"; "site"] (inr []) 4096 900 true None;
          mkVisit ["home"; "site"; "a.txt"] (inr ["a.txt"]) 10 1000 false None]
         (fun p => if path_eqb p ["home"; "site"; "a.txt"]
                   then inr (mkLocalFile [ex_bytes 6; ex_bytes 4] None)
                   else inl "no such file or directory")
         (fun n => 2000 + Z.of_nat n)
         (fun _ => "20260101_120000").

(** A local tree with [a.txt], the directory [sub] and the file
    [sub/b.txt], which cannot be opened. *)
Definition ex_sub : FileInfo :=
  mkFileInfo ["home"; "site"; "sub"] ["sub"] 4096 950 true.
Definition ex_b : FileInfo :=
  mkFileInfo ["home"; "site"; "sub"; "b.txt"] ["sub"; "b.txt"] 5 1100 false.

(** The same tree with [sub/b.txt] readable: 5 bytes in one chunk. *)
Definition ex_host_sub : Host :=
  mkHost [mkVisit ["home"; "site"] (inr []) 4096 900 true None;
          mkVisit ["home"; "site"; "a.txt"] (inr ["a.txt"]) 10 1000 false None;
          mkVisit ["home"; "site"; "sub"] (inr ["sub"]) 4096 950 true None;
          mkVisit ["home"; "site"; "sub"; "b.txt"] (inr ["sub"; "b.txt"]) 5 1100
                  false None]
         (fun p => if path_eqb p ["home"; "site"; "a.txt"]
                   then inr (mkLocalFile [ex_bytes 6; ex_bytes 4] None)
                   else if path_eqb p ["home"; "site"; "sub"; "b.txt"]
                        then inr (mkLocalFile [ex_bytes 5] None)
                        else inl "no such file or directory")
         (fun n => 2000 + Z.of_nat n)
         (fun _ => "20260101_120000").

(** The tree of [ex_host_sub] with [sub/b.txt] listed but not readable. *)
Definition ex_host_denied : Host :=
  mkHost (Walk ex_host_sub) (os_Open ex_host) (time_Now ex_host) (Format ex_host).

(** Servers: the target [srv/www] holding [a.txt] exactly as the local
    file (same size, same modification time) and a file [old.txt] of its
    own; the same with faults injected. *)
Definition ex_entries : list (path * node) :=
  [(["srv"], NDir); (["srv"; "www"], NDir);
   (["srv"; "www"; "a.txt"], NFile (ex_bytes 10) 420 1500 1000);
   (["srv"; "www"; "old.txt"], NFile (ex_bytes 3) 420 1 2)].

Definition ex_server : Mem.server := Mem.mkServer ex_entries (fun _ => None) 0.

Definition ex_faulty (bad : list nat) (msg : error) : Mem.server :=
  Mem.mkServer ex_entries
    (fun n => if existsb (Nat.eqb n) bad then Some msg else None) 0.

Definition ex_target : path := ["srv"; "www"].
Definition ex_temp : path := ["srv"; ".sync_tmp_20260101_120000"].
Definition ex_sched : list nat := repeat 0%nat 16.

Definition ex_syncer (c : Mem.server) (m : string) (w : Z) : Syncer Mem.server :=
  New c ["home"; "site"] ex_target m w.

(** A walk that meets an unreadable directory after the root. *)
Definition ex_host_bad : Host :=
  mkHost [mkVisit ["home"; "site"] (inr []) 4096 900 true None;
          mkVisit ["home"; "site"; "private"] (inr ["private"]) 0 0 true
                  (Some "permission denied");
          mkVisit ["home"; "site"; "a.txt"] (inr ["a.txt"]) 10 1000 false None]
         (os_Open ex_host) (time_Now ex_host) (Format ex_host).

(** A server on which the target does not exist yet. *)
Definition ex_fresh : Mem.server :=
  Mem.mkServer [(["srv"], NDir)] (fun _ => None) 0.

(** The backup path of a full replacement of [ex_target], and the n-th
    finished entry of a pool. *)
Definition ex_backup : path := ["srv"; "www.bak_20260101_120000"].

Definition nth_done (n : nat) (pl : pool Mem.server) : Finished :=
  nth n (done pl) (mkFinished ex_a None []).

(** Two workers taking turns. *)
Definition ex_turns : list nat := List.concat (repeat [0%nat; 1%nat] 24).

Definition state_of (o : option (Syncer Mem.server * option error))
  : Syncer Mem.server :=
  match o with
  | Some (s, _) => s
  | None => ex_syncer ex_server "" 0
  end.

(** * Facts *)

(** ** Paths *)

Lemma path_eqb_eq (a b : path) : path_eqb a b = true <-> a = b.
Proof.
  revert b; induction a as [|x a IH]; intros [|y b]; simpl;
    try (split; [discriminate | congruence]); try tauto.
  rewrite andb_true_iff, String.eqb_eq, IH. split.
  - intros [-> ->]; reflexivity.
  - intros E; inversion E; auto.
Qed.

Lemma path_eqb_refl (a : path) : path_eqb a a = true.
Proof. apply path_eqb_eq; reflexivity. Qed.

Lemma path_eqb_neq (a b : path) : a <> b -> path_eqb a b = false.
Proof.
  intros N. destruct (path_eqb a b) eqn:E; [|reflexivity].
  apply path_eqb_eq in E; contradiction.
Qed.

Lemma is_prefix_iff (a q : path) :
  is_prefix a q = true <-> exists x, q = (a ++ x)%list.
Proof.
  revert q; induction a as [|x a IH]; intros q; simpl.
  - split; [intros _; exists q; reflexivity | reflexivity].
  - destruct q as [|y q].
    + split; [discriminate | intros [z Hz]; discriminate].
    + rewrite andb_true_iff, String.eqb_eq, IH. split.
      * intros [-> [z ->]]; exists z; reflexivity.
      * intros [z Hz]; inversion Hz; subst; split; [reflexivity | exists z; reflexivity].
Qed.

Lemma is_prefix_refl (a : path) : is_prefix a a = true.
Proof. apply is_prefix_iff; exists []; symmetry; apply app_nil_r. Qed.

Lemma is_prefix_app (a x : path) : is_prefix a (a ++ x)%list = true.
Proof. apply is_prefix_iff; exists x; reflexivity. Qed.

Lemma is_prefix_trans (a b c : path) :
  is_prefix a b = true -> is_prefix b c = true -> is_prefix a c = true.
Proof.
  rewrite !is_prefix_iff. intros [x ->] [y ->].
  exists (x ++ y)%list. symmetry; apply app_assoc.
Qed.

(** ** The in-memory server meets the frame conditions *)

Module MemFacts.
Import Mem.

Lemma find_entry_cons (p : path) (n : node) es (q : path) :
  find_entry ((p, n) :: es) q = if path_eqb p q then Some n else find_entry es q.
Proof. unfold find_entry; simpl. destruct (path_eqb p q); reflexivity. Qed.

Lemma find_entry_cons_ne (p : path) (n : node) es (q : path) :
  q <> p -> find_entry ((p, n) :: es) q = find_entry es q.
Proof.
  intros N. rewrite find_entry_cons, path_eqb_neq; [reflexivity | congruence].
Qed.

Lemma find_entry_cons_eq (p : path) (n : node) es :
  find_entry ((p, n) :: es) p = Some n.
Proof. rewrite find_entry_cons, path_eqb_refl; reflexivity. Qed.

Lemma in_prefixes (q p : path) : In q (prefixes p) -> is_prefix q p = true.
Proof.
  revert q; induction p as [|x p IH]; simpl; intros q; [tauto|].
  intros [<- | H]; simpl.
  - rewrite String.eqb_refl; reflexivity.
  - apply in_map_iff in H as [q' [<- H]]. simpl.
    rewrite String.eqb_refl; simpl; auto.
Qed.

Lemma add_dir_keeps es (q' q : path) :
  find_entry es q <> None -> find_entry (add_dir es q') q = find_entry es q.
Proof.
  intros E. unfold add_dir. destruct (find_entry es q') eqn:F; [reflexivity|].
  apply find_entry_cons_ne. intros ->; contradiction.
Qed.

Lemma add_dirs_keeps qs : forall es (q : path),
  find_entry es q <> None -> find_entry (fold_left add_dir qs es) q = find_entry es q.
Proof.
  induction qs as [|q' qs IH]; simpl; intros es q E; [reflexivity|].
  rewrite IH; rewrite add_dir_keeps; auto.
Qed.

Lemma add_dirs_frame qs : forall es (q : path),
  ~ In q qs -> find_entry (fold_left add_dir qs es) q = find_entry es q.
Proof.
  induction qs as [|q' qs IH]; simpl; intros es q N; [reflexivity|].
  rewrite IH by tauto. unfold add_dir.
  destruct (find_entry es q'); [reflexivity|].
  apply find_entry_cons_ne. intros ->; tauto.
Qed.

Lemma find_rebase (a b q : path) es :
  is_prefix a q <> true -> is_prefix b q <> true ->
  find_entry (map (rebase a b) es) q = find_entry es q.
Proof.
  intros Na Nb. induction es as [|[k n] es IH]; [reflexivity|].
  simpl map. unfold rebase at 1; simpl fst; simpl snd.
  destruct (is_prefix a k) eqn:E.
  - rewrite !find_entry_cons, IH.
    rewrite (path_eqb_neq k q) by (intros ->; congruence).
    rewrite path_eqb_neq; [reflexivity|].
    intros <-. apply Nb, is_prefix_app.
  - rewrite !find_entry_cons, IH; reflexivity.
Qed.

Lemma find_filter_ne (p q : path) es :
  q <> p ->
  find_entry (filter (fun e => negb (path_eqb (fst e) p)) es) q = find_entry es q.
Proof.
  intros N. induction es as [|[k n] es IH]; [reflexivity|].
  simpl. destruct (path_eqb k p) eqn:E; simpl.
  - apply path_eqb_eq in E; subst k.
    rewrite IH. symmetry; apply find_entry_cons_ne; assumption.
  - rewrite !find_entry_cons, IH; reflexivity.
Qed.

Lemma apply_frame (op : Op) es (q : path) :
  ~ touches op q -> find_entry (fst (apply op es)) q = find_entry es q.
Proof.
  destruct op as [p|p|p|p d|p m|p a t|a b|p]; simpl; intros T.
  - reflexivity.
  - destruct (existsb _ _); simpl; [reflexivity|].
    apply add_dirs_frame. intros H; apply T, in_prefixes, H.
  - destruct p as [|x p']; [reflexivity|].
    destruct (negb _); [reflexivity|].
    destruct (find_entry es (x :: p')) as [[|]|]; simpl; try reflexivity;
      apply find_entry_cons_ne; assumption.
  - destruct (find_entry es p) as [[|]|]; simpl; try reflexivity.
    apply find_entry_cons_ne; assumption.
  - destruct (find_entry es p) as [[|]|]; simpl; try reflexivity.
    apply find_entry_cons_ne; assumption.
  - destruct (find_entry es p) as [[|]|]; simpl; try reflexivity.
    apply find_entry_cons_ne; assumption.
  - destruct a as [|x a']; [reflexivity|].
    destruct (find_entry es (x :: a')); [|reflexivity].
    destruct (find_entry es b); [reflexivity|].
    destruct (_ || _); simpl; [reflexivity|].
    apply find_rebase; tauto.
  - destruct (find_entry es p) as [[|]|]; simpl; try reflexivity.
    destruct (existsb _ _); simpl; [reflexivity|].
    apply find_filter_ne. intros ->. apply T, is_prefix_refl.
Qed.

Lemma serve_frame (op : Op) (s : server) (q : path) :
  ~ touches op q -> find_node (fst (serve op s)) q = find_node s q.
Proof.
  intros T. unfold serve, find_node.
  destruct (faults s (served s)); simpl; [reflexivity|].
  apply apply_frame; assumption.
Qed.

Lemma serve_mkdir_keeps (p : path) (s : server) (q : path) :
  find_node s q <> None ->
  find_node (fst (serve (MkdirAll p) s)) q = find_node s q.
Proof.
  intros E. unfold serve, find_node in *.
  destruct (faults s (served s)); simpl; [reflexivity|].
  destruct (existsb _ _); simpl; [reflexivity|].
  apply add_dirs_keeps; assumption.
Qed.

Lemma serve_chmod_sets (p : path) (m : Z) (s : server) d m0 a t :
  snd (serve (Chmod p m) s) = None ->
  find_node s p = Some (NFile d m0 a t) ->
  find_node (fst (serve (Chmod p m) s)) p = Some (NFile d m a t).
Proof.
  unfold serve, find_node.
  destruct (faults s (served s)); simpl; [discriminate|].
  intros _ E; rewrite E; simpl. apply find_entry_cons_eq.
Qed.

Lemma serve_chtimes_sets (p : path) (a' t' : time) (s : server) d m a t :
  snd (serve (Chtimes p a' t') s) = None ->
  find_node s p = Some (NFile d m a t) ->
  find_node (fst (serve (Chtimes p a' t') s)) p = Some (NFile d m a' t').
Proof.
  unfold serve, find_node.
  destruct (faults s (served s)); simpl; [discriminate|].
  intros _ E; rewrite E; simpl. apply find_entry_cons_eq.
Qed.

End MemFacts.

#[export] Instance MemServer : RemotePort Mem.server :=
  {| exec := Mem.serve;
     lookup := Mem.find_node;
     exec_frame := MemFacts.serve_frame;
     mkdir_keeps := MemFacts.serve_mkdir_keeps;
     chmod_sets := MemFacts.serve_chmod_sets;
     chtimes_sets := MemFacts.serve_chtimes_sets |}.

(** ** Programs run on their own *)

Section RunFacts.

Context {R : Type} {port : RemotePort R}.
Variable host : Host.

Lemma run_bind {A B : Type} (m : prog A) (f : A -> prog B) (s : Syncer R) :
  run host (bind m f) s = run host (f (snd (run host m s))) (fst (run host m s)).
Proof.
  revert s; induction m as [a | X e k IH]; intros s; simpl; [reflexivity|].
  apply IH.
Qed.

(** The configuration of the Syncer is read-only for every action. *)
Definition same_config (s s' : Syncer R) : Prop :=
  localPath s' = localPath s /\ remotePath s' = remotePath s /\
  mode s' = mode s /\ workers s' = workers s.

Lemma same_config_refl (s : Syncer R) : same_config s s.
Proof. repeat split. Qed.

Lemma same_config_trans (s1 s2 s3 : Syncer R) :
  same_config s1 s2 -> same_config s2 s3 -> same_config s1 s3.
Proof. unfold same_config; intuition congruence. Qed.

Lemma perform_config {X : Type} (e : action X) (s : Syncer R) :
  same_config s (fst (perform host e s)).
Proof. destruct e; repeat split. Qed.

Lemma run_config {A : Type} (p : prog A) (s : Syncer R) :
  same_config s (fst (run host p s)).
Proof.
  revert s; induction p as [a | X e k IH]; intros s; simpl.
  - apply same_config_refl.
  - eapply same_config_trans; [apply (perform_config e) | apply IH].
Qed.

(** Every result a program can end with, whatever its actions answer. *)
Fixpoint all_leaves {A : Type} (Q : A -> Prop) (p : prog A) : Prop :=
  match p with
  | Ret a => Q a
  | Vis e k => forall x, all_leaves Q (k x)
  end.

Lemma all_leaves_run {A : Type} (Q : A -> Prop) (p : prog A) (s : Syncer R) :
  all_leaves Q p -> Q (snd (run host p s)).
Proof.
  revert s; induction p as [a | X e k IH]; intros s; simpl; [tauto|].
  intros H; apply IH, H.
Qed.

Lemma setMetadata_leaves (file : FileInfo) (p : path) :
  all_leaves (fun r => r = None) (setMetadata file p).
Proof.
  unfold setMetadata; simpl.
  intros [e|]; simpl; intros; repeat (simpl; intros);
    repeat match goal with
           | x : option error |- _ => destruct x; simpl; intros
           end; reflexivity.
Qed.

End RunFacts.

(** ** Metadata of an uploaded file *)

Section Metadata.

Context {R : Type} {port : RemotePort R}.
Variable host : Host.

Lemma run_uploadFile_copied (file : FileInfo) (base : path) (s : Syncer R) :
  snd (run host (copyContent host file base) s) = None ->
  run host (uploadFile host file base) s
  = run host (setMetadata file (Join base (RelPath file)))
        (fst (run host (copyContent host file base) s)).
Proof.
  intros H. unfold uploadFile. rewrite run_bind, H. reflexivity.
Qed.

Lemma run_job_file (file : FileInfo) (base : path) (s : Syncer R) :
  IsDir file = false ->
  snd (run host (uploadFile host file base) s) = None ->
  snd (run host (job host base file) s) = None.
Proof.
  intros D H. unfold job. rewrite D, run_bind, H. reflexivity.
Qed.

(** C7. Once the content of a file is copied, [uploadFile] returns no
    error whatever [Chmod] and [Chtimes] answer, so the worker sends
    nothing on the [errors] channel for this file; a failure of [Chmod] or
    of [Chtimes] leaves a warning in the log. *)
Theorem uploadFile_metadata_best_effort
  (file : FileInfo) (base : path) (s : Syncer R) :
  snd (run host (copyContent host file base) s) = None ->
  let p := Join base (RelPath file) in
  let s1 := fst (run host (copyContent host file base) s) in
  let c1 := exec (Chmod p 420) (client s1) in
  let c2 := exec (Chtimes p (time_Now host (clock s1)) (ModTime file)) (fst c1) in
  let s' := fst (run host (uploadFile host file base) s) in
  snd (run host (uploadFile host file base) s) = None /\
  (IsDir file = false -> snd (run host (job host base file) s) = None) /\
  all_leaves (fun r => r = None) (setMetadata file p) /\
  (forall e, snd c1 = Some e ->
     In (Warn, "Failed to set permissions for " ++ show p ++ ": " ++ e)
        (logger s')) /\
  (forall e, snd c2 = Some e ->
     In (Warn, "Failed to set modification time for " ++ show p ++ ": " ++ e)
        (logger s')).
Proof.
  intros H p s1 c1 c2 s'.
  assert (U : snd (run host (uploadFile host file base) s) = None).
  { rewrite run_uploadFile_copied by assumption.
    apply (all_leaves_run host (fun r => r = None)), setMetadata_leaves. }
  split; [exact U|]. split; [intros D; apply run_job_file; assumption|].
  split; [apply setMetadata_leaves|].
  subst s'. rewrite run_uploadFile_copied by assumption.
  fold s1 p. unfold setMetadata. simpl. fold c1.
  destruct (snd c1) as [e1|] eqn:E1; simpl; fold c2;
    destruct (snd c2) as [e2|] eqn:E2; simpl; split; intros e Q;
      try discriminate; inversion Q; subst;
        rewrite ?in_app_iff; simpl; tauto.
Qed.

End Metadata.

(** ** The worker pool: steps, schedules, termination *)

Section Pool.

Context {R : Type} {port : RemotePort R}.
Variable host : Host.
Variable base : path.

Lemma upd_length (i : nat) (w : wstate) (l : list wstate) :
  List.length (upd i w l) = List.length l.
Proof.
  revert i; induction l as [|x l IH]; intros [|i]; simpl; auto.
Qed.

Lemma upd_split (l : list wstate) : forall (i : nat) (w w' : wstate),
  nth_error l i = Some w ->
  exists l1 l2, l = (l1 ++ w :: l2)%list /\ upd i w' l = (l1 ++ w' :: l2)%list.
Proof.
  induction l as [|x l IH]; intros [|i] w w' H; simpl in H; try discriminate.
  - inversion H; subst. exists [], l; split; reflexivity.
  - destruct (IH i w w' H) as [l1 [l2 [E1 E2]]].
    exists (x :: l1), l2; simpl; split; congruence.
Qed.

Lemma nth_error_upd_eq (l : list wstate) : forall (i : nat) (w0 w : wstate),
  nth_error l i = Some w0 -> nth_error (upd i w l) i = Some w.
Proof.
  induction l as [|x l IH]; intros [|i] w0 w H; simpl in *; try discriminate; eauto.
Qed.

Lemma nth_error_upd_ne (l : list wstate) : forall (i j : nat) (w : wstate),
  i <> j -> nth_error (upd i w l) j = nth_error l j.
Proof.
  induction l as [|x l IH]; intros [|i] [|j] w N; simpl; auto; congruence.
Qed.

Lemma upd_upd (l : list wstate) : forall (i : nat) (w1 w2 : wstate),
  upd i w2 (upd i w1 l) = upd i w2 l.
Proof.
  induction l as [|x l IH]; intros [|i] w1 w2; simpl; auto. rewrite IH; reflexivity.
Qed.

Lemma upd_same (l : list wstate) : forall (i : nat) (w : wstate),
  nth_error l i = Some w -> upd i w l = l.
Proof.
  induction l as [|x l IH]; intros [|i] w H; simpl in *; try discriminate; auto.
  - congruence.
  - rewrite IH; auto.
Qed.

Lemma run_pool_app (s1 s2 : list nat) (pl : pool R) :
  run_pool host base (s1 ++ s2) pl = run_pool host base s2 (run_pool host base s1 pl).
Proof.
  revert pl; induction s1 as [|i s1 IH]; intros pl; simpl; auto.
Qed.

(** A worker that is inside the loop body reaches the end of the body, the
    other workers and the queue staying as they are. *)
Lemma body_finishes (p : prog (option error)) :
  forall (pl : pool R) (i : nat) (f : FileInfo) (h : list event),
    nth_error (threads pl) i = Some (Running f p h) ->
    exists n, threads (run_pool host base (repeat i n) pl) = upd i Idle (threads pl)
              /\ jobs (run_pool host base (repeat i n) pl) = jobs pl.
Proof.
  induction p as [r | X e k IH]; intros pl i f h H.
  - exists 1%nat. simpl. unfold worker. rewrite H. simpl. auto.
  - set (pl1 := worker host base i pl).
    assert (H1 : nth_error (threads pl1) i
                 = Some (Running f (k (snd (perform host e (sess pl))))
                                 (Ev e (snd (perform host e (sess pl))) :: h))).
    { unfold pl1, worker. rewrite H. simpl. eapply nth_error_upd_eq; eassumption. }
    destruct (IH _ pl1 i f _ H1) as [n [T J]].
    exists (S n). simpl. fold pl1. rewrite T, J.
    unfold pl1, worker. rewrite H. simpl. rewrite upd_upd. auto.
Qed.

(** A worker left to run returns, the other workers staying as they are. *)
Lemma worker_returns_idle (q : list FileInfo) :
  forall (pl : pool R) (i : nat),
    jobs pl = q -> nth_error (threads pl) i = Some Idle ->
    exists n, threads (run_pool host base (repeat i n) pl) = upd i Exited (threads pl).
Proof.
  induction q as [|f q IH]; intros pl i J H.
  - exists 1%nat. simpl. unfold worker. rewrite H, J. reflexivity.
  - set (pl1 := worker host base i pl).
    assert (T1 : threads pl1 = upd i (Running f (job host base f) []) (threads pl)).
    { unfold pl1, worker. rewrite H, J. reflexivity. }
    assert (J1 : jobs pl1 = q).
    { unfold pl1, worker. rewrite H, J. reflexivity. }
    assert (H1 : nth_error (threads pl1) i = Some (Running f (job host base f) [])).
    { rewrite T1. eapply nth_error_upd_eq; eassumption. }
    destruct (body_finishes _ pl1 i f [] H1) as [n [T2 J2]].
    set (pl2 := run_pool host base (repeat i n) pl1) in *.
    assert (H2 : nth_error (threads pl2) i = Some Idle).
    { rewrite T2. eapply nth_error_upd_eq; eassumption. }
    destruct (IH pl2 i (eq_trans J2 J1) H2) as [m T3].
    exists (S n + m)%nat.
    replace (repeat i (S n + m)) with (i :: repeat i n ++ repeat i m)%list
      by (simpl; rewrite repeat_app; reflexivity).
    simpl. fold pl1. rewrite run_pool_app. fold pl2.
    rewrite T3, T2, T1, !upd_upd. reflexivity.
Qed.

Lemma worker_returns (pl : pool R) (i : nat) (w : wstate) :
  nth_error (threads pl) i = Some w ->
  exists n, threads (run_pool host base (repeat i n) pl) = upd i Exited (threads pl).
Proof.
  intros H. destruct w as [|f p h|].
  - eapply worker_returns_idle; eauto.
  - destruct (body_finishes p pl i f h H) as [n [T J]].
    set (pl1 := run_pool host base (repeat i n) pl) in *.
    assert (H1 : nth_error (threads pl1) i = Some Idle).
    { rewrite T. eapply nth_error_upd_eq; eassumption. }
    destruct (worker_returns_idle _ pl1 i eq_refl H1) as [m T2].
    exists (n + m)%nat. rewrite repeat_app, run_pool_app. fold pl1.
    rewrite T2, T, upd_upd. reflexivity.
  - exists 0%nat. simpl. symmetry; apply upd_same; assumption.
Qed.

Lemma pool_returns_upto (k : nat) : forall pl : pool R,
  (k <= List.length (threads pl))%nat ->
  exists sched,
    List.length (threads (run_pool host base sched pl)) = List.length (threads pl) /\
    forall j, (j < k)%nat ->
      nth_error (threads (run_pool host base sched pl)) j = Some Exited.
Proof.
  induction k as [|k IH]; intros pl L.
  - exists []. simpl. split; [reflexivity | intros j Hj; lia].
  - destruct (IH pl) as [sched [Len Ex]]; [lia|].
    set (pl1 := run_pool host base sched pl) in *.
    destruct (nth_error (threads pl1) k) as [w|] eqn:Hk.
    2:{ apply nth_error_None in Hk. lia. }
    destruct (worker_returns pl1 k w Hk) as [n T].
    exists (sched ++ repeat k n)%list. rewrite run_pool_app. fold pl1.
    rewrite T, upd_length. split; [assumption|].
    intros j Hj. destruct (Nat.eq_dec k j) as [<-|N].
    + eapply nth_error_upd_eq; eassumption.
    + rewrite nth_error_upd_ne by assumption. apply Ex. lia.
Qed.

(** Every pool can be scheduled until all its workers have returned. *)
Lemma pool_returns (pl : pool R) :
  exists sched, forallb exited (threads (run_pool host base sched pl)) = true.
Proof.
  destruct (pool_returns_upto (List.length (threads pl)) pl (le_n _))
    as [sched [Len Ex]].
  exists sched. apply forallb_forall. intros w Hw.
  apply In_nth_error in Hw as [j Hj].
  assert (j < List.length (threads (run_pool host base sched pl)))%nat
    by (apply nth_error_Some; congruence).
  rewrite Ex in Hj by lia. inversion Hj; reflexivity.
Qed.

End Pool.

(** ** The worker pool: invariants under every schedule *)

Section PoolInvariants.

Context {R : Type} {port : RemotePort R}.
Variable host : Host.
Variable base : path.

Lemma run_pool_ind (Inv : pool R -> Prop) :
  (forall i pl, Inv pl -> Inv (worker host base i pl)) ->
  forall sched pl, Inv pl -> Inv (run_pool host base sched pl).
Proof.
  intros Step sched; induction sched as [|i sched IH]; intros pl H; simpl; auto.
Qed.

Lemma Forall_upd (F : wstate -> Prop) (l : list wstate) (i : nat) (w : wstate) :
  Forall F l -> F w -> Forall F (upd i w l).
Proof.
  intros H; revert i; induction H as [|x l Hx Hl IH]; intros [|i] Hw; simpl;
    constructor; auto.
Qed.

Lemma Forall_nth_error (F : wstate -> Prop) (l : list wstate) (i : nat) (w : wstate) :
  Forall F l -> nth_error l i = Some w -> F w.
Proof.
  intros H E. apply nth_error_In in E. rewrite Forall_forall in H. auto.
Qed.

(** *** Every finished entry went through the whole loop body *)

Definition thread_traced (w : wstate) : Prop :=
  match w with
  | Running f p h =>
      forall h' r, complete_run p h' r ->
                   complete_run (job host base f) (rev h ++ h')%list r
  | _ => True
  end.

Definition done_traced (d : Finished) : Prop :=
  complete_run (job host base (job_file d)) (rev (job_events d)) (job_result d).

Definition traced (pl : pool R) : Prop :=
  Forall thread_traced (threads pl) /\ Forall done_traced (done pl).

Lemma worker_traced (i : nat) (pl : pool R) :
  traced pl -> traced (worker host base i pl).
Proof.
  intros [T D]. unfold worker.
  destruct (nth_error (threads pl) i) as [[|f p h|]|] eqn:E; try (split; assumption).
  - destruct (jobs pl) as [|f q]; split; simpl; auto; apply Forall_upd; simpl; auto.
  - pose proof (Forall_nth_error _ _ _ _ T E) as W. simpl in W.
    destruct p as [r | X e k]; split; simpl; auto.
    + apply Forall_upd; simpl; auto.
    + apply Forall_app; split; [assumption|]. constructor; [|constructor].
      unfold done_traced; simpl.
      rewrite <- (app_nil_r (rev h)). apply W. simpl; auto.
    + apply Forall_upd; [assumption|]. simpl. intros h' r C.
      rewrite <- app_assoc. simpl. apply W. simpl. eauto.
Qed.

Lemma run_pool_traced (sched : list nat) (files : list FileInfo) (s : Syncer R) :
  traced (run_pool host base sched (start_pool files s)).
Proof.
  apply run_pool_ind; [apply worker_traced|].
  split; simpl; [|constructor].
  apply Forall_forall. intros w Hw. apply repeat_spec in Hw; subst; exact I.
Qed.

(** *** The queue, the workers and the finished entries partition the input *)

Definition books (files : list FileInfo) (pl : pool R) : Prop :=
  Permutation files
    (map job_file (done pl) ++ running (threads pl) ++ jobs pl)%list /\
  errors pl = sent (done pl) /\
  (Exists (fun w => w = Exited) (threads pl) -> jobs pl = []).

Lemma running_app (l1 l2 : list wstate) :
  running (l1 ++ l2) = (running l1 ++ running l2)%list.
Proof. unfold running. apply flat_map_app. Qed.

Lemma sent_app (d1 d2 : list Finished) : sent (d1 ++ d2) = (sent d1 ++ sent d2)%list.
Proof. unfold sent. apply flat_map_app. Qed.

Lemma Exists_upd (l : list wstate) (i : nat) (w0 w : wstate) :
  nth_error l i = Some w0 -> w <> Exited ->
  Exists (fun w => w = Exited) (upd i w l) -> Exists (fun w => w = Exited) l.
Proof.
  intros E N H. destruct (upd_split l i w0 w E) as [l1 [l2 [E1 E2]]].
  rewrite E2 in H. rewrite E1.
  rewrite Exists_app in *. rewrite Exists_cons in *.
  destruct H as [H | [H | H]]; auto. contradiction.
Qed.

Lemma perm_receive (d r1 r2 q : list FileInfo) (f : FileInfo) :
  Permutation (d ++ (r1 ++ r2) ++ f :: q)%list (d ++ (r1 ++ f :: r2) ++ q)%list.
Proof.
  apply Permutation_app_head. rewrite <- !app_assoc.
  apply Permutation_app_head. simpl. symmetry. apply Permutation_middle.
Qed.

Lemma perm_finish (d r1 r2 q : list FileInfo) (f : FileInfo) :
  Permutation (d ++ (r1 ++ f :: r2) ++ q)%list ((d ++ [f]) ++ (r1 ++ r2) ++ q)%list.
Proof.
  rewrite <- !app_assoc. apply Permutation_app_head. simpl.
  symmetry. apply Permutation_middle.
Qed.

Lemma worker_books (files : list FileInfo) (i : nat) (pl : pool R) :
  books files pl -> books files (worker host base i pl).
Proof.
  intros (Pm & Er & Ex). unfold worker.
  destruct (nth_error (threads pl) i) as [[|f p h|]|] eqn:E;
    try (repeat split; assumption).
  - destruct (jobs pl) as [|f q] eqn:J.
    + destruct (upd_split _ i _ Exited E) as [l1 [l2 [E1 E2]]].
      repeat split; simpl; auto.
      rewrite E2. rewrite E1 in Pm.
      rewrite running_app in *. simpl in *. exact Pm.
    + destruct (upd_split _ i _ (Running f (job host base f) []) E)
        as [l1 [l2 [E1 E2]]].
      repeat split; simpl; auto.
      * rewrite E2. rewrite E1 in Pm. rewrite running_app in *. simpl in *.
        etransitivity; [exact Pm|]. apply perm_receive.
      * intros H. eapply Exists_upd in H; eauto; [|discriminate].
        specialize (Ex H). discriminate.
  - destruct p as [r | X e k].
    + destruct (upd_split _ i _ Idle E) as [l1 [l2 [E1 E2]]].
      repeat split; simpl.
      * rewrite E2. rewrite E1 in Pm. rewrite running_app in *. simpl in *.
        rewrite map_app. simpl.
        etransitivity; [exact Pm|]. apply perm_finish.
      * rewrite sent_app, Er. simpl. destruct r; simpl; rewrite ?app_nil_r; reflexivity.
      * intros H. eapply Exists_upd in H; eauto. discriminate.
    + destruct (upd_split _ i _
                  (Running f (k (snd (perform host e (sess pl))))
                           (Ev e (snd (perform host e (sess pl))) :: h)) E)
        as [l1 [l2 [E1 E2]]].
      repeat split; simpl; auto.
      * rewrite E2. rewrite E1 in Pm. rewrite running_app in *. simpl in *. exact Pm.
      * intros H. eapply Exists_upd in H; eauto. discriminate.
Qed.

Lemma start_books (files : list FileInfo) (s : Syncer R) :
  books files (start_pool files s).
Proof.
  unfold books, start_pool; simpl. repeat split.
  - replace (running (repeat Idle (Z.to_nat (workers s)))) with (@nil FileInfo).
    + reflexivity.
    + induction (Z.to_nat (workers s)); simpl; auto.
  - intros H. apply Exists_exists in H as [w [Hw ->]].
    apply repeat_spec in Hw. discriminate.
Qed.

Lemma run_pool_books (sched : list nat) (files : list FileInfo) (s : Syncer R) :
  books files (run_pool host base sched (start_pool files s)).
Proof. apply run_pool_ind; [apply worker_books | apply start_books]. Qed.

Lemma worker_threads_length (i : nat) (pl : pool R) :
  List.length (threads (worker host base i pl)) = List.length (threads pl).
Proof.
  unfold worker.
  destruct (nth_error (threads pl) i) as [[|f [r|X e k] h|]|]; simpl;
    try reflexivity; try apply upd_length.
  destruct (jobs pl); simpl; apply upd_length.
Qed.

Lemma run_pool_threads_length (sched : list nat) (pl : pool R) :
  List.length (threads (run_pool host base sched pl)) = List.length (threads pl).
Proof.
  revert pl; induction sched as [|i sched IH]; intros pl; simpl; [reflexivity|].
  rewrite IH. apply worker_threads_length.
Qed.

Lemma exited_running (l : list wstate) :
  forallb exited l = true -> running l = [].
Proof.
  induction l as [|[|f p h|] l IH]; simpl; intros H; try discriminate; auto.
Qed.

End PoolInvariants.

(** ** The upload pipeline *)

Section Pipeline.

Context {R : Type} {port : RemotePort R}.
Variable host : Host.



(** C6. When all workers have returned: the [errors] channel holds exactly
    the errors of the finished entries, in the order they were sent; with at
    least one worker every entry of the input is finished exactly once,
    each through a complete run of the loop body whatever happened to the
    others; and [uploadFiles] returns an error exactly when the channel is
    not empty. Every schedule can be continued until the workers have
    returned. *)
Theorem uploadFiles_collects_errors
  (sched : list nat) (files : list FileInfo) (base : path) (s : Syncer R) :
  let pl := run_pool host base sched (start_pool files s) in
  forallb exited (threads pl) = true ->
  errors pl = sent (done pl) /\
  (0 < workers s -> Permutation files (map job_file (done pl))) /\
  (forall d, In d (done pl) ->
     complete_run (job host base (job_file d)) (rev (job_events d)) (job_result d)) /\
  (exists r, uploadFiles host sched files base s = Some (sess pl, r) /\
             (r = None <-> errors pl = [])) /\
  (forall sched0, exists sched1,
     uploadFiles host (sched0 ++ sched1) files base s <> None).
Proof.
  intros pl H.
  destruct (run_pool_books host base sched files s) as (Pm & Er & Ex).
  fold pl in Pm, Er, Ex.
  split; [exact Er|]. split; [|split; [|split]].
  - intros W.
    assert (J : jobs pl = []).
    { apply Ex.
      assert (L : List.length (threads pl) = Z.to_nat (workers s)).
      { unfold pl. rewrite run_pool_threads_length. simpl. apply repeat_length. }
      destruct (threads pl) as [|w l] eqn:T; [simpl in L; lia|].
      simpl in H. apply andb_true_iff in H as [H _].
      constructor. destruct w; try discriminate; reflexivity. }
    rewrite J, (exited_running _ H) in Pm. simpl in Pm.
    rewrite app_nil_r in Pm. exact Pm.
  - intros d Hd.
    destruct (run_pool_traced host base sched files s) as [_ D]. fold pl in D.
    rewrite Forall_forall in D. apply (D d Hd).
  - unfold uploadFiles. fold pl. rewrite H.
    destruct (errors pl) as [|err rest]; eexists; (split; [reflexivity|]).
    all: split; intros Q; first [reflexivity | discriminate Q].
  - intros sched0.
    destruct (pool_returns host base
                (run_pool host base sched0 (start_pool files s))) as [sched1 E].
    exists sched1. unfold uploadFiles. rewrite run_pool_app, E. discriminate.
Qed.

End Pipeline.

(** ** Remote calls confined to a set of operations *)

Section Guarded.

Context {R : Type} {port : RemotePort R}.
Variable host : Host.
Variable Pop : Op -> Prop.
Variable Keep : path -> Prop.
Variable c0 : R.
Variable calls0 : list (Op * option error).

Hypothesis step_keeps : forall op c q,
  Pop op -> Keep q -> lookup c q = lookup c0 q ->
  lookup (fst (exec op c)) q = lookup c0 q.

(** Since the state [c0] with calls [calls0], only calls of [Pop] were
    made and the entries of [Keep] are what they were. *)
Definition kept (s : Syncer R) : Prop :=
  (exists new, calls s = (calls0 ++ new)%list /\ Forall (fun c => Pop (fst c)) new) /\
  (forall q, Keep q -> lookup (client s) q = lookup c0 q).

Lemma perform_kept {X : Type} (e : action X) (s : Syncer R) :
  on_remote Pop X e -> kept s -> kept (fst (perform host e s)).
Proof.
  intros P [[new [C F]] K]. destruct e as [op| |n|l msg]; simpl in *;
    try (split; [exists new; split; assumption | exact K]).
  split.
  - exists (new ++ [(op, snd (exec op (client s)))])%list. split.
    + rewrite C, app_assoc. reflexivity.
    + apply Forall_app; split; [assumption|]. constructor; [exact P | constructor].
  - intros q Kq. apply step_keeps; auto.
Qed.

Lemma run_kept {A : Type} (p : prog A) : forall s : Syncer R,
  safe (on_remote Pop) p -> kept s -> kept (fst (run host p s)).
Proof.
  induction p as [a | X e k IH]; intros s S K; simpl; [exact K|].
  destruct S as [Pe Sk]. apply IH; [apply Sk | apply perform_kept; assumption].
Qed.

Variable base : path.

Definition thread_safe (w : wstate) : Prop :=
  match w with
  | Running _ p _ => safe (on_remote Pop) p
  | _ => True
  end.

Definition guarded (pl : pool R) : Prop :=
  kept (sess pl) /\
  Forall (fun f => safe (on_remote Pop) (job host base f)) (jobs pl) /\
  Forall thread_safe (threads pl).

Lemma worker_guarded (i : nat) (pl : pool R) :
  guarded pl -> guarded (worker host base i pl).
Proof.
  intros (K & J & T). unfold worker.
  destruct (nth_error (threads pl) i) as [[|f p h|]|] eqn:E;
    try (split; [|split]; assumption).
  - destruct (jobs pl) as [|f q] eqn:Q; (split; [|split]); simpl; auto.
    + apply Forall_upd; simpl; auto.
    + inversion J; assumption.
    + apply Forall_upd; [assumption|]. simpl. inversion J; assumption.
  - pose proof (Forall_nth_error _ _ _ _ T E) as W. simpl in W.
    destruct p as [r | X e k]; (split; [|split]); simpl; auto.
    + apply Forall_upd; simpl; auto.
    + destruct W as [Pe _]. apply perform_kept; assumption.
    + apply Forall_upd; [assumption|]. simpl. apply W.
Qed.

Lemma run_pool_guarded (sched : list nat) (files : list FileInfo) (s : Syncer R) :
  kept s ->
  (forall f, In f files -> safe (on_remote Pop) (job host base f)) ->
  kept (sess (run_pool host base sched (start_pool files s))).
Proof.
  intros K J.
  assert (G : guarded (run_pool host base sched (start_pool files s))).
  { apply run_pool_ind; [apply worker_guarded|].
    split; [|split]; simpl.
    - exact K.
    - apply Forall_forall; assumption.
    - apply Forall_forall. intros w Hw. apply repeat_spec in Hw; subst; exact I. }
  apply G.
Qed.

End Guarded.

(** ** The remote calls of one entry and of the local walk *)

Section JobCalls.

Context {R : Type} {port : RemotePort R}.
Variable host : Host.

Lemma safe_bind {A B : Type} (P : forall X, action X -> Prop)
  (m : prog A) (f : A -> prog B) :
  safe P m -> (forall a, safe P (f a)) -> safe P (bind m f).
Proof.
  induction m as [a | X e k IH]; simpl; intros Sm Sf; [apply Sf|].
  destruct Sm as [Pe Sk]. split; [exact Pe|]. intros x. apply IH; auto.
Qed.

Lemma safe_weaken {A : Type} (P P' : forall X, action X -> Prop) (p : prog A) :
  (forall X (e : action X), P X e -> P' X e) -> safe P p -> safe P' p.
Proof.
  intros W. induction p as [a | X e k IH]; simpl; [tauto|].
  intros [Pe Sk]. split; [apply W, Pe | intros x; apply IH, Sk].
Qed.

Lemma on_remote_weaken (P P' : Op -> Prop) :
  (forall op, P op -> P' op) ->
  forall X (e : action X), on_remote P X e -> on_remote P' X e.
Proof. intros W X e. destruct e; simpl; auto. Qed.

Lemma copyLoop_safe (base : path) (f : FileInfo) (fin : option error) (rs : list bytes) :
  IsDir f = false ->
  safe (on_remote (job_op base f)) (copyLoop (Join base (RelPath f)) rs fin).
Proof.
  intros D. induction rs as [|buf rs IH]; simpl.
  - destruct fin; exact I.
  - destruct (0 <? Z.of_nat (List.length buf)); [|exact IH].
    simpl. split; [auto|]. intros [e|]; simpl; [exact I|].
    split; [exact I|]. intros _. exact IH.
Qed.

Lemma job_safe (base : path) (f : FileInfo) :
  safe (on_remote (job_op base f)) (job host base f).
Proof.
  unfold job. destruct (IsDir f) eqn:D.
  - simpl. split; [exact I|]. intros _. split; [auto|].
    intros [e|]; exact I.
  - apply safe_bind; [|intros [e|]; exact I].
    unfold uploadFile. apply safe_bind.
    + unfold copyContent. destruct (os_Open host (Path f)) as [e|lf]; [exact I|].
      simpl. split; [auto|]. intros [e|]; simpl; [exact I|].
      split; [auto|]. intros [e|]; simpl; [exact I|].
      apply copyLoop_safe; assumption.
    + intros [e|]; [exact I|].
      unfold setMetadata. simpl. split; [auto|].
      intros [e|]; simpl; repeat (split; [try exact I; auto|]; intros);
        repeat match goal with
               | x : option error |- _ => destruct x; simpl
               end; repeat (split; [try exact I; auto|]; intros); auto.
Qed.

(** A program without remote calls leaves the server and the list of
    calls as they are. *)
Lemma run_no_remote {A : Type} (p : prog A) : forall s : Syncer R,
  safe no_remote p ->
  client (fst (run host p s)) = client s /\ calls (fst (run host p s)) = calls s.
Proof.
  induction p as [a | X e k IH]; intros s S; simpl; [auto|].
  destruct S as [Pe Sk].
  destruct (IH (snd (perform host e s)) (fst (perform host e s)) (Sk _)) as [C L].
  rewrite C, L. destruct e; simpl in *; tauto.
Qed.

Lemma walkFn_no_remote (vs : list Visit) : forall files,
  safe no_remote (walkFn vs files).
Proof.
  induction vs as [|v vs IH]; intros files; simpl; [exact I|].
  destruct (v_err v); [exact I|].
  destruct (v_rel v) as [e|[|x rel]]; [exact I | apply IH |].
  simpl. split; [exact I|]. intros _. apply IH.
Qed.

Lemma collectLocalFiles_no_remote (s : Syncer R) :
  safe no_remote (collectLocalFiles host s).
Proof.
  unfold collectLocalFiles. simpl. split; [exact I|]. intros _.
  apply safe_bind; [apply walkFn_no_remote|].
  intros [e|files]; simpl; [exact I|]. split; [exact I|]. intros _; exact I.
Qed.

(** The entries [filepath.Walk] hands over never have the empty relative
    path: the root itself is skipped. *)
Lemma walkFn_nonroot (vs : list Visit) : forall files (s : Syncer R) out,
  snd (run host (walkFn vs files) s) = inr out ->
  (forall f, In f files -> RelPath f <> []) ->
  forall f, In f out -> RelPath f <> [].
Proof.
  induction vs as [|v vs IH]; intros files s out; simpl.
  - intros E; inversion E; subst; auto.
  - destruct (v_err v); [discriminate|].
    destruct (v_rel v) as [e|[|x rel]]; [discriminate | apply IH |].
    simpl. intros E H. eapply IH; [exact E|].
    intros f Hf. apply in_app_iff in Hf as [Hf | [<- | []]]; [auto|].
    simpl. discriminate.
Qed.

End JobCalls.

(** ** Incremental synchronisation *)

Section Incremental.

Context {R : Type} {port : RemotePort R}.
Variable host : Host.

Lemma run_walkFn (vs : list Visit) : forall files (s : Syncer R),
  snd (run host (walkFn vs files) s) = walk_result vs files.
Proof.
  induction vs as [|v vs IH]; intros files s; simpl; [reflexivity|].
  destruct (v_err v); [reflexivity|].
  destruct (v_rel v) as [e|[|x rel]]; [reflexivity | apply IH |].
  simpl. apply IH.
Qed.

Lemma run_collectLocalFiles (s0 s : Syncer R) :
  snd (run host (collectLocalFiles host s0) s)
  = match walk_result (Walk host) [] with
    | inl err => inl ("failed to walk local directory: " ++ err)
    | inr files => inr files
    end.
Proof.
  unfold collectLocalFiles. simpl. rewrite run_bind, run_walkFn.
  destruct (walk_result (Walk host) []); reflexivity.
Qed.

Lemma uploadFiles_inv (sched : list nat) (files : list FileInfo) (base : path)
  (s s' : Syncer R) (r : option error) :
  uploadFiles host sched files base s = Some (s', r) ->
  let pl := run_pool host base sched (start_pool files s) in
  forallb exited (threads pl) = true /\ s' = sess pl /\
  r = match errors pl with [] => None | err :: _ => Some ("worker error: " ++ err) end.
Proof.
  unfold uploadFiles. cbv zeta. intros H.
  destruct (forallb exited _); [|discriminate].
  inversion H; subst. auto.
Qed.

Lemma job_op_incremental (base : path) (files : list FileInfo) (f : FileInfo) :
  In f files ->
  forall op, job_op base f op -> incremental_op base files op.
Proof.
  intros Hf [p|p|p|p d|p m|p a t|a b|p]; simpl; try tauto.
  - intros [[_ ->] | [_ ->]]; right; exists f; auto.
  - intros [D ->]; exists f; auto.
  - intros [D ->]; exists f; auto.
  - intros (D & -> & _); exists f; auto.
  - intros (D & -> & _); exists f; auto.
Qed.

Lemma incremental_keeps (base : path) (files : list FileInfo) (c0 : R) :
  forall op c q,
    incremental_op base files op ->
    (lookup c0 q <> None /\
     forall f, In f files -> IsDir f = false -> q <> Join base (RelPath f)) ->
    lookup c q = lookup c0 q ->
    lookup (fst (exec op c)) q = lookup c0 q.
Proof.
  intros op c q P [Ex Nf] E. rewrite <- E.
  destruct op as [p|p|p|p d|p m|p a t|a b|p]; simpl in P; try contradiction.
  - apply mkdir_keeps. congruence.
  - apply exec_frame. simpl. destruct P as (f & Hf & D & ->). intros ->. eapply Nf; eauto.
  - apply exec_frame. simpl. destruct P as (f & Hf & D & ->). intros ->. eapply Nf; eauto.
  - apply exec_frame. simpl. destruct P as (f & Hf & D & ->). intros ->. eapply Nf; eauto.
  - apply exec_frame. simpl. destruct P as (f & Hf & D & ->). intros ->. eapply Nf; eauto.
Qed.

(** C5. An incremental synchronisation makes no call other than
    [MkdirAll], [Create], [Write], [Chmod] and [Chtimes] (no rename, no
    removal), the last four only at remote paths of local file entries; so
    every entry the server held before the call, except at the remote path
    of a local file entry, is the same after the call, whether the call
    succeeds or fails. *)
Theorem incrementalSync_additive
  (sched : list nat) (s s' : Syncer R) (r : option error) :
  incrementalSync host sched s = Some (s', r) ->
  (exists new,
     calls s' = (calls s ++ new)%list /\
     Forall (fun c => incremental_op (remotePath s) (local_entries host) (fst c)) new) /\
  (forall q n,
     lookup (client s) q = Some n ->
     (forall f, In f (local_entries host) -> IsDir f = false ->
                q <> Join (remotePath s) (RelPath f)) ->
     lookup (client s') q = Some n).
Proof.
  intros H.
  set (files := local_entries host).
  set (Keep := fun q => lookup (client s) q <> None /\
                        forall f, In f files -> IsDir f = false ->
                                  q <> Join (remotePath s) (RelPath f)).
  assert (K : kept (incremental_op (remotePath s) files) Keep (client s) (calls s) s').
  { pose proof (incremental_keeps (remotePath s) files (client s)) as SK.
    assert (K0 : forall s1 : Syncer R, client s1 = client s -> calls s1 = calls s ->
                 kept (incremental_op (remotePath s) files) Keep (client s) (calls s) s1).
    { intros s1 C L. split.
      - exists []. rewrite app_nil_r. split; [assumption | constructor].
      - intros q _. rewrite C. reflexivity. }
    unfold incrementalSync in H.
    set (p0 := call (Logf Info "Performing incremental synchronization...") ;;;
               collectLocalFiles host s) in H.
    assert (Q0 : safe no_remote p0).
    { simpl. split; [exact I|]. intros _. apply (collectLocalFiles_no_remote host s). }
    destruct (run_no_remote host p0 s Q0) as [C1 L1].
    assert (W : snd (run host p0 s)
                = match walk_result (Walk host) [] with
                  | inl err => inl ("failed to walk local directory: " ++ err)
                  | inr fs => inr fs
                  end).
    { unfold p0. rewrite run_bind. apply run_collectLocalFiles. }
    rewrite W in H. unfold files, local_entries in *.
    destruct (walk_result (Walk host) []) as [e|fs].
    { inversion H; subst. apply K0; assumption. }
    set (s1 := start_progress fs (fst (run host p0 s))) in *.
    assert (K1 : kept (incremental_op (remotePath s) fs) Keep (client s) (calls s)
                      (fst (run host (call (Remote (MkdirAll (remotePath s)))) s1))).
    { apply (run_kept host _ Keep (client s) (calls s) SK).
      - simpl. split; [left; reflexivity | intros; exact I].
      - apply K0; assumption. }
    destruct (snd (run host (call (Remote (MkdirAll (remotePath s)))) s1)).
    { inversion H; subst. destruct K1 as [A B]. split; assumption. }
    destruct (uploadFiles host sched fs (remotePath s) _) as [[s3 r3]|] eqn:U;
      [|discriminate].
    apply uploadFiles_inv in U as (_ & -> & _).
    assert (K3 : kept (incremental_op (remotePath s) fs) Keep (client s) (calls s)
                   (sess (run_pool host (remotePath s) sched
                            (start_pool fs
                               (fst (run host (call (Remote (MkdirAll (remotePath s)))) s1)))))).
    { apply (run_pool_guarded host _ Keep (client s) (calls s) SK); [exact K1|].
      intros f Hf. eapply safe_weaken; [|apply job_safe].
      apply on_remote_weaken. apply job_op_incremental; assumption. }
    destruct K3 as [A B].
    destruct r3; inversion H; subst; split; assumption. }
  destruct K as [A B]. split; [exact A|].
  intros q n Hq Nf. rewrite B; [exact Hq|].
  split; [congruence | exact Nf].
Qed.

End Incremental.

(** ** Full replacement: a failed upload *)

Section FullUpload.

Context {R : Type} {port : RemotePort R}.
Variable host : Host.

Lemma Dir_Join (a x : path) :
  Dir (Join a x) = match x with [] => Dir a | _ => Join a (Dir x) end.
Proof.
  unfold Dir, Join. destruct x as [|y x].
  - rewrite app_nil_r; reflexivity.
  - apply removelast_app; discriminate.
Qed.

Lemma job_op_staged (temp : path) (f : FileInfo) :
  forall op, job_op temp f op -> staged temp op.
Proof.
  intros [p|p|p|p d|p m|p a t|a b|p]; simpl; try tauto.
  - intros [[_ ->] | [_ ->]].
    + right; apply is_prefix_app.
    + rewrite Dir_Join. destruct (RelPath f); [left; reflexivity|].
      right; apply is_prefix_app.
  - intros [_ ->]; apply is_prefix_app.
  - intros [_ ->]; apply is_prefix_app.
  - intros (_ & -> & _); apply is_prefix_app.
  - intros (_ & -> & _); apply is_prefix_app.
Qed.

Lemma sibling_disjoint (d : path) (n tn : string) (y z : path) :
  n <> tn -> (d ++ n :: y)%list <> (d ++ tn :: z)%list.
Proof. intros N E. apply app_inv_head in E. congruence. Qed.

(** A call on the temporary directory leaves the target and everything
    below it alone when the temporary directory is a true sibling. *)
Lemma staged_frame (target : path) (tn : string) (op : Op) (q : path) :
  is_prefix target (Join (Dir target) [tn]) = false ->
  staged (Join (Dir target) [tn]) op ->
  is_prefix target q = true ->
  ~ touches op q.
Proof.
  intros S P Q.
  assert (T : target <> []) by (intros ->; discriminate S).
  rewrite (app_removelast_last "" T) in Q, S.
  set (d := removelast target) in *. set (n := last target "") in *.
  unfold Dir, Join in *. fold d in P, S. rewrite removelast_last in S.
  assert (N : n <> tn).
  { intros ->. rewrite is_prefix_refl in S. discriminate. }
  apply is_prefix_iff in Q as [y ->].
  rewrite <- !app_assoc in *. simpl in *.
  destruct op as [p|p|p|p b|p m|p a t|a b|p]; simpl in *; try tauto.
  - intros H. apply is_prefix_iff in H as [w ->].
    rewrite <- !app_assoc in P. simpl in P. destruct P as [P | P].
    + unfold Dir in P. rewrite removelast_last in P.
      rewrite <- (app_nil_r d) in P at 2. apply app_inv_head in P. discriminate.
    + apply is_prefix_iff in P as [z P]. rewrite <- !app_assoc in P. simpl in P.
      eapply sibling_disjoint; eauto.
  - intros <-. apply is_prefix_iff in P as [z P]. rewrite <- !app_assoc in P.
    eapply sibling_disjoint; eauto.
  - intros <-. apply is_prefix_iff in P as [z P]. rewrite <- !app_assoc in P.
    eapply sibling_disjoint; eauto.
  - intros <-. apply is_prefix_iff in P as [z P]. rewrite <- !app_assoc in P.
    eapply sibling_disjoint; eauto.
  - intros <-. apply is_prefix_iff in P as [z P]. rewrite <- !app_assoc in P.
    eapply sibling_disjoint; eauto.
  - subst p. intros H. apply is_prefix_iff in H as [z H].
    rewrite <- !app_assoc in H. eapply sibling_disjoint; eauto.
Qed.

Lemma run_log_remote (l : level) (msg : string) (op : Op) (s : Syncer R) :
  run host (call (Logf l msg) ;;; call (Remote op)) s
  = (set_client (fst (exec op (client s)))
                (calls s ++ [(op, snd (exec op (client s)))])%list
                (set_logger (logger s ++ [(l, msg)])%list s),
     snd (exec op (client s))).
Proof. reflexivity. Qed.

(** What [fullSync] has done when it reaches the upload. *)
Lemma fullSync_begin_inv (s : Syncer R) (files : list FileInfo) (temp : path) :
  snd (fullSync_begin host s) = inr (files, temp) ->
  let s1 := fst (fullSync_begin host s) in
  (exists t, temp = Join (Dir (remotePath s)) [".sync_tmp_" ++ Format host t]) /\
  walk_result (Walk host) [] = inr files /\
  client s1 = fst (exec (MkdirAll temp) (client s)) /\
  calls s1 = (calls s ++ [(MkdirAll temp, None)])%list /\
  same_config s s1.
Proof.
  unfold fullSync_begin.
  set (p0 := call (Logf Info "Performing full synchronization...") ;;;
             collectLocalFiles host s).
  assert (Q0 : safe no_remote p0).
  { simpl. split; [exact I|]. intros _. apply (collectLocalFiles_no_remote host s). }
  destruct (run_no_remote host p0 s Q0) as [C1 L1].
  pose proof (run_config host p0 s) as G1.
  assert (W : snd (run host p0 s)
              = match walk_result (Walk host) [] with
                | inl err => inl ("failed to walk local directory: " ++ err)
                | inr fs => inr fs
                end).
  { unfold p0. rewrite run_bind. apply run_collectLocalFiles. }
  cbv zeta. fold p0. rewrite W.
  destruct (walk_result (Walk host) []) as [e|fs]; [discriminate|].
  cbv beta iota.
  set (s2 := perform host Now (start_progress fs (fst (run host p0 s)))).
  set (T := Join (Dir (remotePath s)) [".sync_tmp_" ++ Format host (snd s2)]).
  rewrite run_log_remote. cbn [fst snd].
  assert (C2 : client (fst s2) = client s) by (rewrite <- C1; reflexivity).
  assert (L2 : calls (fst s2) = calls s) by (rewrite <- L1; reflexivity).
  rewrite C2, L2.
  destruct (snd (exec (MkdirAll T) (client s))) eqn:E; cbn [fst snd];
    [discriminate|].
  intros H; inversion H; subst.
  split; [eexists; reflexivity|]. split; [reflexivity|].
  split; [reflexivity|]. split; [reflexivity|].
  destruct G1 as (A & B & C & D). repeat split; assumption.
Qed.

Lemma fullSync_defer_calls (temp : path) (s : Syncer R) :
  calls (fullSync_defer host temp s)
  = (calls s ++ [(RemoveDirectory temp,
                  snd (exec (RemoveDirectory temp) (client s)))])%list.
Proof.
  unfold fullSync_defer. simpl.
  destruct (snd (exec (RemoveDirectory temp) (client s))); reflexivity.
Qed.

Lemma fullSync_defer_safe (temp : path) :
  safe (on_remote (staged temp))
       (call (Logf Info ("Cleaning up temporary directory: " ++ show temp)) ;;;
        err <- call (Remote (RemoveDirectory temp)) ;;
        match err with
        | Some err =>
            call (Logf Warn ("Failed to remove temporary directory: " ++ err))
        | None => Ret tt
        end).
Proof.
  simpl. split; [exact I|]. intros _. split; [reflexivity|].
  intros [e|]; simpl; auto.
Qed.

(** C3. When the upload into the temporary directory fails, [fullSync]
    returns the error "failed to upload files: ...", its deferred
    function still asks for the removal of the temporary directory (the
    answer is only logged), and no call since the start was a rename or any
    call outside the temporary directory: with the temporary directory a
    true sibling of the target, every path at or below the target holds
    what it held before the call. *)
Theorem fullSync_upload_failure
  (sched : list nat) (s s2 : Syncer R) (files : list FileInfo) (temp : path)
  (err : error) :
  snd (fullSync_begin host s) = inr (files, temp) ->
  uploadFiles host sched files temp (fst (fullSync_begin host s))
  = Some (s2, Some err) ->
  let s' := fullSync_defer host temp s2 in
  fullSync host sched s = Some (s', Some ("failed to upload files: " ++ err)) /\
  (exists new,
     calls s' = (calls s ++ new)%list /\
     Forall (fun c => staged temp (fst c)) new) /\
  (exists r, calls s' = (calls s2 ++ [(RemoveDirectory temp, r)])%list) /\
  (is_prefix (remotePath s) temp = false ->
   forall q, is_prefix (remotePath s) q = true ->
             lookup (client s') q = lookup (client s) q).
Proof.
  intros B U s'.
  destruct (fullSync_begin_inv s files temp B) as ([t Tm] & _ & C1 & L1 & _).
  set (Keep := fun q => is_prefix (remotePath s) temp = false /\
                        is_prefix (remotePath s) q = true).
  assert (SK : forall op c q, staged temp op -> Keep q ->
                 lookup c q = lookup (client s) q ->
                 lookup (fst (exec op c)) q = lookup (client s) q).
  { intros op c q P [Sb Q] E. rewrite <- E. apply exec_frame.
    rewrite Tm in Sb, P. eapply staged_frame; eauto. }
  assert (K1 : kept (staged temp) Keep (client s) (calls s)
                    (fst (fullSync_begin host s))).
  { split.
    - exists [(MkdirAll temp, None)]. split; [exact L1|].
      constructor; [|constructor]. simpl. right. apply is_prefix_refl.
    - intros q Kq. rewrite C1. apply SK; auto.
      simpl. right. apply is_prefix_refl. }
  pose proof (uploadFiles_inv host _ _ _ _ _ _ U) as (_ & E2 & _).
  assert (K2 : kept (staged temp) Keep (client s) (calls s) s2).
  { rewrite E2.
    apply (run_pool_guarded host _ Keep (client s) (calls s) SK); [exact K1|].
    intros f _. eapply safe_weaken; [|apply job_safe].
    apply on_remote_weaken. apply job_op_staged. }
  assert (K3 : kept (staged temp) Keep (client s) (calls s) s').
  { pose proof (run_kept host _ Keep (client s) (calls s) SK _ s2
                  (fullSync_defer_safe temp) K2) as K.
    destruct K as [A Bk]. split; [exact A | exact Bk]. }
  split; [|split; [|split]].
  - unfold fullSync, fullSync_run.
    destruct (fullSync_begin host s) as [s1 [e|[fs tp]]]; simpl in B, U;
      [discriminate|].
    inversion B; subst fs tp. rewrite U. reflexivity.
  - apply K3.
  - eexists. apply fullSync_defer_calls.
  - intros Sb q Q. apply K3. split; assumption.
Qed.

End FullUpload.

(** ** Full replacement: a failed swap *)

Section FullSwap.

Context {R : Type} {port : RemotePort R}.
Variable host : Host.

Lemma run_fullSync_commit_rollback
  (target temp backup : path) (s : Syncer R) (err : error) :
  let c1 := exec (Rename temp target) (client s) in
  let c2 := exec (Stat backup) (fst c1) in
  let c3 := exec (Rename backup target) (fst c2) in
  snd c1 = Some err -> snd c2 = None ->
  let out := run host (fullSync_commit target temp backup) s in
  calls (fst out)
  = (calls s ++ [(Rename temp target, Some err); (Stat backup, None);
                 (Rename backup target, snd c3)])%list /\
  client (fst out) = fst c3 /\
  snd out
  = Some (match snd c3 with
          | None => "sync failed, restored from backup: " ++ err
          | Some restoreErr =>
              "sync failed and restore failed: " ++ err
              ++ ", restore error: " ++ restoreErr
          end).
Proof.
  intros c1 c2 c3 E1 E2 out. unfold out, fullSync_commit. simpl.
  fold c1. rewrite E1. simpl. fold c2. rewrite E2. simpl. fold c3.
  rewrite <- !app_assoc. simpl.
  destruct (snd c3); simpl; auto.
Qed.

(** C4. [fullSync] with the upload and the backup step done: when the
    rename of the temporary directory to the target fails and [Stat] finds
    the backup, the next call renames the backup to the target; if that
    succeeds the call returns "sync failed, restored from backup: ..."
    with the error of the swap, otherwise "sync failed and restore
    failed: ..., restore error: ..." with both errors. *)
Theorem fullSync_swap_rollback
  (sched : list nat) (s0 s1 : Syncer R) (files : list FileInfo) (temp : path)
  (err : error) :
  snd (fullSync_begin host s0) = inr (files, temp) ->
  uploadFiles host sched files temp (fst (fullSync_begin host s0))
  = Some (s1, None) ->
  let target := remotePath s0 in
  let b := run host (fullSync_backup host target) s1 in
  let backup := fst (snd b) in
  let c1 := exec (Rename temp target) (client (fst b)) in
  let c2 := exec (Stat backup) (fst c1) in
  let c3 := exec (Rename backup target) (fst c2) in
  snd (snd b) = None ->
  snd c1 = Some err ->
  snd c2 = None ->
  exists s',
    fullSync host sched s0
    = Some (s', Some (match snd c3 with
                      | None => "sync failed, restored from backup: " ++ err
                      | Some restoreErr =>
                          "sync failed and restore failed: " ++ err
                          ++ ", restore error: " ++ restoreErr
                      end)) /\
    calls s'
    = (calls (fst b)
       ++ [(Rename temp target, Some err); (Stat backup, None);
           (Rename backup target, snd c3);
           (RemoveDirectory temp,
            snd (exec (RemoveDirectory temp) (fst c3)))])%list.
Proof.
  intros B U target b backup c1 c2 c3 Eb E1 E2.
  destruct (fullSync_begin_inv host s0 files temp B) as (_ & _ & _ & _ & G).
  destruct G as (_ & G & _).
  destruct (run_fullSync_commit_rollback target temp backup (fst b) err E1 E2)
    as (L & C & Res).
  fold c1 c2 c3 in L, C, Res.
  set (out := run host (fullSync_commit target temp backup) (fst b)) in *.
  exists (fullSync_defer host temp (fst out)). split.
  - unfold fullSync, fullSync_run.
    destruct (fullSync_begin host s0) as [sb [e|[fs tp]]]; simpl in B, U, G;
      [discriminate|].
    inversion B; subst fs tp. rewrite U, G. fold target.
    unfold fullSync_swap. rewrite run_bind. fold b. rewrite Eb.
    fold backup. change (run host (fullSync_commit target temp backup) (fst b))
      with out.
    rewrite <- Res. destruct out; reflexivity.
  - rewrite fullSync_defer_calls, L, C, <- app_assoc. reflexivity.
Qed.

End FullSwap.

(** ** What a finished entry has done *)

Section JobRuns.

Variable host : Host.

Lemma sumZ_app (a b : list Z) : sumZ (a ++ b) = sumZ a + sumZ b.
Proof. unfold sumZ. induction a as [|x a IH]; simpl; lia. Qed.

Lemma written_app (a b : list event) : written (a ++ b) = written a + written b.
Proof. unfold written. rewrite map_app. apply sumZ_app. Qed.

Lemma counted_app (a b : list event) : counted (a ++ b) = counted a + counted b.
Proof. unfold counted. rewrite map_app. apply sumZ_app. Qed.

Lemma sumZ_rev (l : list Z) : sumZ (rev l) = sumZ l.
Proof.
  induction l as [|x l IH]; simpl; [reflexivity|].
  rewrite sumZ_app, IH. unfold sumZ; simpl. lia.
Qed.

Lemma written_rev (h : list event) : written (rev h) = written h.
Proof. unfold written. rewrite map_rev. apply sumZ_rev. Qed.

Lemma counted_rev (h : list event) : counted (rev h) = counted h.
Proof. unfold counted. rewrite map_rev. apply sumZ_rev. Qed.

Lemma remote_calls_app (a b : list event) :
  remote_calls (a ++ b) = (remote_calls a ++ remote_calls b)%list.
Proof. unfold remote_calls. apply flat_map_app. Qed.

Lemma complete_run_bind {A B : Type} (m : prog A) (f : A -> prog B) :
  forall h b,
    complete_run (bind m f) h b ->
    exists h1 h2 a,
      h = (h1 ++ h2)%list /\ complete_run m h1 a /\ complete_run (f a) h2 b.
Proof.
  induction m as [a | X e k IH]; simpl; intros h b H.
  - exists [], h, a. auto.
  - destruct H as (x & h' & -> & H).
    destruct (IH x h' b H) as (h1 & h2 & a & -> & H1 & H2).
    exists (Ev e x :: h1), h2, a. simpl. eauto 7.
Qed.

(** The copy loop counts exactly what it has written, and when it ends
    without error it has written every buffer it was given. *)
Lemma copyLoop_run (p : path) (fin : option error) (rs : list bytes) :
  forall h r,
    complete_run (copyLoop p rs fin) h r ->
    counted h = written h /\
    (forall ev, In ev h -> ev_call ev = [] \/ exists d x, ev_call ev = [(Write p d, x)]) /\
    (r = None ->
     fin = None
     /\ written h = sumZ (map (fun buf => Z.of_nat (List.length buf)) rs)
     /\ remote_calls h = map (fun buf => (Write p buf, None))
                             (filter (fun buf => 0 <? Z.of_nat (List.length buf)) rs)).
Proof.
  induction rs as [|buf rs IH]; simpl; intros h r H.
  - destruct fin; destruct H as [-> ->]; repeat split; simpl; try tauto; discriminate.
  - destruct (0 <? Z.of_nat (List.length buf)) eqn:Pos.
    + simpl in H. destruct H as ([e|] & h' & -> & H); simpl in H.
      * destruct H as [-> ->]. repeat split; try discriminate.
        intros ev [<- | []]. right. simpl. eauto.
      * destruct H as ([] & h'' & -> & H).
        destruct (IH _ _ H) as (C & O & W).
        unfold counted, written in *. simpl. split; [lia|]. split.
        { intros ev [<- | [<- | Hev]]; simpl; eauto. }
        intros ->. destruct (W eq_refl) as (W0 & W1 & W2).
        unfold sumZ in *; simpl. rewrite W2. split; [exact W0|].
        split; [lia | reflexivity].
    + destruct (IH _ _ H) as (C & O & W). split; [exact C|]. split; [exact O|].
      intros ->. destruct (W eq_refl) as (W0 & W1 & W2). rewrite W1, W2.
      apply Z.ltb_ge in Pos. unfold sumZ; simpl. split; [exact W0|].
      split; [lia | reflexivity].
Qed.

(** What a complete run of [setMetadata] consists of. *)
Lemma setMetadata_run (f : FileInfo) (p : path) (h : list event) (r : option error) :
  complete_run (setMetadata f p) h r ->
  r = None /\ counted h = 0 /\ written h = 0 /\
  exists rc t rt,
    remote_calls h = [(Chmod p 420, rc); (Chtimes p t (ModTime f), rt)] /\
    In (Ev Now t) h.
Proof.
  unfold setMetadata. simpl.
  intros (rc & h1 & -> & H). destruct rc as [e|]; simpl in H.
  - destruct H as ([] & h2 & -> & t & h3 & -> & rt & h4 & -> & H).
    destruct rt as [e'|]; simpl in H.
    + destruct H as ([] & h5 & -> & [] & h6 & -> & -> & ->).
      repeat split. exists (Some e), t, (Some e'). simpl. auto.
    + destruct H as ([] & h5 & -> & -> & ->).
      repeat split. exists (Some e), t, None. simpl. auto.
  - destruct H as (t & h3 & -> & rt & h4 & -> & H).
    destruct rt as [e'|]; simpl in H.
    + destruct H as ([] & h5 & -> & [] & h6 & -> & -> & ->).
      repeat split. exists None, t, (Some e'). simpl. auto.
    + destruct H as ([] & h5 & -> & -> & ->).
      repeat split. exists None, t, None. simpl. auto.
Qed.

(** What a complete run of [copyContent] consists of. *)
Lemma copyContent_run (f : FileInfo) (base : path) (h : list event) (r : option error) :
  complete_run (copyContent host f base) h r ->
  counted h = written h /\
  (r = None ->
   exists lf,
     os_Open host (Path f) = inr lf /\ read_end lf = None /\
     written h = file_bytes lf /\
     remote_calls h
     = ((MkdirAll (Dir (Join base (RelPath f))), None)
        :: (Create (Join base (RelPath f)), None)
        :: map (fun buf => (Write (Join base (RelPath f)) buf, None))
               (filter (fun buf => 0 <? Z.of_nat (List.length buf)) (reads lf)))%list).
Proof.
  unfold copyContent. destruct (os_Open host (Path f)) as [e|lf].
  - simpl. intros [-> ->]. split; [reflexivity | discriminate].
  - simpl. intros (r1 & h1 & -> & H). destruct r1 as [e|]; simpl in H.
    + destruct H as [-> ->]. split; [reflexivity | discriminate].
    + destruct H as (r2 & h2 & -> & H). destruct r2 as [e|]; simpl in H.
      * destruct H as [-> ->]. split; [reflexivity | discriminate].
      * destruct (copyLoop_run _ _ _ _ _ H) as (C & _ & W).
        split; [exact C|]. intros ->.
        destruct (W eq_refl) as (W0 & W1 & W2).
        exists lf. repeat split; auto. simpl. rewrite W2. reflexivity.
Qed.

(** What a complete run of the loop body consists of. *)
Lemma job_run (base : path) (f : FileInfo) (h : list event) (r : option error) :
  complete_run (job host base f) h r ->
  counted h = written h /\
  (IsDir f = true -> written h = 0) /\
  (IsDir f = false -> r = None ->
   exists lf rc t rt,
     os_Open host (Path f) = inr lf /\ read_end lf = None /\
     written h = file_bytes lf /\
     In (Ev Now t) h /\
     remote_calls h
     = ((MkdirAll (Dir (Join base (RelPath f))), None)
        :: (Create (Join base (RelPath f)), None)
        :: map (fun buf => (Write (Join base (RelPath f)) buf, None))
               (filter (fun buf => 0 <? Z.of_nat (List.length buf)) (reads lf))
        ++ [(Chmod (Join base (RelPath f)) 420, rc);
            (Chtimes (Join base (RelPath f)) t (ModTime f), rt)])%list).
Proof.
  unfold job. destruct (IsDir f) eqn:D.
  - simpl. intros ([] & h1 & -> & r1 & h2 & -> & H).
    destruct r1; simpl in H; destruct H as [-> ->];
      repeat split; try discriminate.
  - intros H. apply complete_run_bind in H as (h1 & h2 & a & -> & H1 & H2).
    unfold uploadFile in H1.
    apply complete_run_bind in H1 as (h11 & h12 & a' & -> & Hc & Hm).
    destruct (copyContent_run _ _ _ _ Hc) as (C & W).
    assert (E2 : h2 = [] /\ (r = None -> a = None)).
    { destruct a; simpl in H2; destruct H2 as [-> ->]; split; auto; discriminate. }
    destruct E2 as [-> Ra]. rewrite app_nil_r.
    destruct a' as [e|].
    + simpl in Hm. destruct Hm as [-> ->]. rewrite app_nil_r.
      split; [exact C|]. split; [discriminate|].
      intros _ Rn. specialize (Ra Rn). discriminate.
    + destruct (setMetadata_run _ _ _ _ Hm) as (_ & Cm & Wm & rc & t & rt & Rm & Tm).
      rewrite counted_app, written_app, Cm, Wm.
      split; [lia|]. split; [discriminate|].
      intros _ _. destruct (W eq_refl) as (lf & O & Fin & Wl & Rl).
      exists lf, rc, t, rt. repeat split; auto.
      * lia.
      * apply in_app_iff; auto.
      * rewrite remote_calls_app, Rl, Rm. reflexivity.
Qed.

End JobRuns.

(** ** Mode and times of an uploaded file *)

Section ModeAndTimes.

Context {R : Type} {port : RemotePort R}.
Variable host : Host.

Lemma run_uploadFile_ok (file : FileInfo) (base : path) (s : Syncer R) :
  snd (run host (uploadFile host file base) s) = None ->
  snd (run host (copyContent host file base) s) = None.
Proof.
  unfold uploadFile. rewrite run_bind.
  destruct (snd (run host (copyContent host file base) s)); [|reflexivity].
  simpl. discriminate.
Qed.

Lemma run_setMetadata (file : FileInfo) (p : path) (s : Syncer R) :
  let now := time_Now host (clock s) in
  let c1 := exec (Chmod p 420) (client s) in
  let c2 := exec (Chtimes p now (ModTime file)) (fst c1) in
  let s' := fst (run host (setMetadata file p) s) in
  calls s' = (calls s ++ [(Chmod p 420, snd c1);
                          (Chtimes p now (ModTime file), snd c2)])%list /\
  client s' = fst c2.
Proof.
  intros now c1 c2 s'. unfold s', setMetadata. simpl. fold c1.
  destruct (snd c1); simpl; fold now; fold c2; destruct (snd c2); simpl;
    rewrite <- app_assoc; auto.
Qed.

(** C10. A successful [uploadFile] ends with the calls
    [Chmod(remoteFilePath, 0644)] and
    [Chtimes(remoteFilePath, time.Now(), file.ModTime)], whatever the local
    file is; when both succeed on the file just written, the server holds
    it with mode 0644 (420), that access time and the modification time of
    the local file. The same two calls end the remote calls of every file
    entry a worker of the pool finishes without error. *)
Theorem uploadFile_mode_and_times (file : FileInfo) (base : path) (s : Syncer R) :
  snd (run host (uploadFile host file base) s) = None ->
  let p := Join base (RelPath file) in
  let s1 := fst (run host (copyContent host file base) s) in
  let now := time_Now host (clock s1) in
  let c1 := exec (Chmod p 420) (client s1) in
  let c2 := exec (Chtimes p now (ModTime file)) (fst c1) in
  let s' := fst (run host (uploadFile host file base) s) in
  calls s' = (calls s1 ++ [(Chmod p 420, snd c1);
                           (Chtimes p now (ModTime file), snd c2)])%list /\
  (forall d m a t,
     lookup (client s1) p = Some (NFile d m a t) ->
     snd c1 = None -> snd c2 = None ->
     lookup (client s') p = Some (NFile d 420 now (ModTime file))) /\
  (forall sched files (s0 : Syncer R) d,
     In d (done (run_pool host base sched (start_pool files s0))) ->
     IsDir (job_file d) = false -> job_result d = None ->
     exists pre rc t rt,
       remote_calls (rev (job_events d))
       = (pre ++ [(Chmod (Join base (RelPath (job_file d))) 420, rc);
                  (Chtimes (Join base (RelPath (job_file d))) t
                           (ModTime (job_file d)), rt)])%list /\
       In (Ev Now t) (job_events d)).
Proof.
  intros H p s1 now c1 c2 s'.
  pose proof (run_uploadFile_ok _ _ _ H) as Hc.
  destruct (run_setMetadata file p s1) as [L C].
  fold now c1 c2 in L, C.
  assert (E : s' = fst (run host (setMetadata file p) s1)).
  { unfold s'. rewrite (run_uploadFile_copied host) by assumption. reflexivity. }
  rewrite E. split; [exact L|]. split.
  - intros d m a t F E1 E2. rewrite C.
    eapply chtimes_sets; [exact E2|].
    eapply chmod_sets; [exact E1 | exact F].
  - intros sched files s0 d Hd D Rn.
    destruct (run_pool_traced host base sched files s0) as [_ T].
    rewrite Forall_forall in T. specialize (T d Hd). unfold done_traced in T.
    rewrite Rn in T.
    destruct (job_run host base _ _ _ T) as (_ & _ & J).
    destruct (J D eq_refl) as (lf & rc & t & rt & _ & _ & _ & Tn & Rc).
    eexists _, rc, t, rt. split.
    + rewrite Rc. rewrite !app_comm_cons. reflexivity.
    + apply in_rev. exact Tn.
Qed.

End ModeAndTimes.

(** ** The transferred-byte counter *)

Section Counter.

Context {R : Type} {port : RemotePort R}.
Variable host : Host.
Variable base : path.

Lemma wrap64_small (z : Z) : - 2 ^ 63 <= z < 2 ^ 63 -> wrap64 z = z.
Proof. intros H. unfold wrap64. rewrite Z.mod_small; lia. Qed.

Lemma wrap64_add (a n : Z) : wrap64 (wrap64 a + n) = wrap64 (a + n).
Proof.
  unfold wrap64.
  replace ((a + 2 ^ 63) mod 2 ^ 64 - 2 ^ 63 + n + 2 ^ 63)
    with ((a + 2 ^ 63) mod 2 ^ 64 + n) by lia.
  rewrite Zplus_mod_idemp_l. f_equal. f_equal. lia.
Qed.

Lemma copyLoop_nonneg (p : path) (fin : option error) (rs : list bytes) :
  safe nonneg_locked (copyLoop p rs fin).
Proof.
  induction rs as [|buf rs IH]; simpl.
  - destruct fin; exact I.
  - destruct (0 <? Z.of_nat (List.length buf)); [|exact IH].
    simpl. split; [exact I|]. intros [e|]; simpl; [exact I|].
    split; [lia|]. intros _. exact IH.
Qed.

Lemma job_nonneg (f : FileInfo) : safe nonneg_locked (job host base f).
Proof.
  unfold job. destruct (IsDir f).
  - simpl. split; [exact I|]. intros _. split; [exact I|]. intros [e|]; exact I.
  - apply safe_bind; [|intros [e|]; exact I].
    unfold uploadFile. apply safe_bind.
    + unfold copyContent. destruct (os_Open host (Path f)) as [e|lf]; [exact I|].
      simpl. split; [exact I|]. intros [e|]; simpl; [exact I|].
      split; [exact I|]. intros [e|]; simpl; [exact I|].
      apply copyLoop_nonneg.
    + intros [e|]; [exact I|]. unfold setMetadata. simpl.
      split; [exact I|].
      intros [e|]; simpl; repeat (split; [exact I|]; intros);
        repeat match goal with
               | x : option error |- _ => destruct x; simpl
               end; repeat (split; [exact I|]; intros); exact I.
Qed.

Definition counting (pl : pool R) : Prop :=
  syncedSize (sess pl) = wrap64 (pool_counted pl) /\
  Forall (fun w => match w with
                   | Running _ p _ => safe nonneg_locked p
                   | _ => True
                   end) (threads pl).

Lemma sumZ_cons (x : Z) (l : list Z) : sumZ (x :: l) = x + sumZ l.
Proof. reflexivity. Qed.

Lemma sum_threads_upd (l : list wstate) (i : nat) (w w' : wstate) :
  nth_error l i = Some w ->
  sumZ (map thread_counted (upd i w' l))
  = sumZ (map thread_counted l) - thread_counted w + thread_counted w'.
Proof.
  intros E. destruct (upd_split l i w w' E) as (l1 & l2 & -> & ->).
  rewrite !map_app, !sumZ_app. cbn [map]. rewrite !sumZ_cons. lia.
Qed.

Lemma sum_done_snoc (ds : list Finished) (d : Finished) :
  sumZ (map (fun d => counted (job_events d)) (ds ++ [d]))
  = sumZ (map (fun d => counted (job_events d)) ds) + counted (job_events d).
Proof. rewrite map_app, sumZ_app. cbn [map]. rewrite sumZ_cons. unfold sumZ; simpl. lia. Qed.

Lemma counted_cons {X : Type} (e : action X) (x : X) (h : list event) :
  counted (Ev e x :: h) = match e with Locked n => n | _ => 0 end + counted h.
Proof. reflexivity. Qed.

Lemma perform_syncedSize {X : Type} (e : action X) (s : Syncer R) :
  syncedSize (fst (perform host e s))
  = match e with
    | Locked n => wrap64 (syncedSize s + n)
    | _ => syncedSize s
    end.
Proof. destruct e; reflexivity. Qed.

Lemma worker_counting (i : nat) (pl : pool R) :
  counting pl ->
  counting (worker host base i pl) /\
  pool_counted pl <= pool_counted (worker host base i pl).
Proof.
  intros [C T]. unfold worker.
  destruct (nth_error (threads pl) i) as [[|f p h|]|] eqn:E;
    try (split; [split; assumption | lia]).
  - destruct (jobs pl) as [|f q]; unfold counting, pool_counted in *;
      cbn [sess threads done]; rewrite (sum_threads_upd _ _ _ _ E);
      cbn [thread_counted]; change (counted []) with 0;
      (split; [split | lia]).
    + rewrite C. f_equal. lia.
    + apply Forall_upd; simpl; auto.
    + rewrite C. f_equal. lia.
    + apply Forall_upd; [assumption|]. apply job_nonneg.
  - pose proof (Forall_nth_error _ _ _ _ T E) as W. simpl in W.
    destruct p as [r | X e k]; unfold counting, pool_counted in *;
      cbn [sess threads done]; rewrite (sum_threads_upd _ _ _ _ E);
      cbn [thread_counted].
    + rewrite sum_done_snoc. cbn [job_events].
      split; [split | lia].
      * rewrite C. f_equal. lia.
      * apply Forall_upd; simpl; auto.
    + destruct W as [Pe Sk]. rewrite counted_cons, perform_syncedSize.
      split; [split | destruct e; simpl in Pe; lia].
      * destruct e; try (rewrite C; f_equal; lia).
        rewrite C, wrap64_add. f_equal. lia.
      * apply Forall_upd; [assumption|]. apply Sk.
Qed.

Lemma start_counting (files : list FileInfo) (s : Syncer R) :
  syncedSize s = 0 ->
  counting (start_pool files s) /\ pool_counted (start_pool files s) = 0.
Proof.
  intros Z0.
  assert (P : pool_counted (start_pool files s) = 0).
  { unfold pool_counted, start_pool. simpl.
    induction (Z.to_nat (workers s)); simpl; auto. }
  split; [|exact P]. split.
  - rewrite P. simpl. rewrite Z0. reflexivity.
  - simpl. apply Forall_forall. intros w Hw. apply repeat_spec in Hw; subst; exact I.
Qed.

Lemma run_pool_counting (sched : list nat) (pl : pool R) :
  counting pl ->
  counting (run_pool host base sched pl) /\
  pool_counted pl <= pool_counted (run_pool host base sched pl).
Proof.
  revert pl; induction sched as [|i sched IH]; intros pl C; simpl.
  - split; [exact C | lia].
  - destruct (worker_counting i pl C) as [C1 L1].
    destruct (IH _ C1) as [C2 L2]. split; [exact C2 | lia].
Qed.

End Counter.

Section CounterTotal.

Context {R : Type} {port : RemotePort R}.
Variable host : Host.
Variable base : path.

Lemma exited_counted (l : list wstate) :
  forallb exited l = true -> sumZ (map thread_counted l) = 0.
Proof.
  induction l as [|[|f p h|] l IH]; simpl; intros H; try discriminate; auto.
Qed.

Lemma sumZ_map_ext {A : Type} (g g' : A -> Z) (l : list A) :
  (forall x, In x l -> g x = g' x) -> sumZ (map g l) = sumZ (map g' l).
Proof.
  induction l as [|x l IH]; cbn [map]; intros H; [reflexivity|].
  rewrite !sumZ_cons, IH, (H x).
  - reflexivity.
  - left; reflexivity.
  - intros y Hy. apply H. right; exact Hy.
Qed.

Lemma sumZ_perm (l l' : list Z) : Permutation l l' -> sumZ l = sumZ l'.
Proof.
  induction 1; rewrite ?sumZ_cons in *; lia.
Qed.

Lemma sent_nil (ds : list Finished) :
  sent ds = [] -> forall d, In d ds -> job_result d = None.
Proof.
  induction ds as [|x ds IH]; simpl; intros H d Hd; [contradiction|].
  destruct (job_result x) eqn:E; simpl in H; [discriminate|].
  destruct Hd as [<- | Hd]; auto.
Qed.

Lemma sent_failed (ds : list Finished) : sent ds = [] -> failed ds = [].
Proof.
  induction ds as [|d ds IH]; simpl; intros H; [reflexivity|].
  destruct (job_result d); simpl in H; [discriminate | auto].
Qed.

(** The bytes written for a list of finished entries, split by outcome. *)
Lemma total_written_split (ds : list Finished) :
  (forall d, In d ds ->
     (IsDir (job_file d) = true -> written (job_events d) = 0) /\
     (IsDir (job_file d) = false -> job_result d = None ->
      written (job_events d) = Size (job_file d))) ->
  total_written ds = sizes (uploaded ds) + total_written (failed ds).
Proof.
  unfold total_written, sizes, uploaded, failed.
  induction ds as [|d ds IH]; intros H; [reflexivity|].
  assert (Hd := H d (or_introl eq_refl)).
  assert (IH' := IH (fun x Hx => H x (or_intror Hx))).
  cbn [map filter]. rewrite sumZ_cons, IH'.
  destruct Hd as [Dr Fl].
  destruct (job_result d) as [err|].
  - cbn [map]. rewrite sumZ_cons. lia.
  - destruct (IsDir (job_file d)) eqn:D; cbn [negb map].
    + rewrite (Dr eq_refl). lia.
    + rewrite sumZ_cons, D, (Fl eq_refl eq_refl). lia.
Qed.

Lemma uploaded_all (ds : list Finished) :
  sent ds = [] -> sizes (uploaded ds) = sizes (map job_file ds).
Proof.
  intros En. pose proof (sent_nil ds En) as Rs. clear En.
  unfold sizes, uploaded.
  induction ds as [|d ds IH]; [reflexivity|].
  cbn [map filter]. rewrite (Rs d (or_introl eq_refl)).
  rewrite sumZ_cons, <- IH by (intros x Hx; apply Rs; right; exact Hx).
  destruct (IsDir (job_file d)) eqn:D; cbn [negb map].
  - lia.
  - rewrite sumZ_cons, D. reflexivity.
Qed.

(** What a finished entry has written and counted. *)
Lemma finished_bytes (sched : list nat) (files : list FileInfo) (s : Syncer R)
  (d : Finished) :
  In d (done (run_pool host base sched (start_pool files s))) ->
  counted (job_events d) = written (job_events d) /\
  (IsDir (job_file d) = true -> written (job_events d) = 0) /\
  (IsDir (job_file d) = false -> job_result d = None ->
   exists lf, os_Open host (Path (job_file d)) = inr lf /\
              written (job_events d) = file_bytes lf).
Proof.
  intros Hd.
  destruct (run_pool_traced host base sched files s) as [_ T].
  rewrite Forall_forall in T. specialize (T d Hd).
  destruct (job_run host base _ _ _ T) as (A & B & C).
  rewrite counted_rev, written_rev in A. rewrite written_rev in B.
  split; [exact A|]. split; [exact B|].
  intros D Rn. rewrite Rn in C.
  destruct (C D eq_refl) as (lf & _ & _ & _ & O & _ & W & _).
  exists lf. rewrite written_rev in W. auto.
Qed.

(** When the workers have returned, what was counted is what the finished
    entries have written. *)
Lemma exited_total (sched : list nat) (files : list FileInfo) (s : Syncer R) :
  let pl := run_pool host base sched (start_pool files s) in
  forallb exited (threads pl) = true ->
  pool_counted pl = total_written (done pl).
Proof.
  intros pl Ex. unfold pool_counted. rewrite (exited_counted _ Ex), Z.add_0_r.
  apply sumZ_map_ext. intros d Hd. apply (finished_bytes sched files s d Hd).
Qed.

(** When the workers have returned, the finished entries and the queue are
    the input; the queue is empty if there was a worker. *)
Lemma exited_partition (sched : list nat) (files : list FileInfo) (s : Syncer R) :
  let pl := run_pool host base sched (start_pool files s) in
  forallb exited (threads pl) = true ->
  Permutation files (map job_file (done pl) ++ jobs pl) /\
  (0 < workers s -> jobs pl = []).
Proof.
  intros pl Ex.
  destruct (run_pool_books host base sched files s) as (Pm & _ & Xj).
  fold pl in Pm, Xj.
  rewrite (exited_running _ Ex) in Pm. cbn [app] in Pm.
  split; [exact Pm|].
  intros W. apply Xj.
  assert (L : List.length (threads pl) = Z.to_nat (workers s)).
  { unfold pl. rewrite run_pool_threads_length. simpl. apply repeat_length. }
  destruct (threads pl) as [|w l] eqn:T; [simpl in L; lia|].
  simpl in Ex. apply andb_true_iff in Ex as [Ex _].
  constructor. destruct w; try discriminate; reflexivity.
Qed.

(** The bytes written for the finished entries, when the local files
    yield as many bytes as their recorded sizes. *)
Lemma finished_sizes (sched : list nat) (files : list FileInfo) (s : Syncer R) :
  let pl := run_pool host base sched (start_pool files s) in
  forallb exited (threads pl) = true ->
  (forall f lf, In f files -> os_Open host (Path f) = inr lf ->
                file_bytes lf = Size f) ->
  total_written (done pl)
  = sizes (uploaded (done pl)) + total_written (failed (done pl)) /\
  (errors pl = [] -> total_written (done pl) = sizes (uploaded (done pl))) /\
  (0 < workers s -> errors pl = [] -> total_written (done pl) = sizes files).
Proof.
  intros pl Ex Sz.
  destruct (exited_partition sched files s Ex) as [Pm Jn]. fold pl in Pm, Jn.
  destruct (run_pool_books host base sched files s) as (_ & Er & _).
  fold pl in Er.
  assert (Sp : total_written (done pl)
               = sizes (uploaded (done pl)) + total_written (failed (done pl))).
  { apply total_written_split. intros d Hd.
    destruct (finished_bytes sched files s d Hd) as (_ & Dir0 & File0).
    split; [exact Dir0|]. intros D Rn.
    destruct (File0 D Rn) as (lf & O & Wd).
    rewrite Wd. apply Sz with (f := job_file d); [|exact O].
    eapply Permutation_in; [symmetry; exact Pm|].
    apply in_or_app. left. apply in_map. exact Hd. }
  assert (Ok : errors pl = [] -> total_written (done pl) = sizes (uploaded (done pl))).
  { intros En. rewrite Sp, (sent_failed (done pl)) by congruence.
    change (total_written []) with 0. lia. }
  split; [exact Sp|]. split; [exact Ok|].
  intros W En. rewrite (Ok En), uploaded_all by congruence.
  assert (Pf : Permutation files (map job_file (done pl))).
  { rewrite (Jn W), app_nil_r in Pm. exact Pm. }
  unfold sizes. symmetry. apply sumZ_perm, Permutation_map, Pf.
Qed.

(** C8, as the code has it. In a call of [uploadFiles] that starts with
    [s.syncedSize = 0], under every schedule and for every number of
    workers: when the workers have returned, the counter is the sum
    (wrapped to [int64]) of the bytes of all successful chunk writes; the
    finished entries are entries of the input, none of them twice, and all
    of them when there is at least one worker; each finished entry has
    counted exactly what it wrote, a directory nothing and a file uploaded
    without error its whole content. While that sum stays below [2^63] the
    counter never decreases during the call and ends equal to the sum. When
    every local file yields as many bytes as its recorded size, the sum is
    the sum of the sizes of the uploaded file entries plus the bytes written
    for the entries that failed; without a failed entry it is the sum of
    the sizes of the uploaded file entries, which are all file entries of
    the input when there is at least one worker. Every schedule can be
    continued until the workers have returned. *)
Theorem uploadFiles_counts_written_bytes
  (sched1 sched2 sched3 : list nat) (files : list FileInfo) (s : Syncer R) :
  syncedSize s = 0 ->
  let pl1 := run_pool host base sched1 (start_pool files s) in
  let pl2 := run_pool host base (sched1 ++ sched2) (start_pool files s) in
  let pl := run_pool host base (sched1 ++ sched2 ++ sched3) (start_pool files s) in
  let total := total_written (done pl) in
  forallb exited (threads pl) = true ->
  syncedSize (sess pl) = wrap64 total /\
  (Permutation files (map job_file (done pl) ++ jobs pl) /\
   (0 < workers s -> jobs pl = [])) /\
  (forall d, In d (done pl) ->
     counted (job_events d) = written (job_events d) /\
     (IsDir (job_file d) = true -> written (job_events d) = 0) /\
     (IsDir (job_file d) = false -> job_result d = None ->
      exists lf, os_Open host (Path (job_file d)) = inr lf /\
                 written (job_events d) = file_bytes lf)) /\
  (total < 2 ^ 63 ->
   syncedSize (sess pl) = total /\
   0 <= syncedSize (sess pl1) /\
   syncedSize (sess pl1) <= syncedSize (sess pl2) /\
   syncedSize (sess pl2) <= syncedSize (sess pl)) /\
  ((forall f lf, In f files -> os_Open host (Path f) = inr lf ->
                 file_bytes lf = Size f) ->
   total = sizes (uploaded (done pl)) + total_written (failed (done pl)) /\
   (errors pl = [] -> total = sizes (uploaded (done pl))) /\
   (0 < workers s -> errors pl = [] -> total = sizes files)) /\
  (forall sched0, exists sched4,
     forallb exited
       (threads (run_pool host base (sched0 ++ sched4) (start_pool files s)))
     = true).
Proof.
  intros Z0 pl1 pl2 pl total Ex.
  destruct (start_counting files s Z0) as [C0 P0].
  assert (E2 : pl2 = run_pool host base sched2 pl1)
    by (unfold pl2, pl1; apply run_pool_app).
  assert (E3 : pl = run_pool host base sched3 pl2)
    by (unfold pl, pl2; rewrite app_assoc; apply run_pool_app).
  destruct (run_pool_counting host base sched1 _ C0) as [C1 M1]. fold pl1 in C1, M1.
  destruct (run_pool_counting host base sched2 pl1 C1) as [C2 M2].
  rewrite <- E2 in C2, M2.
  destruct (run_pool_counting host base sched3 pl2 C2) as [C3 M3].
  rewrite <- E3 in C3, M3.
  pose proof (exited_total (sched1 ++ sched2 ++ sched3) files s Ex) as Pc.
  fold pl in Pc. fold total in Pc.
  destruct C1 as [S1 _]. destruct C2 as [S2 _]. destruct C3 as [S3 _].
  split; [rewrite S3, Pc; reflexivity|].
  split; [exact (exited_partition (sched1 ++ sched2 ++ sched3) files s Ex)|].
  split; [intros d Hd; exact (finished_bytes _ files s d Hd)|].
  split; [|split].
  - intros Small. rewrite S1, S2, S3.
    rewrite !wrap64_small by lia. lia.
  - intros Sz. exact (finished_sizes (sched1 ++ sched2 ++ sched3) files s Ex Sz).
  - intros sched0.
    destruct (pool_returns host base
                (run_pool host base sched0 (start_pool files s))) as [sched4 E].
    exists sched4. rewrite run_pool_app. exact E.
Qed.

End CounterTotal.

(** ** Invariants of the shared Syncer *)

Section SyncerInvariants.

Context {R : Type} {port : RemotePort R}.
Variable host : Host.
Variable Inv : Syncer R -> Prop.

Hypothesis perform_inv : forall X (e : action X) (s : Syncer R),
  Inv s -> Inv (fst (perform host e s)).

Lemma run_inv {A : Type} (p : prog A) : forall s : Syncer R,
  Inv s -> Inv (fst (run host p s)).
Proof.
  induction p as [a | X e k IH]; intros s H; simpl; [exact H|].
  apply IH, perform_inv, H.
Qed.

Lemma worker_inv (base : path) (i : nat) (pl : pool R) :
  Inv (sess pl) -> Inv (sess (worker host base i pl)).
Proof.
  intros H. unfold worker.
  destruct (nth_error (threads pl) i) as [[|f [r|X e k] h|]|]; simpl; auto.
  destruct (jobs pl); simpl; exact H.
Qed.

Lemma run_pool_inv (base : path) (sched : list nat) : forall pl : pool R,
  Inv (sess pl) -> Inv (sess (run_pool host base sched pl)).
Proof.
  induction sched as [|i sched IH]; intros pl H; simpl; [exact H|].
  apply IH, worker_inv, H.
Qed.

Lemma uploadFiles_keeps_inv (sched : list nat) (files : list FileInfo)
  (base : path) (s s' : Syncer R) (r : option error) :
  uploadFiles host sched files base s = Some (s', r) -> Inv s -> Inv s'.
Proof.
  intros U H. apply uploadFiles_inv in U as (_ & -> & _).
  apply run_pool_inv. exact H.
Qed.

End SyncerInvariants.

(** ** The local walk *)

Section Walk.

Context {R : Type} {port : RemotePort R}.
Variable host : Host.

(** A program that only logs changes nothing but the log. *)
Lemma run_log_only {A : Type} (p : prog A) : forall s : Syncer R,
  safe log_only p -> exists l, fst (run host p s) = set_logger l s.
Proof.
  induction p as [a | X e k IH]; intros s S; simpl.
  - exists (logger s). destruct s; reflexivity.
  - destruct S as [Pe Sk]. destruct e; simpl in Pe; try contradiction.
    simpl. destruct (IH tt (set_logger (logger s ++ [(l, msg)])%list s) (Sk tt))
      as [l' E].
    exists l'. rewrite E. reflexivity.
Qed.

Lemma walkFn_log_only (vs : list Visit) : forall files,
  safe log_only (walkFn vs files).
Proof.
  induction vs as [|v vs IH]; intros files; simpl; [exact I|].
  destruct (v_err v); [exact I|].
  destruct (v_rel v) as [e|[|x rel]]; [exact I | apply IH |].
  simpl. split; [exact I|]. intros _. apply IH.
Qed.

Lemma collectLocalFiles_log_only (s : Syncer R) :
  safe log_only (collectLocalFiles host s).
Proof.
  unfold collectLocalFiles. simpl. split; [exact I|]. intros _.
  apply safe_bind; [apply walkFn_log_only|].
  intros [e|files]; simpl; [exact I|]. split; [exact I|]. intros _; exact I.
Qed.

Lemma walk_result_ok (vs : list Visit) : forall files,
  Forall (fun v => visit_error v = None) vs ->
  walk_result vs files = inr (files ++ visit_entries vs)%list.
Proof.
  induction vs as [|v vs IH]; intros files H; simpl.
  - rewrite app_nil_r. reflexivity.
  - inversion H as [|v' vs' Hv Hvs]; subst. unfold visit_error in Hv.
    destruct (v_err v); [discriminate|].
    destruct (v_rel v) as [e|[|x rel]]; [discriminate | |].
    + simpl. apply IH, Hvs.
    + rewrite IH by exact Hvs. simpl. rewrite <- app_assoc. reflexivity.
Qed.

Lemma walk_result_error (pre : list Visit) : forall (v : Visit) post files err,
  Forall (fun v => visit_error v = None) pre ->
  visit_error v = Some err ->
  walk_result (pre ++ v :: post) files = inl err.
Proof.
  induction pre as [|w pre IH]; intros v post files err H E; simpl.
  - unfold visit_error in E. destruct (v_err v); [congruence|].
    destruct (v_rel v) as [e|rel]; [congruence | discriminate].
  - inversion H as [|w' pre' Hw Hpre]; subst. unfold visit_error in Hw.
    destruct (v_err w); [discriminate|].
    destruct (v_rel w) as [e|[|x rel]]; [discriminate | |]; eapply IH; eauto.
Qed.

(** X1. [collectLocalFiles] on a walk without errors returns one entry per
    visit other than the root, in the order of the walk, with the path, the
    relative path, the size, the modification time and the kind of the
    visit; no entry has the empty relative path. It changes nothing of the
    Syncer but its log. *)
Theorem collectLocalFiles_entries (s0 s : Syncer R) :
  Forall (fun v => visit_error v = None) (Walk host) ->
  snd (run host (collectLocalFiles host s0) s) = inr (visit_entries (Walk host)) /\
  (forall f, In f (visit_entries (Walk host)) -> RelPath f <> []) /\
  exists l, fst (run host (collectLocalFiles host s0) s) = set_logger l s.
Proof.
  intros H. split; [|split].
  - rewrite run_collectLocalFiles, (walk_result_ok _ [] H). reflexivity.
  - intros f Hf. unfold visit_entries in Hf. apply in_flat_map in Hf as [v [_ Hv]].
    destruct (v_rel v) as [e|[|x rel]]; simpl in Hv; try contradiction.
    destruct Hv as [<- | []]. simpl. discriminate.
  - apply run_log_only, collectLocalFiles_log_only.
Qed.

(** X2. [collectLocalFiles] stops at the first visit with an error (handed
    in by the walk or returned by [filepath.Rel]): it returns "failed to
    walk local directory: ..." with that error, whatever the later visits
    are, and no entry. *)
Theorem collectLocalFiles_first_error
  (s0 s : Syncer R) (pre post : list Visit) (v : Visit) (err : error) :
  Walk host = (pre ++ v :: post)%list ->
  Forall (fun v => visit_error v = None) pre ->
  visit_error v = Some err ->
  snd (run host (collectLocalFiles host s0) s)
  = inl ("failed to walk local directory: " ++ err).
Proof.
  intros W H E.
  rewrite run_collectLocalFiles, W, (walk_result_error pre v post [] err H E).
  reflexivity.
Qed.

End Walk.

(** ** The orchestrator before the upload *)

Section Orchestrator.

Context {R : Type} {port : RemotePort R}.
Variable host : Host.

Lemma sum_sizes_from (files : list FileInfo) : forall acc,
  fold_left (fun total file =>
               if IsDir file then total else int64_add total (Size file))
            files (wrap64 acc)
  = wrap64 (acc + sizes files).
Proof.
  induction files as [|f files IH]; intros acc; simpl.
  - unfold sizes; simpl. unfold sumZ; simpl. f_equal; try lia.
  - unfold sizes in *. cbn [map]. rewrite sumZ_cons.
    destruct (IsDir f).
    + rewrite IH. f_equal; try lia.
    + unfold int64_add. rewrite wrap64_add, IH. f_equal; try lia.
Qed.

(** X3. The total of the progress bar is the sum of the sizes of the file
    entries, directories left out, reduced to [int64]. *)
Theorem sum_sizes_wrap (files : list FileInfo) :
  sum_sizes files = wrap64 (sizes files).
Proof.
  unfold sum_sizes. change 0 with (wrap64 0) at 1.
  rewrite sum_sizes_from. reflexivity.
Qed.

Lemma perform_bar_tracks (total c0 : Z) {X : Type} (e : action X) (s : Syncer R) :
  bar_tracks total c0 s -> bar_tracks total c0 (fst (perform host e s)).
Proof.
  intros (T & b & B & Bt & Bf & Bc).
  destruct e as [op| |n|l msg];
    try solve [split; [exact T|]; exists b; simpl; auto].
  split; [exact T|]. simpl. rewrite B. simpl.
  eexists. split; [reflexivity|]. simpl. auto.
Qed.

Lemma bar_Finish_closed (total c0 : Z) (s : Syncer R) :
  bar_tracks total c0 s -> bar_closed total c0 (bar_Finish s).
Proof.
  intros (T & b & B & Bt & Bf & Bc). unfold bar_Finish. rewrite B.
  split; [exact T|]. eexists. split; [reflexivity|]. simpl. auto.
Qed.

Lemma start_progress_tracks (files : list FileInfo) (s : Syncer R) :
  bar_tracks (sum_sizes files) (syncedSize s) (start_progress files s).
Proof.
  split; [reflexivity|]. eexists. split; [reflexivity|]. simpl. auto.
Qed.

Lemma run_begin (msg : string) (s : Syncer R) :
  exists l,
    fst (run host (call (Logf Info msg) ;;; collectLocalFiles host s) s)
    = set_logger l s /\
    snd (run host (call (Logf Info msg) ;;; collectLocalFiles host s) s)
    = match walk_result (Walk host) [] with
      | inl err => inl ("failed to walk local directory: " ++ err)
      | inr files => inr files
      end.
Proof.
  set (p0 := call (Logf Info msg) ;;; collectLocalFiles host s).
  assert (Q : safe log_only p0).
  { simpl. split; [exact I|]. intros _. apply (collectLocalFiles_log_only host s). }
  destruct (run_log_only host p0 s Q) as [l E]. exists l. split; [exact E|].
  unfold p0. rewrite run_bind. apply run_collectLocalFiles.
Qed.

Lemma run_remote (op : Op) (s : Syncer R) :
  run host (call (Remote op)) s
  = (set_client (fst (exec op (client s)))
                (calls s ++ [(op, snd (exec op (client s)))])%list s,
     snd (exec op (client s))).
Proof. reflexivity. Qed.

(** [fullSync] up to the upload, spelled out. *)
Lemma fullSync_begin_spec (s : Syncer R) (files : list FileInfo) :
  walk_result (Walk host) [] = inr files ->
  let temp := Join (Dir (remotePath s))
                   [".sync_tmp_" ++ Format host (time_Now host (clock s))] in
  let c := exec (MkdirAll temp) (client s) in
  exists l,
    let s3 := set_client (fst c) (calls s ++ [(MkdirAll temp, snd c)])%list
                (set_logger l (set_clock (S (clock s)) (start_progress files s))) in
    fullSync_begin host s
    = match snd c with
      | Some err =>
          (bar_Finish s3, inl ("failed to create temporary directory: " ++ err))
      | None => (s3, inr (files, temp))
      end.
Proof.
  intros W temp c.
  destruct (run_begin "Performing full synchronization..." s) as (l & E1 & E2).
  rewrite W in E2.
  exists (l ++ [(Info, ("Creating temporary directory: " ++ show temp)%string)])%list.
  unfold fullSync_begin. cbv zeta. rewrite E2. cbv beta iota. rewrite E1.
  rewrite run_log_remote. cbn [fst snd].
  change (snd (perform host Now (start_progress files (set_logger l s))))
    with (time_Now host (clock s)).
  fold temp. change (client (fst (perform host Now (start_progress files (set_logger l s)))))
    with (client s). fold c.
  destruct (snd c); reflexivity.
Qed.

(** X4. When the walk fails, [fullSync] and [incrementalSync] return
    "failed to collect local files: failed to walk local directory: ..."
    and have changed nothing of the Syncer but its log: no remote call is
    made and no progress bar is started. *)
Theorem Sync_walk_error (sched : list nat) (s : Syncer R) (err : error) :
  walk_result (Walk host) [] = inl err ->
  exists l1 l2,
    fullSync host sched s
    = Some (set_logger l1 s,
            Some ("failed to collect local files: failed to walk local directory: "
                  ++ err)) /\
    incrementalSync host sched s
    = Some (set_logger l2 s,
            Some ("failed to collect local files: failed to walk local directory: "
                  ++ err)).
Proof.
  intros W.
  destruct (run_begin "Performing full synchronization..." s) as (l1 & E1 & E2).
  destruct (run_begin "Performing incremental synchronization..." s)
    as (l2 & F1 & F2).
  rewrite W in E2, F2. exists l1, l2. split.
  - unfold fullSync, fullSync_begin. cbv zeta. rewrite E2, E1. reflexivity.
  - unfold incrementalSync. cbv zeta. rewrite F2, F1. reflexivity.
Qed.

(** X5. When the temporary directory cannot be made, [fullSync] returns
    "failed to create temporary directory: ..." after that single remote
    call: nothing is uploaded, renamed or removed, and the progress bar is
    finished. *)
Theorem fullSync_staging_failure
  (sched : list nat) (s : Syncer R) (files : list FileInfo) (err : error) :
  walk_result (Walk host) [] = inr files ->
  let temp := Join (Dir (remotePath s))
                   [".sync_tmp_" ++ Format host (time_Now host (clock s))] in
  snd (exec (MkdirAll temp) (client s)) = Some err ->
  exists s',
    fullSync host sched s
    = Some (s', Some ("failed to create temporary directory: " ++ err)) /\
    calls s' = (calls s ++ [(MkdirAll temp, Some err)])%list /\
    bar s' = Some (mkBar (sum_sizes files) [] true).
Proof.
  intros W temp E.
  destruct (fullSync_begin_spec s files W) as [l B]. cbv zeta in B.
  fold temp in B. rewrite E in B.
  eexists. split; [|split].
  - unfold fullSync. rewrite B. reflexivity.
  - reflexivity.
  - reflexivity.
Qed.

(** X6. When the remote base directory cannot be made, [incrementalSync]
    returns "failed to create remote directory: ..." after that single
    remote call: nothing is uploaded, and the progress bar is finished. *)
Theorem incrementalSync_base_failure
  (sched : list nat) (s : Syncer R) (files : list FileInfo) (err : error) :
  walk_result (Walk host) [] = inr files ->
  snd (exec (MkdirAll (remotePath s)) (client s)) = Some err ->
  exists s',
    incrementalSync host sched s
    = Some (s', Some ("failed to create remote directory: " ++ err)) /\
    calls s' = (calls s ++ [(MkdirAll (remotePath s), Some err)])%list /\
    bar s' = Some (mkBar (sum_sizes files) [] true).
Proof.
  intros W E.
  destruct (run_begin "Performing incremental synchronization..." s)
    as (l & E1 & E2).
  rewrite W in E2.
  assert (B : incrementalSync host sched s
              = Some (bar_Finish
                        (set_client (fst (exec (MkdirAll (remotePath s)) (client s)))
                           (calls s ++ [(MkdirAll (remotePath s), Some err)])%list
                           (start_progress files (set_logger l s))),
                      Some ("failed to create remote directory: " ++ err))).
  { unfold incrementalSync. cbv zeta. rewrite E2. cbv beta iota. rewrite E1.
    rewrite run_remote. cbn [fst snd].
    change (client (start_progress files (set_logger l s))) with (client s).
    rewrite E. reflexivity. }
  eexists. split; [exact B|]. split; reflexivity.
Qed.

End Orchestrator.

(** ** The orchestrator on return *)

Section OnReturn.

Context {R : Type} {port : RemotePort R}.
Variable host : Host.

(** Since the calls [calls0], calls were only added, and the bar tracks
    the counter. *)
Definition progressing (total c0 : Z) (calls0 : list (Op * option error))
  (s : Syncer R) : Prop :=
  bar_tracks total c0 s /\ exists more, calls s = (calls0 ++ more)%list.

Lemma perform_progressing (total c0 : Z) (calls0 : list (Op * option error))
  {X : Type} (e : action X) (s : Syncer R) :
  progressing total c0 calls0 s ->
  progressing total c0 calls0 (fst (perform host e s)).
Proof.
  intros [B [more C]]. split; [apply perform_bar_tracks, B|].
  destruct e as [op| |n|l msg]; simpl; try (exists more; exact C).
  eexists. rewrite C, <- app_assoc. reflexivity.
Qed.

(** X7. Once the temporary directory is made, every return of [fullSync]
    goes through the deferred function: the last remote call asks for the
    removal of the temporary directory, whatever the result of the call,
    and the progress bar is finished, with the sum of the file sizes as its
    total and the counter as the last value it was given (the counter being
    what it was before the call if the bar was given none). *)
Theorem fullSync_always_cleans_up
  (sched : list nat) (s s' : Syncer R) (files : list FileInfo)
  (r : option error) :
  walk_result (Walk host) [] = inr files ->
  let temp := Join (Dir (remotePath s))
                   [".sync_tmp_" ++ Format host (time_Now host (clock s))] in
  snd (exec (MkdirAll temp) (client s)) = None ->
  fullSync host sched s = Some (s', r) ->
  (exists mid rr,
     calls s' = (calls s ++ (MkdirAll temp, None) :: mid
                 ++ [(RemoveDirectory temp, rr)])%list) /\
  bar_closed (sum_sizes files) (syncedSize s) s'.
Proof.
  intros W temp E H.
  destruct (fullSync_begin_spec host s files W) as [l B]. cbv zeta in B.
  fold temp in B. rewrite E in B.
  set (s3 := set_client _ _ _) in B.
  assert (P3 : progressing (sum_sizes files) (syncedSize s)
                 (calls s ++ [(MkdirAll temp, None)])%list s3).
  { split.
    - split; [reflexivity|]. eexists. split; [reflexivity|]. simpl. auto.
    - exists []. rewrite app_nil_r. reflexivity. }
  unfold fullSync in H. rewrite B in H.
  destruct (fullSync_run host sched files temp s3) as [[s2 r2]|] eqn:Rn;
    [|discriminate].
  inversion H; subst s' r2. clear H.
  assert (P2 : progressing (sum_sizes files) (syncedSize s)
                 (calls s ++ [(MkdirAll temp, None)])%list s2).
  { unfold fullSync_run in Rn.
    destruct (uploadFiles host sched files temp s3) as [[s1 [e|]]|] eqn:U;
      try discriminate.
    - inversion Rn; subst.
      eapply (uploadFiles_keeps_inv host); [|exact U | exact P3].
      intros X e0 s0. apply perform_progressing.
    - destruct (run host (fullSync_swap host (remotePath s3) temp) s1)
        as [s4 r4] eqn:Sw.
      inversion Rn; subst s4 r4.
      replace s2 with (fst (run host (fullSync_swap host (remotePath s3) temp) s1))
        by (rewrite Sw; reflexivity).
      apply (run_inv host (progressing (sum_sizes files) (syncedSize s)
                             (calls s ++ [(MkdirAll temp, None)])%list)).
      + intros X e0 s0. apply perform_progressing.
      + eapply (uploadFiles_keeps_inv host); [|exact U | exact P3].
        intros X e0 s0. apply perform_progressing. }
  destruct P2 as [B2 [more C2]]. split.
  - exists more, (snd (exec (RemoveDirectory temp) (client s2))).
    rewrite fullSync_defer_calls, C2, <- !app_assoc. reflexivity.
  - unfold fullSync_defer. apply bar_Finish_closed.
    apply (run_inv host (bar_tracks (sum_sizes files) (syncedSize s))); [|exact B2].
    intros X e0 s0. apply perform_bar_tracks.
Qed.

(** X8. Once the walk has succeeded, every return of [incrementalSync]
    leaves the progress bar finished, with the sum of the file sizes as its
    total and the counter as the last value it was given (the counter being
    what it was before the call if the bar was given none). *)
Theorem incrementalSync_finishes_bar
  (sched : list nat) (s s' : Syncer R) (files : list FileInfo)
  (r : option error) :
  walk_result (Walk host) [] = inr files ->
  incrementalSync host sched s = Some (s', r) ->
  bar_closed (sum_sizes files) (syncedSize s) s'.
Proof.
  intros W H.
  destruct (run_begin host "Performing incremental synchronization..." s)
    as (l & E1 & E2).
  rewrite W in E2.
  unfold incrementalSync in H. cbv zeta in H. rewrite E2 in H.
  cbv beta iota in H. rewrite E1 in H.
  set (s1 := start_progress files (set_logger l s)) in H.
  assert (P1 : bar_tracks (sum_sizes files) (syncedSize s) s1)
    by apply (start_progress_tracks files (set_logger l s)).
  assert (P2 : bar_tracks (sum_sizes files) (syncedSize s)
                 (fst (run host (call (Remote (MkdirAll (remotePath s)))) s1))).
  { apply (run_inv host (bar_tracks (sum_sizes files) (syncedSize s))); [|exact P1].
    intros X e0 s0. apply perform_bar_tracks. }
  destruct (snd (run host (call (Remote (MkdirAll (remotePath s)))) s1)).
  { inversion H; subst. apply bar_Finish_closed, P2. }
  destruct (uploadFiles host sched files (remotePath s) _) as [[s3 r3]|] eqn:U;
    [|discriminate].
  assert (P3 : bar_tracks (sum_sizes files) (syncedSize s) s3).
  { eapply (uploadFiles_keeps_inv host); [|exact U | exact P2].
    intros X e0 s0. apply perform_bar_tracks. }
  destruct r3; inversion H; subst; apply bar_Finish_closed, P3.
Qed.

Lemma bar_Finish_config (s0 s : Syncer R) :
  same_config s0 s -> same_config s0 (bar_Finish s).
Proof. intros H; exact H. Qed.

Lemma perform_same_config (s0 : Syncer R) {X : Type} (e : action X) (s : Syncer R) :
  same_config s0 s -> same_config s0 (fst (perform host e s)).
Proof.
  intros H. eapply same_config_trans; [exact H | apply (perform_config host e)].
Qed.

(** X9. [Sync] never changes the configuration of the Syncer: the local
    path, the remote path, the mode and the number of workers are the same
    on return, in every mode and whatever the result. *)
Theorem Sync_keeps_config (sched : list nat) (s s' : Syncer R) (r : option error) :
  Sync host sched s = Some (s', r) -> same_config s s'.
Proof.
  unfold Sync.
  destruct (String.eqb (mode s) "full");
    [|destruct (String.eqb (mode s) "incremental")].
  - unfold fullSync.
    assert (B : same_config s (fst (fullSync_begin host s))).
    { unfold fullSync_begin. cbv zeta.
      set (s1 := run host _ s).
      assert (G1 : same_config s (fst s1)) by apply run_config.
      destruct (snd s1) as [e|fs]; [exact G1|].
      set (s3 := run host _ _).
      assert (G3 : same_config s (fst s3)).
      { unfold s3. apply (run_inv host (same_config s)).
        - intros X e0 s0. apply perform_same_config.
        - exact G1. }
      clearbody s3 s1.
      destruct (snd s3); cbn [fst]; [apply bar_Finish_config|]; exact G3. }
    destruct (fullSync_begin host s) as [s1 [e|[fs tp]]]; simpl in B.
    + intros H; inversion H; subst; exact B.
    + unfold fullSync_run.
      destruct (uploadFiles host sched fs tp s1) as [[s2 [e|]]|] eqn:U;
        try discriminate.
      * intros H; inversion H; subst. unfold fullSync_defer.
        apply bar_Finish_config. apply (run_inv host (same_config s)).
        { intros X e0 s0. apply perform_same_config. }
        eapply (uploadFiles_keeps_inv host (same_config s)); [|exact U | exact B].
        intros X e0 s0. apply perform_same_config.
      * destruct (run host (fullSync_swap host (remotePath s1) tp) s2)
          as [s4 r4] eqn:Sw.
        intros H; inversion H; subst. unfold fullSync_defer.
        apply bar_Finish_config. apply (run_inv host (same_config s)).
        { intros X e0 s0. apply perform_same_config. }
        replace s4 with (fst (run host (fullSync_swap host (remotePath s1) tp) s2))
          by (rewrite Sw; reflexivity).
        apply (run_inv host (same_config s)).
        { intros X e0 s0. apply perform_same_config. }
        eapply (uploadFiles_keeps_inv host (same_config s)); [|exact U | exact B].
        intros X e0 s0. apply perform_same_config.
  - unfold incrementalSync. cbv zeta.
    set (s1 := run host _ s).
    assert (G1 : same_config s (fst s1)) by apply run_config.
    destruct (snd s1) as [e|fs]; [intros H; inversion H; subst; exact G1|].
    set (s2 := run host _ _).
    assert (G2 : same_config s (fst s2)).
    { unfold s2. apply (run_inv host (same_config s)).
      - intros X e0 s0. apply perform_same_config.
      - exact G1. }
    destruct (snd s2); [intros H; inversion H; subst; exact G2|].
    destruct (uploadFiles host sched fs (remotePath s) (fst s2))
      as [[s3 r3]|] eqn:U; [|discriminate].
    assert (G3 : same_config s s3).
    { eapply (uploadFiles_keeps_inv host (same_config s)); [|exact U | exact G2].
      intros X e0 s0. apply perform_same_config. }
    destruct r3; intros H; inversion H; subst; exact G3.
  - intros H; inversion H; subst. apply same_config_refl.
Qed.

End OnReturn.

(** ** Full replacement: the branches of backup and swap *)

Section SwapBranches.

Context {R : Type} {port : RemotePort R}.
Variable host : Host.


(** The backup step, spelled out. *)
Lemma run_fullSync_backup (target : path) (s : Syncer R) :
  let backup := add_suffix target (".bak_" ++ Format host (time_Now host (clock s))) in
  let c1 := exec (Stat target) (client s) in
  let c2 := exec (Rename target backup) (fst c1) in
  let out := run host (fullSync_backup host target) s in
  fst (snd out) = backup /\
  match snd c1 with
  | Some err =>
      snd (snd out) = None /\ client (fst out) = fst c1 /\
      calls (fst out) = (calls s ++ [(Stat target, Some err)])%list
  | None =>
      snd (snd out) = snd c2 /\ client (fst out) = fst c2 /\
      calls (fst out)
      = (calls s ++ [(Stat target, None); (Rename target backup, snd c2)])%list
  end.
Proof.
  intros backup c1 c2 out. unfold out, fullSync_backup.
  cbn -[add_suffix String.append show]. fold backup. fold c1.
  destruct (snd c1) as [e|] eqn:E1; cbn -[add_suffix String.append show].
  - auto.
  - fold c2. rewrite <- app_assoc. auto.
Qed.

Lemma run_fullSync_swap (target temp : path) (s : Syncer R) :
  let b := run host (fullSync_backup host target) s in
  run host (fullSync_swap host target temp) s
  = match snd (snd b) with
    | Some err => (fst b, Some ("failed to create backup: " ++ err))
    | None => run host (fullSync_commit target temp (fst (snd b))) (fst b)
    end.
Proof.
  intros b. unfold fullSync_swap. rewrite run_bind. fold b.
  destruct (snd (snd b)); reflexivity.
Qed.

(** The first call of the swap step is the rename of the temporary
    directory to the target; when it succeeds the step returns no error. *)
Lemma run_fullSync_commit_first (target temp backup : path) (s : Syncer R) :
  let c := exec (Rename temp target) (client s) in
  let out := run host (fullSync_commit target temp backup) s in
  (exists rest,
     calls (fst out) = (calls s ++ (Rename temp target, snd c) :: rest)%list) /\
  (snd c = None -> snd out = None).
Proof.
  intros c out. unfold out, fullSync_commit.
  cbn -[String.append show]. fold c.
  destruct (snd c) as [e|]; cbn -[String.append show].
  - split; [|discriminate].
    set (b := exec (Stat backup) (fst c)).
    destruct (snd b) as [e2|]; cbn -[String.append show].
    + eexists. rewrite <- !app_assoc. reflexivity.
    + set (r := exec (Rename backup target) (fst b)).
      destruct (snd r); cbn -[String.append show];
        eexists; rewrite <- !app_assoc; reflexivity.
  - set (b := exec (Stat backup) (fst c)).
    destruct (snd b) as [e2|]; cbn -[String.append show].
    + split; [|reflexivity]. eexists. rewrite <- !app_assoc. reflexivity.
    + set (r := exec (RemoveDirectory backup) (fst b)).
      destruct (snd r); cbn -[String.append show];
        (split; [|reflexivity]);
        eexists; rewrite <- !app_assoc; reflexivity.
Qed.

(** X11. The backup step: when [Stat] finds the target and the rename of
    the target to the backup path fails, [fullSync] gives up with "failed
    to create backup: ..." and the swap is not attempted: the failed rename
    is the last remote call of this part, and the temporary directory is
    left to the deferred function. *)
Theorem fullSync_backup_failure (target temp : path) (s : Syncer R) (err : error) :
  let backup := add_suffix target (".bak_" ++ Format host (time_Now host (clock s))) in
  let c1 := exec (Stat target) (client s) in
  let c2 := exec (Rename target backup) (fst c1) in
  snd c1 = None -> snd c2 = Some err ->
  let out := run host (fullSync_swap host target temp) s in
  snd out = Some ("failed to create backup: " ++ err) /\
  calls (fst out)
  = (calls s ++ [(Stat target, None); (Rename target backup, Some err)])%list.
Proof.
  intros backup c1 c2 E1 E2 out.
  destruct (run_fullSync_backup target s) as [_ B]. cbv zeta in B.
  fold backup c1 c2 in B. rewrite E1, E2 in B. destruct B as (Rb & _ & Cb).
  unfold out. rewrite run_fullSync_swap. cbv zeta. rewrite Rb.
  split; [reflexivity | exact Cb].
Qed.

(** X12. The backup step when [Stat] does not find the target: no backup
    is made, the next remote call is the rename of the temporary directory
    to the target, and when that rename succeeds the part returns no
    error. *)
Theorem fullSync_without_target (target temp : path) (s : Syncer R) (err : error) :
  let c1 := exec (Stat target) (client s) in
  let c2 := exec (Rename temp target) (fst c1) in
  snd c1 = Some err ->
  let out := run host (fullSync_swap host target temp) s in
  (exists rest,
     calls (fst out)
     = (calls s ++ (Stat target, Some err) :: (Rename temp target, snd c2) :: rest)%list) /\
  (snd c2 = None -> snd out = None).
Proof.
  intros c1 c2 E1 out.
  destruct (run_fullSync_backup target s) as [_ B]. cbv zeta in B.
  fold c1 in B. rewrite E1 in B. destruct B as (Rb & Cl & Cb).
  unfold out. rewrite run_fullSync_swap. cbv zeta. rewrite Rb.
  set (b := run host (fullSync_backup host target) s) in *.
  destruct (run_fullSync_commit_first target temp (fst (snd b)) (fst b))
    as [[rest Cc] Ok].
  rewrite Cl in Cc, Ok. fold c2 in Cc, Ok.
  split; [|exact Ok].
  exists rest. rewrite Cc, Cb, <- app_assoc. reflexivity.
Qed.

(** X13. The swap step when the rename of the temporary directory to the
    target succeeds: the part returns no error whatever follows; the backup
    is removed exactly when [Stat] finds it, and a failure of that removal
    is only a warning in the log. *)
Theorem fullSync_commit_success (target temp backup : path) (s : Syncer R) :
  let c1 := exec (Rename temp target) (client s) in
  let c2 := exec (Stat backup) (fst c1) in
  let c3 := exec (RemoveDirectory backup) (fst c2) in
  snd c1 = None ->
  let out := run host (fullSync_commit target temp backup) s in
  snd out = None /\
  calls (fst out)
  = (calls s ++ (Rename temp target, None) :: (Stat backup, snd c2)
     :: match snd c2 with
        | None => [(RemoveDirectory backup, snd c3)]
        | Some _ => []
        end)%list /\
  (forall err, snd c2 = None -> snd c3 = Some err ->
     In (Warn, "Failed to remove backup directory: " ++ err) (logger (fst out))).
Proof.
  intros c1 c2 c3 E1 out. unfold out, fullSync_commit. simpl.
  fold c1. rewrite E1. simpl. fold c2.
  destruct (snd c2) as [e2|]; simpl.
  - rewrite <- !app_assoc. repeat split. intros err Q; discriminate.
  - fold c3. destruct (snd c3) as [e3|]; simpl; rewrite <- !app_assoc;
      repeat split; intros err _ Q; inversion Q; subst.
    rewrite !in_app_iff. simpl. auto.
Qed.

(** X14. The swap step when the rename fails and [Stat] does not find a
    backup: the part returns "failed to rename temporary directory: ..."
    with the error of the rename, and no rename back is attempted. *)
Theorem fullSync_swap_failure_without_backup
  (target temp backup : path) (s : Syncer R) (err err2 : error) :
  let c1 := exec (Rename temp target) (client s) in
  let c2 := exec (Stat backup) (fst c1) in
  snd c1 = Some err -> snd c2 = Some err2 ->
  let out := run host (fullSync_commit target temp backup) s in
  snd out = Some ("failed to rename temporary directory: " ++ err) /\
  calls (fst out)
  = (calls s ++ [(Rename temp target, Some err); (Stat backup, Some err2)])%list.
Proof.
  intros c1 c2 E1 E2 out. unfold out, fullSync_commit. simpl.
  fold c1. rewrite E1. simpl. fold c2. rewrite E2. simpl.
  rewrite <- !app_assoc. auto.
Qed.

End SwapBranches.

(** ** What the workers do for one entry *)

Section Entries.

Context {R : Type} {port : RemotePort R}.
Variable host : Host.
Variable base : path.

Lemma finished_traced (sched : list nat) (files : list FileInfo) (s : Syncer R)
  (d : Finished) :
  In d (done (run_pool host base sched (start_pool files s))) ->
  complete_run (job host base (job_file d)) (rev (job_events d)) (job_result d).
Proof.
  intros Hd. destruct (run_pool_traced host base sched files s) as [_ T].
  rewrite Forall_forall in T. exact (T d Hd).
Qed.

Lemma written_data_writes (p : path) (rs : list bytes) :
  written_data (map (fun buf => (Write p buf, @None error))
                    (filter (fun buf => 0 <? Z.of_nat (List.length buf)) rs))
  = List.concat rs.
Proof.
  induction rs as [|buf rs IH]; simpl; [reflexivity|].
  destruct (0 <? Z.of_nat (List.length buf)) eqn:Pos; simpl.
  - unfold written_data in *. simpl. rewrite IH. reflexivity.
  - rewrite IH. destruct buf; [reflexivity|]. simpl in Pos.
    apply Z.ltb_ge in Pos. lia.
Qed.

Lemma written_data_app (a b : list (Op * option error)) :
  written_data (a ++ b) = (written_data a ++ written_data b)%list.
Proof. unfold written_data. apply flat_map_app. Qed.

(** X15. A file entry a worker finishes without error was opened, read to
    [io.EOF], and written to the server in order: after [MkdirAll] of its
    remote directory and [Create] of its remote path, the successful
    writes, all at that path, carry exactly the bytes the local reads
    returned, empty reads being skipped. This holds under every schedule. *)
Theorem upload_writes_content
  (sched : list nat) (files : list FileInfo) (s : Syncer R) (d : Finished) :
  In d (done (run_pool host base sched (start_pool files s))) ->
  IsDir (job_file d) = false ->
  job_result d = None ->
  let p := Join base (RelPath (job_file d)) in
  exists lf writes rest,
    os_Open host (Path (job_file d)) = inr lf /\ read_end lf = None /\
    remote_calls (rev (job_events d))
    = ((MkdirAll (Dir p), None) :: (Create p, None) :: writes ++ rest)%list /\
    writes = map (fun buf => (Write p buf, None))
                 (filter (fun buf => 0 <? Z.of_nat (List.length buf)) (reads lf)) /\
    written_data writes = List.concat (reads lf) /\
    written_data (remote_calls (rev (job_events d))) = List.concat (reads lf).
Proof.
  intros Hd D Rn p. pose proof (finished_traced _ _ _ _ Hd) as T.
  rewrite Rn in T. destruct (job_run host base _ _ _ T) as (_ & _ & J).
  destruct (J D eq_refl) as (lf & rc & t & rt & O & Fin & _ & _ & Rc).
  fold p in Rc.
  exists lf, (map (fun buf => (Write p buf, None))
                  (filter (fun buf => 0 <? Z.of_nat (List.length buf)) (reads lf))),
         [(Chmod p 420, rc); (Chtimes p t (ModTime (job_file d)), rt)].
  repeat split; auto.
  - apply written_data_writes.
  - rewrite Rc. change (written_data (?a :: ?b :: ?l)) with (written_data l).
    rewrite written_data_app, written_data_writes. simpl. apply app_nil_r.
Qed.

Lemma removelast_cons_Forall {A : Type} (P : A -> Prop) (x : A) (l : list A) :
  P x -> Forall P (removelast l) -> Forall P (removelast (x :: l)).
Proof.
  intros Hx Hl. destruct l as [|y l]; [constructor|].
  change (removelast (x :: y :: l)) with (x :: removelast (y :: l)).
  constructor; assumption.
Qed.

Lemma copyLoop_stops (p : path) (fin : option error) (rs : list bytes) :
  forall h r,
    complete_run (copyLoop p rs fin) h r ->
    Forall succeeded (removelast (remote_calls h)) /\
    Forall (fun c => ~ sets_metadata c) (remote_calls h).
Proof.
  induction rs as [|buf rs IH]; simpl; intros h r H.
  - destruct fin; destruct H as [-> ->]; split; constructor.
  - destruct (0 <? Z.of_nat (List.length buf)).
    + simpl in H. destruct H as ([e|] & h' & -> & H); simpl in H.
      * destruct H as [-> ->]. split; [constructor|].
        constructor; [|constructor]. unfold sets_metadata; simpl. tauto.
      * destruct H as ([] & h'' & -> & H). destruct (IH _ _ H) as [A B].
        change (remote_calls (Ev (Remote (Write p buf)) None
                              :: Ev (Locked (Z.of_nat (List.length buf))) tt :: h''))
          with ((Write p buf, @None error) :: remote_calls h'').
        split.
        { apply removelast_cons_Forall; [reflexivity | exact A]. }
        { constructor; [|exact B]. unfold sets_metadata; simpl. tauto. }
    + apply (IH _ _ H).
Qed.

Lemma copyContent_stops (f : FileInfo) (h : list event) (r : option error) :
  complete_run (copyContent host f base) h r ->
  Forall succeeded (removelast (remote_calls h)) /\
  Forall (fun c => ~ sets_metadata c) (remote_calls h).
Proof.
  unfold copyContent. destruct (os_Open host (Path f)) as [e|lf].
  - simpl. intros [-> ->]. split; constructor.
  - simpl. intros (r1 & h1 & -> & H). destruct r1 as [e|]; simpl in H.
    + destruct H as [-> ->]. split; [constructor|].
      constructor; [|constructor]. unfold sets_metadata; simpl. tauto.
    + destruct H as (r2 & h2 & -> & H). destruct r2 as [e|]; simpl in H.
      * destruct H as [-> ->]. split.
        { constructor; [reflexivity | constructor]. }
        { repeat constructor; unfold sets_metadata; simpl; tauto. }
      * destruct (copyLoop_stops _ _ _ _ _ H) as [A B].
        change (remote_calls (Ev (Remote (MkdirAll (Dir (Join base (RelPath f))))) None
                              :: Ev (Remote (Create (Join base (RelPath f)))) None :: h2))
          with ((MkdirAll (Dir (Join base (RelPath f))), @None error)
                :: (Create (Join base (RelPath f)), @None error) :: remote_calls h2).
        split.
        { apply removelast_cons_Forall; [reflexivity|].
          apply removelast_cons_Forall; [reflexivity | exact A]. }
        { constructor; [unfold sets_metadata; simpl; tauto|].
          constructor; [unfold sets_metadata; simpl; tauto | exact B]. }
Qed.

(** X16. A file entry whose upload fails: the worker sends "failed to
    upload file <relative path>: ..."; every remote call of the entry but
    the last one succeeded (the entry is given up at the first failing
    call, or at a local open or read error), and neither [Chmod] nor
    [Chtimes] is called for it. This holds under every schedule. *)
Theorem failed_upload_stops
  (sched : list nat) (files : list FileInfo) (s : Syncer R) (d : Finished)
  (err : error) :
  In d (done (run_pool host base sched (start_pool files s))) ->
  IsDir (job_file d) = false ->
  job_result d = Some err ->
  (exists cause,
     err = "failed to upload file " ++ show (RelPath (job_file d)) ++ ": " ++ cause) /\
  Forall succeeded (removelast (remote_calls (rev (job_events d)))) /\
  Forall (fun c => ~ sets_metadata c) (remote_calls (rev (job_events d))).
Proof.
  intros Hd D Re. pose proof (finished_traced _ _ _ _ Hd) as T.
  rewrite Re in T. unfold job in T. rewrite D in T.
  apply complete_run_bind in T as (h1 & h2 & a & -> & H1 & H2).
  unfold uploadFile in H1.
  apply complete_run_bind in H1 as (h11 & h12 & a' & -> & Hc & Hm).
  destruct a as [cause|]; simpl in H2; destruct H2 as [-> E]; [|discriminate].
  inversion E; subst err. rewrite app_nil_r in *.
  split; [eexists; reflexivity|].
  destruct a' as [e|].
  - simpl in Hm. destruct Hm as [-> _]. rewrite app_nil_r in *.
    apply copyContent_stops with (f := job_file d) (r := Some e).
    exact Hc.
  - apply setMetadata_run in Hm as (Q & _). discriminate.
Qed.

(** X17. A directory entry costs one remote call, [MkdirAll] of its remote
    path; the worker sends "failed to create remote directory <path>: ..."
    exactly when that call fails. This holds under every schedule. *)
Theorem directory_entry_run
  (sched : list nat) (files : list FileInfo) (s : Syncer R) (d : Finished) :
  In d (done (run_pool host base sched (start_pool files s))) ->
  IsDir (job_file d) = true ->
  let p := Join base (RelPath (job_file d)) in
  exists x,
    remote_calls (rev (job_events d)) = [(MkdirAll p, x)] /\
    job_result d
    = match x with
      | Some err =>
          Some ("failed to create remote directory " ++ show p ++ ": " ++ err)
      | None => None
      end.
Proof.
  intros Hd D p. pose proof (finished_traced _ _ _ _ Hd) as T.
  unfold job in T. rewrite D in T. simpl in T.
  destruct T as ([] & h1 & E1 & x & h2 & -> & T).
  exists x. rewrite E1. destruct x; simpl in T; destruct T as [-> ->]; auto.
Qed.

End Entries.

(** ** The pool as a whole *)

Section WholePool.

Context {R : Type} {port : RemotePort R}.
Variable host : Host.

Lemma sent_first (pre post : list Finished) (d : Finished) (err : error) :
  Forall (fun d => job_result d = None) pre ->
  job_result d = Some err ->
  exists rest, sent (pre ++ d :: post) = err :: rest.
Proof.
  intros H E. induction H as [|x pre Hx Hpre IH]; simpl.
  - unfold sent. simpl. rewrite E. simpl. eauto.
  - unfold sent in *. simpl. rewrite Hx. simpl. exact IH.
Qed.

(** X18. [uploadFiles] reports one error only: the error of the first
    entry that was finished with an error, prefixed with "worker error: ";
    the errors of the entries finished later are dropped. *)
Theorem uploadFiles_reports_first_error
  (sched : list nat) (files : list FileInfo) (base : path) (s : Syncer R)
  (pre post : list Finished) (d : Finished) (err : error) :
  let pl := run_pool host base sched (start_pool files s) in
  forallb exited (threads pl) = true ->
  done pl = (pre ++ d :: post)%list ->
  Forall (fun d => job_result d = None) pre ->
  job_result d = Some err ->
  uploadFiles host sched files base s = Some (sess pl, Some ("worker error: " ++ err)).
Proof.
  intros pl Ex Dn Hpre E.
  destruct (run_pool_books host base sched files s) as (_ & Er & _).
  fold pl in Er. rewrite Dn in Er.
  destruct (sent_first pre post d err Hpre E) as [rest Q]. rewrite Q in Er.
  unfold uploadFiles. fold pl. rewrite Ex, Er. reflexivity.
Qed.

(** With one worker the finished entries, the entry in the loop body and
    the queue are the input, in order. *)
Definition in_order (files : list FileInfo) (pl : pool R) : Prop :=
  exists w, threads pl = [w] /\
            files = (map job_file (done pl) ++ running [w] ++ jobs pl)%list.

Lemma worker_in_order (base : path) (files : list FileInfo) (i : nat) (pl : pool R) :
  in_order files pl -> in_order files (worker host base i pl).
Proof.
  intros (w & T & F). unfold worker. rewrite T.
  destruct i as [|i]; simpl; [|destruct i; exists w; auto].
  destruct w as [|f [r|X e k] h|].
  - destruct (jobs pl) as [|f q] eqn:J; simpl.
    + exists Exited. rewrite ?T. simpl. split; [reflexivity|].
      rewrite F. simpl. reflexivity.
    + eexists. rewrite ?T. simpl. split; [reflexivity|].
      rewrite F. simpl. reflexivity.
  - exists Idle. rewrite ?T. simpl. split; [reflexivity|].
    rewrite F, map_app. simpl. rewrite <- app_assoc. reflexivity.
  - eexists. rewrite ?T. simpl. split; [reflexivity|]. exact F.
  - exists Exited. auto.
Qed.

(** X19. With exactly one worker the entries are finished in the order of
    the input: when the worker has returned, the finished entries are the
    input list itself. *)
Theorem single_worker_in_order
  (sched : list nat) (files : list FileInfo) (base : path) (s : Syncer R) :
  workers s = 1 ->
  let pl := run_pool host base sched (start_pool files s) in
  forallb exited (threads pl) = true ->
  map job_file (done pl) = files.
Proof.
  intros W pl Ex.
  assert (I : in_order files pl).
  { apply run_pool_ind; [intros i p; apply worker_in_order|].
    exists Idle. unfold start_pool. rewrite W. simpl. auto. }
  destruct I as (w & T & F). rewrite T in Ex. simpl in Ex.
  destruct w; try discriminate.
  destruct (run_pool_books host base sched files s) as (_ & _ & Xj).
  fold pl in Xj. rewrite T in Xj.
  rewrite Xj in F by (constructor; reflexivity).
  simpl in F. rewrite app_nil_r in F. symmetry. exact F.
Qed.

(** Nothing to upload: the workers only wait and return. *)
Definition at_rest (s : Syncer R) (pl : pool R) : Prop :=
  sess pl = s /\ jobs pl = [] /\ errors pl = [] /\
  Forall (fun w => w = Idle \/ w = Exited) (threads pl).

Lemma worker_at_rest (base : path) (s : Syncer R) (i : nat) (pl : pool R) :
  at_rest s pl -> at_rest s (worker host base i pl).
Proof.
  intros (S & J & E & T). unfold worker.
  destruct (nth_error (threads pl) i) as [w|] eqn:N; [|repeat split; assumption].
  pose proof (Forall_nth_error _ _ _ _ T N) as [-> | ->].
  - rewrite J. repeat split; simpl; auto. apply Forall_upd; auto.
  - repeat split; assumption.
Qed.

(** X20. With no entry to upload, [uploadFiles] makes no remote call,
    leaves the Syncer as it is and returns no error, for every number of
    workers and every schedule that lets the workers return. *)
Theorem uploadFiles_no_entries
  (sched : list nat) (base : path) (s s' : Syncer R) (r : option error) :
  uploadFiles host sched [] base s = Some (s', r) -> s' = s /\ r = None.
Proof.
  intros U. apply uploadFiles_inv in U as (_ & -> & ->).
  assert (A : at_rest s (run_pool host base sched (start_pool [] s))).
  { apply run_pool_ind; [intros i p; apply worker_at_rest|].
    repeat split. simpl. apply Forall_forall. intros w Hw.
    apply repeat_spec in Hw. auto. }
  destruct A as (S & _ & E & _). rewrite S, E. auto.
Qed.

Lemma staged_full_op (temp target : path) (op : Op) :
  staged temp op -> full_op (Format host) target temp op.
Proof.
  destruct op; simpl; tauto.
Qed.

Lemma fullSync_swap_safe (target temp : path) :
  safe (on_remote (full_op (Format host) target temp))
       (fullSync_swap host target temp).
Proof.
  unfold fullSync_swap, fullSync_backup, fullSync_commit.
  cbn -[add_suffix String.append].
  split; [exact I|]. intros t. split; [exact I|]. intros _.
  split; [left; reflexivity|].
  assert (Bk : exists t0, add_suffix target (".bak_" ++ Format host t)
                          = add_suffix target (".bak_" ++ Format host t0))
    by (exists t; reflexivity).
  intros [e|]; cbn -[add_suffix String.append].
  - split; [exact I|]. intros _. split; [left; auto|].
    intros [e1|]; cbn -[add_suffix String.append].
    + split; [right; exact Bk|].
      intros [e2|]; cbn -[add_suffix String.append]; [exact I|].
      split; [right; exists t; right; auto|]. intros [e3|]; exact I.
    + split; [right; exact Bk|].
      intros [e2|]; cbn -[add_suffix String.append]; [exact I|].
      split; [exact I|]. intros _. split; [right; exact Bk|].
      intros [e3|]; cbn; auto.
  - split; [right; exists t; left; auto|].
    intros [e0|]; cbn -[add_suffix String.append]; [exact I|].
    split; [exact I|]. intros _. split; [left; auto|].
    intros [e1|]; cbn -[add_suffix String.append].
    + split; [right; exact Bk|].
      intros [e2|]; cbn -[add_suffix String.append]; [exact I|].
      split; [right; exists t; right; auto|]. intros [e3|]; exact I.
    + split; [right; exact Bk|].
      intros [e2|]; cbn -[add_suffix String.append]; [exact I|].
      split; [exact I|]. intros _. split; [right; exact Bk|].
      intros [e3|]; cbn; auto.
Qed.

(** X21. Whatever [fullSync] returns, the remote calls it has made stay
    within the protocol: files are created, written and given mode and
    times only below the temporary directory (a sibling of the target whose
    name starts with ".sync_tmp_"), never at the target; the only renames
    are target to backup, temporary directory to target and backup to
    target; the only removals are of the temporary directory and of the
    backup. *)
Theorem fullSync_footprint (sched : list nat) (s s' : Syncer R) (r : option error) :
  fullSync host sched s = Some (s', r) ->
  let temp := Join (Dir (remotePath s))
                   [".sync_tmp_" ++ Format host (time_Now host (clock s))] in
  exists new,
    calls s' = (calls s ++ new)%list /\
    Forall (fun c => full_op (Format host) (remotePath s) temp (fst c)) new.
Proof.
  intros H temp.
  set (Pop := full_op (Format host) (remotePath s) temp).
  assert (SK : forall op (c : R) (q : path), Pop op -> False ->
                 lookup c q = lookup (client s) q ->
                 lookup (fst (exec op c)) q = lookup (client s) q)
    by (intros; contradiction).
  assert (K : kept Pop (fun _ => False) (client s) (calls s) s');
    [|destruct K as [K _]; exact K].
  destruct (walk_result (Walk host) []) as [e|files] eqn:W.
  - destruct (run_begin host "Performing full synchronization..." s)
      as (l1 & E1 & E2).
    rewrite W in E2. unfold fullSync, fullSync_begin in H. cbv zeta in H.
    rewrite E2, E1 in H. inversion H; subst. split.
    + exists []. rewrite app_nil_r. split; [reflexivity | constructor].
    + intros q [].
  - destruct (fullSync_begin_spec host s files W) as [l B]. cbv zeta in B.
    fold temp in B. set (s3 := set_client _ _ _) in B.
    assert (K3 : kept Pop (fun _ => False) (client s) (calls s) s3).
    { split; [|intros q []].
      eexists. split; [reflexivity|]. constructor; [|constructor].
      unfold Pop; simpl. right. apply is_prefix_refl. }
    unfold fullSync in H. rewrite B in H.
    destruct (snd (exec (MkdirAll temp) (client s))).
    { inversion H; subst. destruct K3 as [A _]. split; [exact A | intros q []]. }
    unfold fullSync_run in H.
    destruct (uploadFiles host sched files temp s3) as [[s1 r1]|] eqn:U;
      [|discriminate].
    assert (K1 : kept Pop (fun _ => False) (client s) (calls s) s1).
    { apply uploadFiles_inv in U as (_ & -> & _).
      apply (run_pool_guarded host Pop _ (client s) (calls s) SK); [exact K3|].
      intros f _. eapply safe_weaken; [|apply job_safe].
      apply on_remote_weaken. intros op Hop.
      apply staged_full_op, job_op_staged with (f := f), Hop. }
    assert (Df : forall s2, kept Pop (fun _ => False) (client s) (calls s) s2 ->
                 kept Pop (fun _ => False) (client s) (calls s)
                      (fullSync_defer host temp s2)).
    { intros s2 K2.
      pose proof (run_kept host Pop _ (client s) (calls s) SK _ s2
                    (safe_weaken _ _ _
                       (on_remote_weaken _ _ (staged_full_op temp (remotePath s)))
                       (fullSync_defer_safe temp)) K2) as [A _].
      split; [exact A | intros q []]. }
    destruct r1 as [e|].
    + inversion H; subst. apply Df, K1.
    + destruct (run host (fullSync_swap host (remotePath s3) temp) s1)
        as [s4 r4] eqn:Sw.
      inversion H; subst. apply Df.
      replace s4 with (fst (run host (fullSync_swap host (remotePath s3) temp) s1))
        by (rewrite Sw; reflexivity).
      apply (run_kept host Pop _ (client s) (calls s) SK); [|exact K1].
      apply (fullSync_swap_safe (remotePath s) temp).
Qed.

End WholePool.

(** ** The entries and the calls the server has seen *)

Section Attempted.

Context {R : Type} {port : RemotePort R}.
Variable host : Host.
Variable base : path.

(** Every remote call in the events of an entry is among the calls of the
    Syncer, with the same answer. *)
Definition thread_logged (cs : list (Op * option error)) (w : wstate) : Prop :=
  match w with
  | Running _ _ h => incl (remote_calls h) cs
  | _ => True
  end.

Definition logged (pl : pool R) : Prop :=
  Forall (thread_logged (calls (sess pl))) (threads pl) /\
  Forall (fun d => incl (remote_calls (job_events d)) (calls (sess pl))) (done pl).

Lemma perform_calls_grow {X : Type} (e : action X) (s : Syncer R) :
  incl (calls s) (calls (fst (perform host e s))) /\
  incl (ev_call (Ev e (snd (perform host e s)))) (calls (fst (perform host e s))).
Proof.
  destruct e as [op| |n|l msg]; simpl; split;
    try apply incl_refl; try apply incl_nil_l.
  - apply incl_appl, incl_refl.
  - apply incl_appr, incl_refl.
Qed.

Lemma worker_logged (i : nat) (pl : pool R) :
  logged pl -> logged (worker host base i pl).
Proof.
  intros [T D]. unfold worker.
  destruct (nth_error (threads pl) i) as [[|f p h|]|] eqn:E; try (split; assumption).
  - destruct (jobs pl) as [|f q]; split; simpl; auto; apply Forall_upd; simpl; auto.
    intros c [].
  - pose proof (Forall_nth_error _ _ _ _ T E) as W. simpl in W.
    destruct p as [r | X e k]; split; simpl.
    + apply Forall_upd; simpl; auto.
    + apply Forall_app; split; [assumption|]. constructor; [exact W | constructor].
    + destruct (perform_calls_grow e (sess pl)) as [G N].
      apply Forall_upd.
      * eapply Forall_impl; [|exact T]. intros [|f' p' h'|]; simpl; auto.
        intros Hh. exact (incl_tran Hh G).
      * unfold thread_logged, remote_calls. cbn [flat_map].
        apply incl_app; [exact N | exact (incl_tran W G)].
    + destruct (perform_calls_grow e (sess pl)) as [G _].
      eapply Forall_impl; [|exact D]. intros d Hd.
      exact (incl_tran Hd G).
Qed.

Lemma run_pool_logged (sched : list nat) (files : list FileInfo) (s : Syncer R) :
  logged (run_pool host base sched (start_pool files s)).
Proof.
  apply run_pool_ind; [apply worker_logged|].
  split; simpl; [|constructor].
  apply Forall_forall. intros w Hw. apply repeat_spec in Hw; subst; exact I.
Qed.

Lemma all_finished (sched : list nat) (files : list FileInfo) (s : Syncer R) :
  0 < workers s ->
  let pl := run_pool host base sched (start_pool files s) in
  forallb exited (threads pl) = true ->
  Permutation files (map job_file (done pl)).
Proof.
  intros W pl Ex.
  destruct (run_pool_books host base sched files s) as (Pm & _ & Xj).
  fold pl in Pm, Xj.
  assert (Jn : jobs pl = []).
  { apply Xj.
    assert (L : List.length (threads pl) = Z.to_nat (workers s)).
    { unfold pl. rewrite run_pool_threads_length. simpl. apply repeat_length. }
    destruct (threads pl) as [|w l] eqn:T; [simpl in L; lia|].
    simpl in Ex. apply andb_true_iff in Ex as [Ex _].
    constructor. destruct w; try discriminate; reflexivity. }
  rewrite Jn, (exited_running _ Ex) in Pm. simpl in Pm.
  rewrite app_nil_r in Pm. exact Pm.
Qed.

Lemma job_first_call (f : FileInfo) (h : list event) (r : option error) :
  complete_run (job host base f) h r ->
  (IsDir f = true ->
   exists x, In (MkdirAll (Join base (RelPath f)), x) (remote_calls h)) /\
  (IsDir f = false ->
   forall lf, os_Open host (Path f) = inr lf ->
   exists x, In (MkdirAll (Dir (Join base (RelPath f))), x) (remote_calls h)).
Proof.
  intros T. unfold job in T. destruct (IsDir f) eqn:D.
  - split; [|discriminate]. intros _. simpl in T.
    destruct T as ([] & h1 & -> & x & h2 & -> & _). exists x. simpl. auto.
  - split; [discriminate|]. intros _ lf O.
    apply complete_run_bind in T as (h1 & h2 & a & -> & H1 & _).
    unfold uploadFile in H1.
    apply complete_run_bind in H1 as (h11 & h12 & a' & -> & Hc & _).
    unfold copyContent in Hc. rewrite O in Hc. simpl in Hc.
    destruct Hc as (x & h3 & -> & _). exists x. simpl. auto.
Qed.

(** X22. With at least one worker no entry is left out: when [uploadFiles]
    returns, the server has been asked, for every directory entry, to make
    its remote directory, and for every file entry that could be opened, to
    make the directory of its remote path, whatever failed for the other
    entries and under every schedule. *)
Theorem every_entry_attempted
  (sched : list nat) (files : list FileInfo) (s s' : Syncer R) (r : option error)
  (f : FileInfo) :
  0 < workers s ->
  uploadFiles host sched files base s = Some (s', r) ->
  In f files ->
  (IsDir f = true ->
   exists x, In (MkdirAll (Join base (RelPath f)), x) (calls s')) /\
  (IsDir f = false ->
   forall lf, os_Open host (Path f) = inr lf ->
   exists x, In (MkdirAll (Dir (Join base (RelPath f))), x) (calls s')).
Proof.
  intros W U Hf. apply uploadFiles_inv in U as (Ex & -> & _).
  pose proof (all_finished sched files s W Ex) as Pm.
  apply (Permutation_in _ Pm) in Hf. apply in_map_iff in Hf as (d & <- & Hd).
  destruct (run_pool_logged sched files s) as [_ L].
  rewrite Forall_forall in L. specialize (L d Hd).
  destruct (run_pool_traced host base sched files s) as [_ T].
  rewrite Forall_forall in T. specialize (T d Hd). unfold done_traced in T.
  destruct (job_first_call _ _ _ T) as [A B].
  assert (Rv : forall c, In c (remote_calls (rev (job_events d))) ->
                         In c (remote_calls (job_events d))).
  { intros c Hc. unfold remote_calls in *. apply in_flat_map in Hc as (ev & He & Hc).
    apply in_flat_map. exists ev. split; [apply in_rev; exact He | exact Hc]. }
  split.
  - intros D. destruct (A D) as [x Hx]. exists x. apply L, Rv, Hx.
  - intros D lf O. destruct (B D lf O) as [x Hx]. exists x. apply L, Rv, Hx.
Qed.

End Attempted.

(** ** The progress bar and the counter *)

Section Progress.

Context {R : Type} {port : RemotePort R}.
Variable host : Host.

(** [incrementalSync] from the upload on, in terms of the Syncer it hands
    to [uploadFiles]. *)
Lemma incrementalSync_started (sched : list nat) (s : Syncer R)
  (files : list FileInfo) :
  walk_result (Walk host) [] = inr files ->
  let s2 := started host s in
  bar_tracks (sum_sizes files) (syncedSize s) s2 /\
  syncedSize s2 = syncedSize s /\
  workers s2 = workers s /\
  incrementalSync host sched s
  = match snd (exec (MkdirAll (remotePath s)) (client s)) with
    | Some err =>
        Some (bar_Finish s2, Some ("failed to create remote directory: " ++ err))
    | None =>
        match uploadFiles host sched files (remotePath s) s2 with
        | None => None
        | Some (s3, Some err) =>
            Some (bar_Finish s3, Some ("failed to upload files: " ++ err))
        | Some (s3, None) => Some (bar_Finish s3, None)
        end
    end.
Proof.
  intros W s2.
  destruct (run_begin host "Performing incremental synchronization..." s)
    as (l & E1 & E2).
  rewrite W in E2.
  assert (E : s2 = fst (run host (call (Remote (MkdirAll (remotePath s))))
                            (start_progress files (set_logger l s)))).
  { unfold s2, started, local_entries. rewrite W, E1. reflexivity. }
  split; [|split; [|split]].
  - rewrite E.
    apply (run_inv host (bar_tracks (sum_sizes files) (syncedSize s))).
    + intros X e0 s0. apply perform_bar_tracks.
    + apply (start_progress_tracks files (set_logger l s)).
  - rewrite E. reflexivity.
  - rewrite E. reflexivity.
  - unfold incrementalSync. cbv zeta. rewrite E2. cbv beta iota. rewrite E1.
    rewrite <- E. rewrite run_remote. cbn [snd].
    change (client (start_progress files (set_logger l s))) with (client s).
    destruct (snd (exec (MkdirAll (remotePath s)) (client s))); reflexivity.
Qed.

(** X23. While the workers run, under every schedule and at every moment:
    the progress bar stays started and unfinished with its total, and the
    counter is the last value the bar was given (or still the counter the
    upload started with, when the bar was given none). *)
Theorem bar_follows_counter
  (sched : list nat) (files : list FileInfo) (base : path) (s : Syncer R)
  (total c0 : Z) :
  bar_tracks total c0 s ->
  bar_tracks total c0 (sess (run_pool host base sched (start_pool files s))).
Proof.
  intros B. apply (run_pool_inv host (bar_tracks total c0)); [|exact B].
  intros X e s0. apply perform_bar_tracks.
Qed.

(** X24. A successful incremental synchronisation ends at 100 percent:
    when the counter starts at zero, there is at least one worker, every
    local file yields as many bytes as its recorded size and the sizes sum
    up to less than [2^63], the counter, the total of the Syncer and the
    total of the finished bar are all the sum of the sizes of the file
    entries, and that sum is the value the bar shows. *)
Theorem incrementalSync_full_progress
  (sched : list nat) (s s' : Syncer R) (files : list FileInfo) :
  syncedSize s = 0 ->
  0 < workers s ->
  walk_result (Walk host) [] = inr files ->
  (forall f lf, In f files -> os_Open host (Path f) = inr lf ->
                file_bytes lf = Size f) ->
  sizes files < 2 ^ 63 ->
  incrementalSync host sched s = Some (s', None) ->
  syncedSize s' = sizes files /\
  totalSize s' = sizes files /\
  exists b, bar s' = Some b /\ bar_total b = sizes files /\
            bar_finished b = true /\ hd 0 (bar_current b) = sizes files.
Proof.
  intros Z0 Wk W Sz Small H.
  destruct (incrementalSync_started sched s files W) as (B2 & Z2 & W2 & E).
  rewrite E in H. clear E.
  destruct (snd (exec (MkdirAll (remotePath s)) (client s))); [discriminate|].
  set (s2 := started host s) in *.
  destruct (uploadFiles host sched files (remotePath s) s2) as [[s3 [e|]]|] eqn:U;
    try discriminate.
  inversion H; subst s'. clear H.
  apply uploadFiles_inv in U as (Ex & -> & Er).
  set (pl := run_pool host (remotePath s) sched (start_pool files s2)) in *.
  assert (En : errors pl = []) by (destruct (errors pl); [reflexivity | discriminate]).
  rewrite Z0 in Z2. rewrite <- W2 in Wk.
  destruct (start_counting files s2 Z2) as [C0 P0].
  destruct (run_pool_counting host (remotePath s) sched _ C0) as [[S3 _] M].
  fold pl in S3, M. rewrite P0 in M.
  pose proof (exited_total host (remotePath s) sched files s2 Ex) as Pc.
  fold pl in Pc. rewrite Pc in S3, M.
  destruct (finished_sizes host (remotePath s) sched files s2 Ex Sz) as (_ & _ & T).
  fold pl in T. rewrite (T Wk En) in S3, M.
  rewrite wrap64_small in S3 by lia.
  assert (B3 : bar_tracks (sum_sizes files) (syncedSize s) (sess pl)).
  { apply (run_pool_inv host (bar_tracks (sum_sizes files) (syncedSize s)));
      [|exact B2].
    intros X e s0. apply perform_bar_tracks. }
  apply bar_Finish_closed in B3. destruct B3 as (Tt & b & Bb & Bt & Bf & Bc).
  assert (Sm : sum_sizes files = sizes files).
  { unfold sum_sizes. change 0 with (wrap64 0) at 1.
    rewrite sum_sizes_from. apply wrap64_small. lia. }
  rewrite Sm in Tt, Bt. rewrite Z0 in Bc.
  change (syncedSize (bar_Finish (sess pl))) with (syncedSize (sess pl)) in *.
  rewrite S3 in Bc.
  split; [exact S3|]. split; [exact Tt|].
  exists b. auto.
Qed.

End Progress.

(** * Concrete runs *)

(** C1 (the code differs). The server already holds [a.txt] with the size
    and the modification time of the local file; an incremental
    synchronisation never asks the server for it ([Stat] is not called) and
    uploads the file all the same: it is created again, its 10 bytes are
    written and counted. *)
Theorem incrementalSync_uploads_unchanged_file :
  lookup ex_server ["srv"; "www"; "a.txt"]
  = Some (NFile (ex_bytes 10) 420 1500 (ModTime ex_a)) /\
  Z.of_nat (List.length (ex_bytes 10)) = Size ex_a /\
  local_entries ex_host = [ex_a] /\
  option_map (fun r => (snd r, calls (fst r), syncedSize (fst r)))
             (incrementalSync ex_host ex_sched (ex_syncer ex_server "incremental" 1))
  = Some (None,
          [(MkdirAll ["srv"; "www"], None);
           (MkdirAll ["srv"; "www"], None);
           (Create ["srv"; "www"; "a.txt"], None);
           (Write ["srv"; "www"; "a.txt"] (ex_bytes 6), None);
           (Write ["srv"; "www"; "a.txt"] (ex_bytes 4), None);
           (Chmod ["srv"; "www"; "a.txt"] 420, None);
           (Chtimes ["srv"; "www"; "a.txt"] 2000 1000, None)],
          10).
Proof. repeat split; vm_compute; reflexivity. Qed.

(** C2 (the code differs). Two incremental synchronisations in
    succession, nothing changing in between: the second one, run by a new
    Syncer on the server as the first one left it, succeeds but writes the
    10 bytes of [a.txt] again. *)
Theorem incrementalSync_twice_uploads_again :
  let first := incrementalSync ex_host ex_sched (ex_syncer ex_server "incremental" 1) in
  let second := incrementalSync ex_host ex_sched
                  (ex_syncer (client (state_of first)) "incremental" 1) in
  option_map snd first = Some None /\
  lookup (client (state_of first)) ["srv"; "www"; "a.txt"]
  = Some (NFile (ex_bytes 10) 420 2000 (ModTime ex_a)) /\
  option_map (fun r => (snd r, syncedSize (fst r))) second = Some (None, 10) /\
  filter (fun c => match fst c with Write _ _ => true | _ => false end)
         (calls (state_of second))
  = [(Write ["srv"; "www"; "a.txt"] (ex_bytes 6), None);
     (Write ["srv"; "www"; "a.txt"] (ex_bytes 4), None)].
Proof. repeat split; vm_compute; reflexivity. Qed.

(** C8, counterexample. Two workers upload [a.txt], [sub] and [sub/b.txt]
    in an incremental synchronisation; the second chunk of [a.txt] fails to
    be written. The workers return, [b.txt] is the only uploaded file
    entry, and yet the counter stands at 11: the 5 bytes of [b.txt] and the
    6 bytes of the first chunk of [a.txt]. That is neither the sum of the
    sizes of the uploaded file entries (5) nor that of all file entries
    (15); [Sync] returns with this counter, which it has shown on the
    progress bar. *)
Lemma counter_counts_failed_file :
  let s0 := ex_syncer (ex_faulty [5%nat] "connection lost") "incremental" 2 in
  let files := [ex_a; ex_sub; ex_b] in
  let s := started ex_host_sub s0 in
  let pl := run_pool ex_host_sub ex_target ex_turns (start_pool files s) in
  local_entries ex_host_sub = files /\
  bar s = Some (bar_Start64 15) /\
  syncedSize s = 0 /\
  forallb exited (threads pl) = true /\
  map (fun d => (job_file d, job_result d)) (done pl)
  = [(ex_sub, None);
     (ex_a, Some "failed to upload file a.txt: failed to write to remote file: connection lost");
     (ex_b, None)] /\
  uploaded (done pl) = [ex_b] /\
  sizes (uploaded (done pl)) = 5 /\
  sizes files = 15 /\
  syncedSize (sess pl) = 11 /\
  option_map (fun r => (snd r, syncedSize (fst r), option_map bar_current (bar (fst r))))
             (Sync ex_host_sub ex_turns s0)
  = Some (Some "failed to upload files: worker error: failed to upload file a.txt: failed to write to remote file: connection lost",
          11, Some [11; 6]).
Proof. repeat split; vm_compute; reflexivity. Qed.

(** ** The theorems at concrete inputs *)


Lemma uploadFile_metadata_best_effort_witness :
  let s := started ex_host
             (ex_syncer (ex_faulty [5%nat; 6%nat] "permission denied") "incremental" 1) in
  snd (run ex_host (copyContent ex_host ex_a ex_target) s) = None /\
  snd (run ex_host (uploadFile ex_host ex_a ex_target) s) = None /\
  In (Warn, "Failed to set permissions for srv/www/a.txt: permission denied")
     (logger (fst (run ex_host (uploadFile ex_host ex_a ex_target) s))).
Proof.
  intros s.
  assert (H : snd (run ex_host (copyContent ex_host ex_a ex_target) s) = None)
    by (vm_compute; reflexivity).
  destruct (uploadFile_metadata_best_effort ex_host ex_a ex_target s H)
    as (A & _ & _ & B & _).
  split; [exact H|]. split; [exact A|].
  apply (B "permission denied"). vm_compute; reflexivity.
Defined.

Lemma uploadFile_mode_and_times_witness :
  let s := started ex_host (ex_syncer ex_server "incremental" 1) in
  snd (run ex_host (uploadFile ex_host ex_a ex_target) s) = None /\
  lookup (client (fst (run ex_host (uploadFile ex_host ex_a ex_target) s)))
         ["srv"; "www"; "a.txt"]
  = Some (NFile (ex_bytes 10) 420 2000 1000).
Proof.
  intros s.
  assert (H : snd (run ex_host (uploadFile ex_host ex_a ex_target) s) = None)
    by (vm_compute; reflexivity).
  destruct (uploadFile_mode_and_times ex_host ex_a ex_target s H) as (_ & B & _).
  split; [exact H|].
  apply (B (ex_bytes 10) 420 1500 1000); vm_compute; reflexivity.
Defined.

Lemma fullSync_upload_failure_witness :
  let s := ex_syncer (ex_faulty [4%nat] "connection lost") "full" 1 in
  let s2 := state_of (uploadFiles ex_host ex_sched [ex_a] ex_temp
                        (fst (fullSync_begin ex_host s))) in
  snd (fullSync_begin ex_host s) = inr ([ex_a], ex_temp) /\
  fullSync ex_host ex_sched s
  = Some (fullSync_defer ex_host ex_temp s2,
          Some "failed to upload files: worker error: failed to upload file a.txt: failed to write to remote file: connection lost") /\
  lookup (client (fullSync_defer ex_host ex_temp s2)) ["srv"; "www"; "a.txt"]
  = lookup (client s) ["srv"; "www"; "a.txt"].
Proof.
  intros s s2.
  assert (B : snd (fullSync_begin ex_host s) = inr ([ex_a], ex_temp))
    by (vm_compute; reflexivity).
  assert (U : uploadFiles ex_host ex_sched [ex_a] ex_temp
                (fst (fullSync_begin ex_host s))
              = Some (s2, Some "worker error: failed to upload file a.txt: failed to write to remote file: connection lost"))
    by (vm_compute; reflexivity).
  destruct (fullSync_upload_failure ex_host ex_sched s s2 [ex_a] ex_temp _ B U)
    as (A & _ & _ & D).
  split; [exact B|]. split; [exact A|].
  apply D; vm_compute; reflexivity.
Defined.

Lemma fullSync_swap_rollback_witness :
  let s := ex_syncer (ex_faulty [9%nat; 11%nat] "permission denied") "full" 1 in
  snd (fullSync_begin ex_host s) = inr ([ex_a], ex_temp) /\
  option_map snd (fullSync ex_host ex_sched s)
  = Some (Some "sync failed and restore failed: permission denied, restore error: permission denied").
Proof.
  intros s.
  assert (B : snd (fullSync_begin ex_host s) = inr ([ex_a], ex_temp))
    by (vm_compute; reflexivity).
  set (s1 := state_of (uploadFiles ex_host ex_sched [ex_a] ex_temp
                         (fst (fullSync_begin ex_host s)))).
  assert (U : uploadFiles ex_host ex_sched [ex_a] ex_temp
                (fst (fullSync_begin ex_host s)) = Some (s1, None))
    by (vm_compute; reflexivity).
  destruct (fullSync_swap_rollback ex_host ex_sched s s1 [ex_a] ex_temp
              "permission denied" B U) as (s' & A & _);
    try (vm_compute; reflexivity).
  split; [exact B|]. rewrite A. vm_compute. reflexivity.
Defined.

Lemma incrementalSync_additive_witness :
  let s := ex_syncer ex_server "incremental" 1 in
  let s' := state_of (incrementalSync ex_host ex_sched s) in
  incrementalSync ex_host ex_sched s = Some (s', None) /\
  lookup (client s') ["srv"; "www"; "old.txt"] = Some (NFile (ex_bytes 3) 420 1 2).
Proof.
  intros s s'.
  assert (H : incrementalSync ex_host ex_sched s = Some (s', None))
    by (vm_compute; reflexivity).
  destruct (incrementalSync_additive ex_host ex_sched s s' None H) as [_ K].
  split; [exact H|].
  apply K; [vm_compute; reflexivity|].
  intros f Hf _. vm_compute in Hf. destruct Hf as [<- | []].
  vm_compute. discriminate.
Defined.

Lemma uploadFiles_collects_errors_witness :
  let s := started ex_host_denied (ex_syncer ex_server "incremental" 2) in
  let sched := ex_turns in
  let pl := run_pool ex_host_denied ex_target sched
              (start_pool [ex_a; ex_sub; ex_b] s) in
  forallb exited (threads pl) = true /\
  errors pl = sent (done pl) /\
  Permutation [ex_a; ex_sub; ex_b] (map job_file (done pl)).
Proof.
  intros s sched pl.
  assert (H : forallb exited (threads pl) = true) by (vm_compute; reflexivity).
  destruct (uploadFiles_collects_errors ex_host_denied sched [ex_a; ex_sub; ex_b]
              ex_target s H) as (A & B & _).
  split; [exact H|]. split; [exact A|].
  apply B. reflexivity.
Defined.

Lemma uploadFiles_counts_written_bytes_witness :
  let s := started ex_host_sub (ex_syncer ex_server "incremental" 2) in
  let files := [ex_a; ex_sub; ex_b] in
  let sched1 := firstn 9 ex_turns in
  let sched2 := firstn 9 (skipn 9 ex_turns) in
  let sched3 := skipn 18 ex_turns in
  let pl1 := run_pool ex_host_sub ex_target sched1 (start_pool files s) in
  let pl2 := run_pool ex_host_sub ex_target (sched1 ++ sched2) (start_pool files s) in
  let pl := run_pool ex_host_sub ex_target (sched1 ++ sched2 ++ sched3)
              (start_pool files s) in
  bar s = Some (bar_Start64 15) /\
  syncedSize s = 0 /\
  forallb exited (threads pl) = true /\
  syncedSize (sess pl) = total_written (done pl) /\
  syncedSize (sess pl1) <= syncedSize (sess pl2) <= syncedSize (sess pl) /\
  total_written (done pl) = sizes files.
Proof.
  intros s files sched1 sched2 sched3 pl1 pl2 pl.
  assert (Z0 : syncedSize s = 0) by (vm_compute; reflexivity).
  assert (H : forallb exited (threads pl) = true) by (vm_compute; reflexivity).
  destruct (uploadFiles_counts_written_bytes ex_host_sub ex_target
              sched1 sched2 sched3 files s Z0 H)
    as (_ & _ & _ & M & T & _).
  assert (Small : total_written (done pl) < 2 ^ 63) by (vm_compute; reflexivity).
  destruct (M Small) as (M0 & _ & M1 & M2).
  split; [vm_compute; reflexivity|].
  split; [exact Z0|]. split; [exact H|]. split; [exact M0|].
  split; [split; [exact M1 | exact M2]|].
  apply T; [| vm_compute; reflexivity | vm_compute; reflexivity].
  intros f lf [<- | [<- | [<- | []]]] O; vm_compute in O; inversion O; reflexivity.
Defined.

(** ** The further properties at concrete inputs *)

Lemma collectLocalFiles_entries_witness :
  let s := ex_syncer ex_server "full" 2 in
  snd (run ex_host_sub (collectLocalFiles ex_host_sub s) s) = inr [ex_a; ex_sub; ex_b].
Proof.
  intros s.
  assert (H : Forall (fun v => visit_error v = None) (Walk ex_host_sub))
    by (repeat constructor).
  exact (proj1 (collectLocalFiles_entries ex_host_sub s s H)).
Defined.

Lemma collectLocalFiles_first_error_witness :
  let s := ex_syncer ex_server "full" 1 in
  snd (run ex_host_bad (collectLocalFiles ex_host_bad s) s)
  = inl "failed to walk local directory: permission denied".
Proof.
  intros s.
  apply (collectLocalFiles_first_error ex_host_bad s s
           [mkVisit ["home"; "site"] (inr []) 4096 900 true None]
           [mkVisit ["home"; "site"; "a.txt"] (inr ["a.txt"]) 10 1000 false None]
           (mkVisit ["home"; "site"; "private"] (inr ["private"]) 0 0 true
                    (Some "permission denied"))
           "permission denied").
  - reflexivity.
  - repeat constructor.
  - reflexivity.
Defined.

Lemma Sync_walk_error_witness :
  let s := ex_syncer ex_server "full" 1 in
  walk_result (Walk ex_host_bad) [] = inl "permission denied" /\
  option_map (fun o => (snd o, calls (fst o), bar (fst o)))
             (fullSync ex_host_bad ex_sched s)
  = Some (Some "failed to collect local files: failed to walk local directory: permission denied",
          [], None).
Proof.
  intros s.
  assert (W : walk_result (Walk ex_host_bad) [] = inl "permission denied")
    by reflexivity.
  destruct (Sync_walk_error ex_host_bad ex_sched s "permission denied" W)
    as (l1 & l2 & A & _).
  split; [exact W|]. rewrite A. reflexivity.
Defined.

Lemma fullSync_staging_failure_witness :
  let s := ex_syncer (ex_faulty [0%nat] "no space left") "full" 1 in
  snd (exec (MkdirAll ex_temp) (client s)) = Some "no space left" /\
  option_map snd (fullSync ex_host ex_sched s)
  = Some (Some "failed to create temporary directory: no space left").
Proof.
  intros s.
  assert (W : walk_result (Walk ex_host) [] = inr [ex_a]) by reflexivity.
  assert (E : snd (exec (MkdirAll ex_temp) (client s)) = Some "no space left")
    by (vm_compute; reflexivity).
  destruct (fullSync_staging_failure ex_host ex_sched s [ex_a] "no space left" W E)
    as (s' & A & _).
  split; [exact E|]. rewrite A. reflexivity.
Defined.

Lemma incrementalSync_base_failure_witness :
  let s := ex_syncer (ex_faulty [0%nat] "no space left") "incremental" 1 in
  snd (exec (MkdirAll ex_target) (client s)) = Some "no space left" /\
  option_map snd (incrementalSync ex_host ex_sched s)
  = Some (Some "failed to create remote directory: no space left").
Proof.
  intros s.
  assert (W : walk_result (Walk ex_host) [] = inr [ex_a]) by reflexivity.
  assert (E : snd (exec (MkdirAll ex_target) (client s)) = Some "no space left")
    by (vm_compute; reflexivity).
  destruct (incrementalSync_base_failure ex_host ex_sched s [ex_a] "no space left" W E)
    as (s' & A & _).
  split; [exact E|]. rewrite A. reflexivity.
Defined.

Lemma fullSync_always_cleans_up_witness :
  let s := ex_syncer (ex_faulty [4%nat] "connection lost") "full" 1 in
  let s' := state_of (fullSync ex_host ex_sched s) in
  option_map snd (fullSync ex_host ex_sched s)
  = Some (Some "failed to upload files: worker error: failed to upload file a.txt: failed to write to remote file: connection lost") /\
  bar_closed (sum_sizes [ex_a]) 0 s'.
Proof.
  intros s s'.
  assert (W : walk_result (Walk ex_host) [] = inr [ex_a]) by reflexivity.
  assert (E : snd (exec (MkdirAll ex_temp) (client s)) = None)
    by (vm_compute; reflexivity).
  assert (H : fullSync ex_host ex_sched s
              = Some (s', Some "failed to upload files: worker error: failed to upload file a.txt: failed to write to remote file: connection lost"))
    by (vm_compute; reflexivity).
  split; [rewrite H; reflexivity|].
  exact (proj2 (fullSync_always_cleans_up ex_host ex_sched s s' [ex_a] _ W E H)).
Defined.

Lemma incrementalSync_finishes_bar_witness :
  let s := ex_syncer ex_server "incremental" 2 in
  let files := [ex_a; ex_sub; ex_b] in
  let s' := state_of (incrementalSync ex_host_sub ex_turns s) in
  incrementalSync ex_host_sub ex_turns s = Some (s', None) /\
  bar_closed (sum_sizes files) 0 s'.
Proof.
  intros s files s'.
  assert (W : walk_result (Walk ex_host_sub) [] = inr files) by reflexivity.
  assert (H : incrementalSync ex_host_sub ex_turns s = Some (s', None))
    by (vm_compute; reflexivity).
  split; [exact H|].
  exact (incrementalSync_finishes_bar ex_host_sub ex_turns s s' files None W H).
Defined.

Lemma Sync_keeps_config_witness :
  let s := ex_syncer ex_server "full" 1 in
  let s' := state_of (Sync ex_host ex_sched s) in
  Sync ex_host ex_sched s = Some (s', None) /\ same_config s s'.
Proof.
  intros s s'.
  assert (H : Sync ex_host ex_sched s = Some (s', None)) by (vm_compute; reflexivity).
  split; [exact H|].
  exact (Sync_keeps_config ex_host ex_sched s s' None H).
Defined.


Lemma fullSync_backup_failure_witness :
  let s := after_upload ex_host ex_sched
             (ex_syncer (ex_faulty [8%nat] "permission denied") "full" 1) in
  snd (exec (Stat ex_target) (client s)) = None /\
  snd (run ex_host (fullSync_swap ex_host ex_target ex_temp) s)
  = Some "failed to create backup: permission denied".
Proof.
  intros s.
  assert (E1 : snd (exec (Stat ex_target) (client s)) = None)
    by (vm_compute; reflexivity).
  split; [exact E1|].
  apply (fullSync_backup_failure ex_host ex_target ex_temp s "permission denied" E1).
  vm_compute. reflexivity.
Defined.

Lemma fullSync_without_target_witness :
  let s := after_upload ex_host ex_sched (ex_syncer ex_fresh "full" 1) in
  snd (exec (Stat ex_target) (client s)) = Some "file does not exist" /\
  snd (run ex_host (fullSync_swap ex_host ex_target ex_temp) s) = None.
Proof.
  intros s.
  assert (E : snd (exec (Stat ex_target) (client s)) = Some "file does not exist")
    by (vm_compute; reflexivity).
  split; [exact E|].
  apply (fullSync_without_target ex_host ex_target ex_temp s _ E).
  vm_compute. reflexivity.
Defined.

Lemma fullSync_commit_success_witness :
  let s := fst (run ex_host (fullSync_backup ex_host ex_target)
                    (after_upload ex_host ex_sched (ex_syncer ex_server "full" 1))) in
  let out := run ex_host (fullSync_commit ex_target ex_temp ex_backup) s in
  snd (exec (Rename ex_temp ex_target) (client s)) = None /\
  snd out = None /\
  In (Warn, "Failed to remove backup directory: directory not empty")
     (logger (fst out)).
Proof.
  intros s out.
  assert (E : snd (exec (Rename ex_temp ex_target) (client s)) = None)
    by (vm_compute; reflexivity).
  destruct (fullSync_commit_success ex_host ex_target ex_temp ex_backup s E)
    as (A & _ & B).
  split; [exact E|]. split; [exact A|].
  apply (B "directory not empty"); vm_compute; reflexivity.
Defined.

Lemma fullSync_swap_failure_without_backup_witness :
  let s := fst (run ex_host (fullSync_backup ex_host ex_target)
                    (after_upload ex_host ex_sched
                       (ex_syncer (ex_faulty [9%nat; 10%nat] "permission denied")
                                  "full" 1))) in
  snd (run ex_host (fullSync_commit ex_target ex_temp ex_backup) s)
  = Some "failed to rename temporary directory: permission denied".
Proof.
  intros s.
  apply (fullSync_swap_failure_without_backup ex_host ex_target ex_temp
           ex_backup s "permission denied" "permission denied");
    vm_compute; reflexivity.
Defined.

Lemma upload_writes_content_witness :
  let s := started ex_host_sub (ex_syncer ex_server "incremental" 2) in
  let pl := run_pool ex_host_sub ex_target ex_turns
              (start_pool [ex_a; ex_sub; ex_b] s) in
  let d := nth_done 1 pl in
  job_file d = ex_a /\ job_result d = None /\
  written_data (remote_calls (rev (job_events d))) = ex_bytes 10.
Proof.
  intros s pl d.
  assert (Hd : In d (done pl)) by (vm_compute; right; left; reflexivity).
  assert (F : job_file d = ex_a) by (vm_compute; reflexivity).
  assert (D : IsDir (job_file d) = false) by (rewrite F; reflexivity).
  assert (Rn : job_result d = None) by (vm_compute; reflexivity).
  destruct (upload_writes_content ex_host_sub ex_target ex_turns
              [ex_a; ex_sub; ex_b] s d Hd D Rn)
    as (lf & writes & rest & O & _ & _ & _ & _ & W).
  split; [exact F|]. split; [exact Rn|].
  rewrite W. rewrite F in O. vm_compute in O. inversion O. reflexivity.
Defined.

Lemma failed_upload_stops_witness :
  let s := started ex_host_sub
             (ex_syncer (ex_faulty [5%nat] "connection lost") "incremental" 2) in
  let pl := run_pool ex_host_sub ex_target ex_turns
              (start_pool [ex_a; ex_sub; ex_b] s) in
  let d := nth_done 1 pl in
  job_result d
  = Some "failed to upload file a.txt: failed to write to remote file: connection lost" /\
  Forall succeeded (removelast (remote_calls (rev (job_events d)))) /\
  Forall (fun c => ~ sets_metadata c) (remote_calls (rev (job_events d))).
Proof.
  intros s pl d.
  assert (Hd : In d (done pl)) by (vm_compute; right; left; reflexivity).
  assert (D : IsDir (job_file d) = false) by (vm_compute; reflexivity).
  assert (Re : job_result d
               = Some "failed to upload file a.txt: failed to write to remote file: connection lost")
    by (vm_compute; reflexivity).
  split; [exact Re|].
  exact (proj2 (failed_upload_stops ex_host_sub ex_target ex_turns
                  [ex_a; ex_sub; ex_b] s d _ Hd D Re)).
Defined.

Lemma directory_entry_run_witness :
  let s := started ex_host_sub (ex_syncer ex_server "incremental" 2) in
  let pl := run_pool ex_host_sub ex_target ex_turns
              (start_pool [ex_a; ex_sub; ex_b] s) in
  let d := nth_done 0 pl in
  job_file d = ex_sub /\
  exists x, remote_calls (rev (job_events d))
            = [(MkdirAll ["srv"; "www"; "sub"], x)].
Proof.
  intros s pl d.
  assert (Hd : In d (done pl)) by (vm_compute; left; reflexivity).
  assert (D : IsDir (job_file d) = true) by (vm_compute; reflexivity).
  destruct (directory_entry_run ex_host_sub ex_target ex_turns
              [ex_a; ex_sub; ex_b] s d Hd D) as (x & C & _).
  split; [vm_compute; reflexivity|].
  exists x. rewrite C. vm_compute. reflexivity.
Defined.

Lemma uploadFiles_reports_first_error_witness :
  let s := started ex_host_denied
             (ex_syncer (ex_faulty [5%nat] "connection lost") "incremental" 2) in
  let files := [ex_a; ex_sub; ex_b] in
  let pl := run_pool ex_host_denied ex_target ex_turns (start_pool files s) in
  map (fun d => (RelPath (job_file d), job_result d)) (done pl)
  = [(["sub"], None);
     (["sub"; "b.txt"],
      Some "failed to upload file sub/b.txt: failed to open local file: no such file or directory");
     (["a.txt"],
      Some "failed to upload file a.txt: failed to write to remote file: connection lost")] /\
  uploadFiles ex_host_denied ex_turns files ex_target s
  = Some (sess pl,
          Some "worker error: failed to upload file sub/b.txt: failed to open local file: no such file or directory").
Proof.
  intros s files pl.
  split; [vm_compute; reflexivity|].
  apply (uploadFiles_reports_first_error ex_host_denied ex_turns files ex_target s
           [nth_done 0 pl] [nth_done 2 pl] (nth_done 1 pl)).
  - vm_compute; reflexivity.
  - vm_compute; reflexivity.
  - constructor; [vm_compute; reflexivity | constructor].
  - vm_compute; reflexivity.
Defined.

Lemma single_worker_in_order_witness :
  let s := started ex_host_sub (ex_syncer ex_server "incremental" 1) in
  let files := [ex_a; ex_sub; ex_b] in
  let pl := run_pool ex_host_sub ex_target (repeat 0%nat 40) (start_pool files s) in
  forallb exited (threads pl) = true /\
  map job_file (done pl) = files.
Proof.
  intros s files pl.
  assert (Ex : forallb exited (threads pl) = true) by (vm_compute; reflexivity).
  split; [exact Ex|].
  apply (single_worker_in_order ex_host_sub (repeat 0%nat 40) files ex_target s);
    [vm_compute; reflexivity | exact Ex].
Defined.

Lemma uploadFiles_no_entries_witness :
  let s := started ex_host_sub (ex_syncer ex_server "incremental" 2) in
  let s' := state_of (uploadFiles ex_host_sub [0%nat; 1%nat] [] ex_target s) in
  uploadFiles ex_host_sub [0%nat; 1%nat] [] ex_target s = Some (s', None) /\ s' = s.
Proof.
  intros s s'.
  assert (U : uploadFiles ex_host_sub [0%nat; 1%nat] [] ex_target s = Some (s', None))
    by (vm_compute; reflexivity).
  split; [exact U|].
  exact (proj1 (uploadFiles_no_entries ex_host_sub [0%nat; 1%nat] ex_target s s' None U)).
Defined.

Lemma fullSync_footprint_witness :
  let s := ex_syncer ex_server "full" 1 in
  let s' := state_of (fullSync ex_host ex_sched s) in
  fullSync ex_host ex_sched s = Some (s', None) /\
  exists new,
    calls s' = (calls s ++ new)%list /\
    Forall (fun c => full_op (Format ex_host) ex_target ex_temp (fst c)) new.
Proof.
  intros s s'.
  assert (H : fullSync ex_host ex_sched s = Some (s', None))
    by (vm_compute; reflexivity).
  split; [exact H|].
  exact (fullSync_footprint ex_host ex_sched s s' None H).
Defined.

Lemma every_entry_attempted_witness :
  let s := started ex_host_denied (ex_syncer ex_server "incremental" 2) in
  let files := [ex_a; ex_sub; ex_b] in
  let r := Some "worker error: failed to upload file sub/b.txt: failed to open local file: no such file or directory" in
  let s' := state_of (uploadFiles ex_host_denied ex_turns files ex_target s) in
  0 < workers s /\
  uploadFiles ex_host_denied ex_turns files ex_target s = Some (s', r) /\
  (exists x, In (MkdirAll ["srv"; "www"; "sub"], x) (calls s')) /\
  (exists x, In (MkdirAll ["srv"; "www"], x) (calls s')).
Proof.
  intros s files r s'.
  assert (W : 0 < workers s) by (vm_compute; reflexivity).
  assert (U : uploadFiles ex_host_denied ex_turns files ex_target s = Some (s', r))
    by (vm_compute; reflexivity).
  split; [exact W|]. split; [exact U|]. split.
  - apply (every_entry_attempted ex_host_denied ex_target ex_turns files
             s s' r ex_sub W U); [right; left; reflexivity | reflexivity].
  - apply (every_entry_attempted ex_host_denied ex_target ex_turns files
             s s' r ex_a W U) with (lf := mkLocalFile [ex_bytes 6; ex_bytes 4] None);
      [left; reflexivity | reflexivity | reflexivity].
Defined.

Lemma bar_follows_counter_witness :
  let s := started ex_host_sub (ex_syncer ex_server "incremental" 2) in
  let files := [ex_a; ex_sub; ex_b] in
  let pl := run_pool ex_host_sub ex_target (firstn 14 ex_turns) (start_pool files s) in
  bar_tracks 15 0 s /\ bar_tracks 15 0 (sess pl) /\
  forallb exited (threads pl) = false /\
  option_map bar_current (bar (sess pl)) = Some [10; 6] /\
  syncedSize (sess pl) = 10.
Proof.
  intros s files pl.
  assert (B : bar_tracks 15 0 s).
  { split; [vm_compute; reflexivity|].
    exists (bar_Start64 15). repeat split; vm_compute; reflexivity. }
  split; [exact B|].
  split; [exact (bar_follows_counter ex_host_sub (firstn 14 ex_turns) files
                   ex_target s 15 0 B)|].
  repeat split; vm_compute; reflexivity.
Defined.

Lemma incrementalSync_full_progress_witness :
  let s := ex_syncer ex_server "incremental" 2 in
  let files := [ex_a; ex_sub; ex_b] in
  let s' := state_of (incrementalSync ex_host_sub ex_turns s) in
  incrementalSync ex_host_sub ex_turns s = Some (s', None) /\
  syncedSize s' = 15 /\ totalSize s' = 15.
Proof.
  intros s files s'.
  assert (H : incrementalSync ex_host_sub ex_turns s = Some (s', None))
    by (vm_compute; reflexivity).
  assert (Sz : forall f lf, In f files -> os_Open ex_host_sub (Path f) = inr lf ->
                            file_bytes lf = Size f).
  { intros f lf [<- | [<- | [<- | []]]] O; vm_compute in O; inversion O; reflexivity. }
  destruct (incrementalSync_full_progress ex_host_sub ex_turns s s' files)
    as (A & B & _); try (vm_compute; reflexivity); try assumption.
  split; [exact H|]. split; [exact A | exact B].
Defined.
